(** * Inline image generation: directive scanner, adapters, retry and patching

    A shallow embedding of [src/index.js].  JavaScript strings are sequences
    of UTF-16 code units, so a string is a [list N]; indices are [nat] and the
    [-1] that [indexOf] returns for "not found" is [None]. *)

From Stdlib Require Import ZArith NArith List String Ascii Bool Lia.
From Stdlib Require Import DecimalString Sorted.
From Stdlib Require DecimalNat.
From stdpp Require Import base list gmap.
Import ListNotations.

Local Open Scope nat_scope.

(** ** JavaScript strings *)

Module JsString.

Definition cu := N.
Definition jstr := list cu.

Definition dq : cu := 34%N.       (* the double quote *)
Definition sq : cu := 39%N.       (* the single quote *)
Definition bs : cu := 92%N.       (* the backslash *)
Definition lbrace : cu := 123%N.
Definition rbrace : cu := 125%N.
Definition rbrack : cu := 93%N.
Definition gt : cu := 62%N.
Definition dollar : cu := 36%N.

(** [lit] reads an ASCII literal.  A backquote in the literal stands for the
    double quote, which cannot be written inside a literal here; no string of
    the program contains a backquote. *)
Fixpoint lit (s : string) : jstr :=
  match s with
  | EmptyString => []
  | String a r =>
      (let n := N_of_ascii a in if N.eqb n 96 then dq else n) :: lit r
  end.
Arguments lit : simpl never.

Definition cu_eqb (a b : cu) : bool := N.eqb a b.

Fixpoint jstr_eqb (a b : jstr) : bool :=
  match a, b with
  | [], [] => true
  | x :: a', y :: b' => cu_eqb x y && jstr_eqb a' b'
  | _, _ => false
  end.

(** [prefixb p s]: [s] begins with [p]. *)
Fixpoint prefixb (p s : jstr) : bool :=
  match p, s with
  | [], _ => true
  | a :: p', b :: s' => cu_eqb a b && prefixb p' s'
  | _ :: _, [] => false
  end.

(** [find_from p s k]: the first position of [p] in [s], counted from [k]. *)
Fixpoint find_from (p s : jstr) (k : nat) : option nat :=
  if prefixb p s then Some k
  else match s with
       | [] => None
       | _ :: s' => find_from p s' (S k)
       end.

(** [text.indexOf(pat, from)] *)
Definition indexOf (text pat : jstr) (from : nat) : option nat :=
  let from := Nat.min from (length text) in
  find_from pat (drop from text) from.

(** [text.lastIndexOf(pat, from)]: the last position [k <= from] where [pat]
    occurs.  [find_last] walks the text forward and remembers the latest hit. *)
Fixpoint find_last (p s : jstr) (k : nat) (upto : nat) (acc : option nat)
  : option nat :=
  let acc' := if prefixb p s then Some k else acc in
  match upto, s with
  | 0, _ => acc'
  | _, [] => acc'
  | S u, _ :: s' => find_last p s' (S k) u acc'
  end.

Definition lastIndexOf (text pat : jstr) (from : nat) : option nat :=
  find_last pat text 0 from None.

(** [text.substring(a, b)] *)
Definition substring (text : jstr) (a b : nat) : jstr :=
  let lo := Nat.min a b in
  let hi := Nat.max a b in
  take (hi - lo) (drop lo text).

(** [text.substring(a)] *)
Definition substring_from (text : jstr) (a : nat) : jstr := drop a text.

Definition startsWith (text pat : jstr) : bool := prefixb pat text.

Definition includes (text pat : jstr) : bool :=
  match find_from pat text 0 with Some _ => true | None => false end.

(** [text.replace(/c/g, r)] for a one-character pattern [c]. *)
Definition replace_all_char (c : cu) (r : jstr) (text : jstr) : jstr :=
  flat_map (fun x => if cu_eqb x c then r else [x]) text.

End JsString.

Import JsString.

(** ** The brace scan of [parseImageTags]

    Both sub-scans of [parseImageTags] (lines 782-816 for the [<img>] format
    and 906-940 for the bracket format) run the same loop from [jsonStart];
    it is modelled once. *)

Module Scanner.

(** One run of [for (let i = jsonStart; i < text.length; i++)]: [rest] is the
    text from position [i] on.  [None] is [jsonEnd === -1]. *)
Fixpoint scanLoop (rest : jstr) (i : nat) (braceCount : Z)
    (inString escapeNext : bool) : option nat :=
  match rest with
  | [] => None
  | char :: rest' =>
      if escapeNext then scanLoop rest' (S i) braceCount inString false
      else if cu_eqb char bs && inString
      then scanLoop rest' (S i) braceCount inString true
      else if cu_eqb char dq
      then scanLoop rest' (S i) braceCount (negb inString) false
      else if negb inString then
        if cu_eqb char lbrace
        then scanLoop rest' (S i) (braceCount + 1)%Z inString false
        else if cu_eqb char rbrace then
          let braceCount := (braceCount - 1)%Z in
          if (braceCount =? 0)%Z then Some (i + 1)
          else scanLoop rest' (S i) braceCount inString false
        else scanLoop rest' (S i) braceCount inString false
      else scanLoop rest' (S i) braceCount inString false
  end.

Definition scanBraces (text : jstr) (jsonStart : nat) : option nat :=
  scanLoop (drop jsonStart text) jsonStart 0%Z false false.

(** *** What a string-aware brace match is

    The body of a quoted string: any character but the quote and the
    backslash, or a backslash followed by any one character. *)
Inductive str_body : jstr -> Prop :=
  | sb_nil : str_body []
  | sb_char c s : c <> dq -> c <> bs -> str_body s -> str_body (c :: s)
  | sb_esc c s : str_body s -> str_body (bs :: c :: s).

(** The inside of a pair of braces: plain characters, quoted strings and
    nested brace pairs. *)
Inductive items : jstr -> Prop :=
  | it_nil : items []
  | it_plain c s :
      c <> dq -> c <> lbrace -> c <> rbrace -> items s -> items (c :: s)
  | it_str b s : str_body b -> items s -> items (dq :: b ++ dq :: s)
  | it_obj b s : items b -> items s -> items (lbrace :: b ++ rbrace :: s).

End Scanner.

Import Scanner.

(** ** [JSON.parse]

    The payload of a directive goes through the platform's [JSON.parse].  It
    is modelled by a recursive-descent parser of the JSON grammar of
    ECMA-404, as ECMAScript prescribes.  A number keeps its decimal reading
    [(-1)^neg * mant * 10^exp], which is all the program asks of it (whether
    it is zero as a double). *)

Module Json.

#[warnings="-register-all"]
Inductive json :=
  | JNull
  | JBool (b : bool)
  | JNumber (neg : bool) (mant : N) (exp : Z)
  | JString (s : jstr)
  | JArray (l : list json)
  | JObject (m : list (jstr * json)).

Inductive presult (A : Type) :=
  | POk (a : A) (rest : jstr)
  | PErr
  | PFuel.
Arguments POk {A} a rest.
Arguments PErr {A}.
Arguments PFuel {A}.

Definition is_ws (c : cu) : bool :=
  cu_eqb c 9%N || cu_eqb c 10%N || cu_eqb c 13%N || cu_eqb c 32%N.

Fixpoint skip_ws (s : jstr) : jstr :=
  match s with
  | c :: r => if is_ws c then skip_ws r else s
  | [] => []
  end.

Definition is_digit (c : cu) : bool := (N.leb 48 c && N.leb c 57)%N.

Definition hex_val (c : cu) : option N :=
  if (N.leb 48 c && N.leb c 57)%N then Some (c - 48)%N
  else if (N.leb 65 c && N.leb c 70)%N then Some (c - 55)%N
  else if (N.leb 97 c && N.leb c 102)%N then Some (c - 87)%N
  else None.

Definition hex4 (a b c d : cu) : option cu :=
  match hex_val a, hex_val b, hex_val c, hex_val d with
  | Some x, Some y, Some z, Some w => Some (((x * 16 + y) * 16 + z) * 16 + w)%N
  | _, _, _, _ => None
  end.

Definition simple_escape (c : cu) : option cu :=
  if cu_eqb c dq then Some dq
  else if cu_eqb c bs then Some bs
  else if cu_eqb c 47%N then Some 47%N
  else if cu_eqb c 98%N then Some 8%N
  else if cu_eqb c 102%N then Some 12%N
  else if cu_eqb c 110%N then Some 10%N
  else if cu_eqb c 114%N then Some 13%N
  else if cu_eqb c 116%N then Some 9%N
  else None.

(** The characters of a string after its opening quote; [acc] holds the
    decoded characters so far, last first. *)
Fixpoint parse_string_body (s : jstr) (acc : jstr) : option (jstr * jstr) :=
  match s with
  | [] => None
  | c :: r =>
      if cu_eqb c dq then Some (rev acc, r)
      else if cu_eqb c bs then
        match r with
        | [] => None
        | e :: r1 =>
            if cu_eqb e 117%N then
              match r1 with
              | h1 :: h2 :: h3 :: h4 :: r2 =>
                  match hex4 h1 h2 h3 h4 with
                  | Some u => parse_string_body r2 (u :: acc)
                  | None => None
                  end
              | _ => None
              end
            else
              match simple_escape e with
              | Some u => parse_string_body r1 (u :: acc)
              | None => None
              end
        end
      else if (c <? 32)%N then None
      else parse_string_body r (c :: acc)
  end.

(** A run of digits: their value appended to [acc], and how many there were. *)
Fixpoint take_digits (s : jstr) (acc : N) (count : nat) : N * nat * jstr :=
  match s with
  | c :: r =>
      if is_digit c then take_digits r (acc * 10 + (c - 48))%N (S count)
      else (acc, count, s)
  | [] => (acc, count, [])
  end.

Definition parse_exponent (s : jstr) : option (Z * jstr) :=
  match s with
  | c :: r =>
      if cu_eqb c 101%N || cu_eqb c 69%N then
        let '(sign, r1) :=
          match r with
          | d :: r' =>
              if cu_eqb d 43%N then (1%Z, r')
              else if cu_eqb d 45%N then ((-1)%Z, r')
              else (1%Z, r)
          | [] => (1%Z, r)
          end in
        let '(e, n, r2) := take_digits r1 0%N 0 in
        match n with
        | 0 => None
        | S _ => Some ((sign * Z.of_N e)%Z, r2)
        end
      else Some (0%Z, s)
  | [] => Some (0%Z, [])
  end.

Definition parse_fraction (s : jstr) (mant : N) : option (N * nat * jstr) :=
  match s with
  | c :: r =>
      if cu_eqb c 46%N then
        let '(m, n, r1) := take_digits r mant 0 in
        match n with
        | 0 => None
        | S _ => Some (m, n, r1)
        end
      else Some (mant, 0, s)
  | [] => Some (mant, 0, [])
  end.

(** A number: an optional minus sign, an integer part without a leading
    zero, an optional fraction and an optional exponent. *)
Definition parse_number (s : jstr) : option (json * jstr) :=
  let '(neg, s1) :=
    match s with
    | c :: r => if cu_eqb c 45%N then (true, r) else (false, s)
    | [] => (false, s)
    end in
  match s1 with
  | d :: r =>
      if is_digit d then
        let '(m, r1) :=
          if cu_eqb d 48%N then (0%N, r)
          else let '(m, _, r1) := take_digits s1 0%N 0 in (m, r1) in
        match parse_fraction r1 m with
        | Some (m', fd, r2) =>
            match parse_exponent r2 with
            | Some (e, r3) => Some (JNumber neg m' (e - Z.of_nat fd)%Z, r3)
            | None => None
            end
        | None => None
        end
      else None
  | [] => None
  end.

Definition parse_keyword (kw : jstr) (v : json) (s : jstr)
  : presult json :=
  if prefixb kw s then POk v (drop (length kw) s) else PErr.

Fixpoint parse_value (fuel : nat) (s : jstr) : presult json :=
  match fuel with
  | 0 => PFuel
  | S f =>
      match skip_ws s with
      | [] => PErr
      | c :: r =>
          if cu_eqb c lbrace then
            match skip_ws r with
            | c2 :: r2 =>
                if cu_eqb c2 rbrace then POk (JObject []) r2
                else parse_members f (c2 :: r2) []
            | [] => PErr
            end
          else if cu_eqb c 91%N then
            match skip_ws r with
            | c2 :: r2 =>
                if cu_eqb c2 rbrack then POk (JArray []) r2
                else parse_elements f (c2 :: r2) []
            | [] => PErr
            end
          else if cu_eqb c dq then
            match parse_string_body r [] with
            | Some (str, r') => POk (JString str) r'
            | None => PErr
            end
          else if cu_eqb c 116%N then parse_keyword (lit "true") (JBool true) (c :: r)
          else if cu_eqb c 102%N then parse_keyword (lit "false") (JBool false) (c :: r)
          else if cu_eqb c 110%N then parse_keyword (lit "null") JNull (c :: r)
          else
            match parse_number (c :: r) with
            | Some (v, r') => POk v r'
            | None => PErr
            end
      end
  end
with parse_members (fuel : nat) (s : jstr) (acc : list (jstr * json))
  : presult json :=
  match fuel with
  | 0 => PFuel
  | S f =>
      match s with
      | c :: r =>
          if cu_eqb c dq then
            match parse_string_body r [] with
            | Some (k, r1) =>
                match skip_ws r1 with
                | c1 :: r2 =>
                    if cu_eqb c1 58%N then
                      match parse_value f r2 with
                      | POk v r3 =>
                          match skip_ws r3 with
                          | c3 :: r4 =>
                              if cu_eqb c3 44%N
                              then parse_members f (skip_ws r4) ((k, v) :: acc)
                              else if cu_eqb c3 rbrace
                              then POk (JObject (rev ((k, v) :: acc))) r4
                              else PErr
                          | [] => PErr
                          end
                      | PErr => PErr
                      | PFuel => PFuel
                      end
                    else PErr
                | [] => PErr
                end
            | None => PErr
            end
          else PErr
      | [] => PErr
      end
  end
with parse_elements (fuel : nat) (s : jstr) (acc : list json)
  : presult json :=
  match fuel with
  | 0 => PFuel
  | S f =>
      match parse_value f s with
      | POk v r1 =>
          match skip_ws r1 with
          | c :: r2 =>
              if cu_eqb c 44%N then parse_elements f r2 (v :: acc)
              else if cu_eqb c rbrack then POk (JArray (rev (v :: acc))) r2
              else PErr
          | [] => PErr
          end
      | PErr => PErr
      | PFuel => PFuel
      end
  end.

(** [JSON.parse(text)]; [None] is the [SyntaxError] it throws.  The fuel is
    enough for any text (see [JSON_parse_fuel]). *)
Definition JSON_parse (text : jstr) : option json :=
  match parse_value (S (2 * length text)) text with
  | POk v rest =>
      match skip_ws rest with
      | [] => Some v
      | _ :: _ => None
      end
  | _ => None
  end.

(** Property access [data.key] on a parsed value: of the members with that
    name the last one counts; [None] is [undefined]. *)
Fixpoint lookup_last (key : jstr) (m : list (jstr * json)) (acc : option json)
  : option json :=
  match m with
  | [] => acc
  | (k, v) :: m' =>
      lookup_last key m' (if jstr_eqb k key then Some v else acc)
  end.

Definition get (data : json) (key : jstr) : option json :=
  match data with
  | JObject m => lookup_last key m None
  | _ => None
  end.

(** A number literal is zero as a double when its digits are all zero, or
    when it is at most [2^-1075], half the least subnormal. *)
Definition number_is_zero (mant : N) (exp : Z) : bool :=
  N.eqb mant 0
  || ((exp <? 0)%Z && (Z.of_N mant * 2 ^ 1075 <=? 10 ^ (- exp))%Z).

(** ToBoolean *)
Definition truthy (v : json) : bool :=
  match v with
  | JNull => false
  | JBool b => b
  | JNumber _ m e => negb (number_is_zero m e)
  | JString s => match s with [] => false | _ :: _ => true end
  | JArray _ => true
  | JObject _ => true
  end.

Definition truthy_opt (v : option json) : bool :=
  match v with Some x => truthy x | None => false end.

(** [a || dflt] where [a] may be [undefined] *)
Definition or_else (a : option json) (dflt : json) : json :=
  match a with
  | Some x => if truthy x then x else dflt
  | None => dflt
  end.

(** [a || b || dflt] *)
Definition or_else2 (a b : option json) (dflt : json) : json :=
  if truthy_opt a then or_else a dflt else or_else b dflt.

End Json.

Import Json.

(** ** The regular expressions of the program

    Each regular expression is written out as the matcher it denotes.  None
    of them can succeed by backtracking where the greedy reading fails, so
    the greedy matcher is exact. *)

Module Regex.

(** [\s] *)
Definition is_space (c : cu) : bool :=
  ((9 <=? c) && (c <=? 13) || (c =? 32) || (c =? 160) || (c =? 5760)
   || (8192 <=? c) && (c <=? 8202) || (c =? 8232) || (c =? 8233)
   || (c =? 8239) || (c =? 8287) || (c =? 12288) || (c =? 65279))%N.

(** A lower-case ASCII letter under the [i] flag: itself or its capital. *)
Definition ci (lower c : cu) : bool :=
  (cu_eqb c lower || cu_eqb c (lower - 32))%N.

Fixpoint ci_prefix (p s : jstr) : option jstr :=
  match p, s with
  | [], _ => Some s
  | a :: p', b :: s' =>
      if (if (97 <=? a)%N && (a <=? 122)%N then ci a b else cu_eqb a b)
      then ci_prefix p' s' else None
  | _ :: _, [] => None
  end.

Fixpoint skip_space (s : jstr) : jstr :=
  match s with
  | c :: r => if is_space c then skip_space r else s
  | [] => []
  end.

Definition is_quote (c : cu) : bool := cu_eqb c dq || cu_eqb c sq.

(** The class of line 833: any character but a quote, a blank or [>]. *)
Definition is_src_char (c : cu) : bool :=
  negb (is_quote c || is_space c || cu_eqb c gt).

Fixpoint span (p : cu -> bool) (s : jstr) : jstr * jstr :=
  match s with
  | c :: r => if p c then let '(a, b) := span p r in (c :: a, b) else ([], s)
  | [] => ([], [])
  end.

Definition skip_opt_quote (s : jstr) : jstr :=
  match s with
  | q :: r => if is_quote q then r else s
  | [] => []
  end.

(** The leftmost position at which [at_] matches: [s.match(re)]. *)
Fixpoint search {A} (at_ : jstr -> option A) (s : jstr) (k : nat)
  : option (nat * A) :=
  match at_ s with
  | Some a => Some (k, a)
  | None => match s with
            | [] => None
            | _ :: r => search at_ r (S k)
            end
  end.

(** The expression of line 833 at the head of [s]: [src], blanks, [=],
    blanks, an optional quote, then group 1, which is one or more characters
    of the class above; case is ignored.  The result is group 1. *)
Definition src_value_at (s : jstr) : option jstr :=
  match ci_prefix (lit "src") s with
  | Some r =>
      match skip_space r with
      | e :: r1 =>
          if cu_eqb e 61%N then
            let '(v, _) :=
              span is_src_char (skip_opt_quote (skip_space r1)) in
            match v with
            | [] => None
            | _ :: _ => Some v
            end
          else None
      | [] => None
      end
  | None => None
  end.

(** The expression of lines 1195 and 1211 at the head of [s]: [src], blanks,
    [=], blanks, a quote (group 1), any characters that are no quote, and the
    quote of group 1 again; case is ignored.  The result is the length of the
    match and group 1. *)
Definition src_attr_at (s : jstr) : option (nat * cu) :=
  match ci_prefix (lit "src") s with
  | Some r =>
      match skip_space r with
      | e :: r1 =>
          if cu_eqb e 61%N then
            match skip_space r1 with
            | q :: r2 =>
                if is_quote q then
                  let '(v, r3) := span (fun c => negb (is_quote c)) r2 in
                  match r3 with
                  | q' :: r4 =>
                      if cu_eqb q' q
                      then Some (length s - length r4, q)
                      else None
                  | [] => None
                  end
                else None
            | [] => None
            end
          else None
      | [] => None
      end
  | None => None
  end.

(** The expression of line 362 at the head of [s]: [src=], an optional
    quote, group 1, which is [/user/images/] and one or more characters of the
    class above, and an optional quote; case is ignored.  The result is the
    length of the match and group 1. *)
Definition img_path_at (s : jstr) : option (nat * jstr) :=
  match ci_prefix (lit "src=") s with
  | Some r =>
      let r1 := skip_opt_quote r in
      match ci_prefix (lit "/user/images/") r1 with
      | Some r2 =>
          let '(v, r3) := span is_src_char r2 in
          match v with
          | [] => None
          | _ :: _ =>
              let r4 := skip_opt_quote r3 in
              Some (length s - length r4,
                    take (length (lit "/user/images/")) r1 ++ v)
          end
      | None => None
      end
  | None => None
  end.

(** The [while ((match = re.exec(s)) !== null)] loop over a global regular
    expression: every match in turn, each search starting where the last
    match ended.  [skip] counts the characters of the current match still to
    be passed over. *)
Fixpoint exec_all {A} (at_ : jstr -> option (nat * A)) (s : jstr) (skip : nat)
  : list A :=
  match skip with
  | S k => match s with
           | _ :: r => exec_all at_ r k
           | [] => []
           end
  | 0 =>
      match at_ s with
      | Some (len, a) =>
          match s with
          | _ :: r => a :: exec_all at_ r (len - 1)
          | [] => [a]
          end
      | None =>
          match s with
          | _ :: r => exec_all at_ r 0
          | [] => []
          end
      end
  end.

End Regex.

(** ** [parseImageTags] *)

Module Parser.

Record tag := {
  fullMatch : jstr;
  index : nat;
  style : json;
  prompt : json;
  aspectRatio : json;
  preset : json;
  imageSize : json;
  quality : json;
  isNewFormat : bool;
  existingSrc : option jstr
}.

Inductive log_level := INFO | WARN | ERROR.

(** What the [catch] of a directive's [try] block caught. *)
Inductive caught := SyntaxError | TypeError.

(** The lines [parseImageTags] hands to [iigLog]. *)
Inductive log_entry :=
  | LogMissingFile (src : jstr)
  | LogFound (newFormat : bool) (promptPrefix : option jstr)
  | LogParseFailed (newFormat : bool) (jsonPrefix : jstr) (e : caught).

Definition level_of (l : log_entry) : log_level :=
  match l with
  | LogMissingFile _ => WARN
  | LogFound _ _ => INFO
  | LogParseFailed _ _ _ => WARN
  end.

Record parse_options := { checkExistence : bool; forceAll : bool }.

Definition imgTagMarker : jstr := lit "data-iig-instruction=".
Definition marker : jstr := lit "[IMG:GEN:".

(** One turn of a [while (true)] loop: [Break], or on to the next search
    position with what the turn pushed and logged. *)
Inductive turn :=
  | Break
  | Next (searchPos : nat) (pushed : list tag) (logged : list log_entry).

(** [data.prompt?.substring(0, 50)]: [undefined] for a missing or null
    prompt, a [TypeError] for a value that has no [substring]. *)
Definition prompt_prefix (data : json) : option (option jstr) :=
  match get data (lit "prompt") with
  | None => Some None
  | Some JNull => Some None
  | Some (JString s) => Some (Some (substring s 0 50))
  | Some _ => None
  end.

(** The [try] block of a directive (lines 866-892 and 957-976): parse,
    push, log; whatever is thrown ends in the [catch], which logs. *)
Definition try_directive (newFormat : bool) (normalizedJson jsonText : jstr)
    (full : jstr) (idx : nat) (existing : option jstr)
  : list tag * list log_entry :=
  match JSON_parse normalizedJson with
  | None => ([], [LogParseFailed newFormat (substring jsonText 0 100) SyntaxError])
  | Some JNull => ([], [LogParseFailed newFormat (substring jsonText 0 100) TypeError])
  | Some data =>
      let t := {|
        fullMatch := full;
        index := idx;
        style := or_else (get data (lit "style")) (JString []);
        prompt := or_else (get data (lit "prompt")) (JString []);
        aspectRatio := or_else2 (get data (lit "aspect_ratio"))
                         (get data (lit "aspectRatio")) JNull;
        preset := or_else (get data (lit "preset")) JNull;
        imageSize := or_else2 (get data (lit "image_size"))
                       (get data (lit "imageSize")) JNull;
        quality := or_else (get data (lit "quality")) JNull;
        isNewFormat := newFormat;
        existingSrc := existing
      |} in
      match prompt_prefix data with
      | Some p => ([t], [LogFound newFormat p])
      | None =>
          ([t], [LogParseFailed newFormat (substring jsonText 0 100) TypeError])
      end
  end.

(** Lines 867-872: five replacements, each of a character by itself. *)
Definition normalize_new (instructionJson : jstr) : jstr :=
  replace_all_char 38%N [38%N]
    (replace_all_char dq [dq]
      (replace_all_char sq [sq]
        (replace_all_char sq [sq]
          (replace_all_char dq [dq] instructionJson)))).

(** Line 958: every single quote of [jsonStr] becomes a double quote. *)
Definition normalize_legacy (jsonStr : jstr) : jstr :=
  replace_all_char sq [dq] jsonStr.

Section WithHost.

(** [checkFileExists]: the answer of the host to a [HEAD] request. *)
Variable checkFileExists : jstr -> bool.

(** One turn of the first loop (lines 765-895). *)
Definition tagged_turn (text : jstr) (o : parse_options) (searchPos : nat)
  : turn :=
  match indexOf text imgTagMarker searchPos with
  | None => Break
  | Some markerPos =>
  match lastIndexOf text (lit "<img") markerPos with
  | None => Next (markerPos + 1) [] []
  | Some imgStart =>
  if 500 <? markerPos - imgStart then Next (markerPos + 1) [] [] else
  let afterMarker := markerPos + length imgTagMarker in
  match indexOf text [lbrace] afterMarker with
  | None => Next (markerPos + 1) [] []
  | Some jsonStart =>
  if afterMarker + 10 <? jsonStart then Next (markerPos + 1) [] [] else
  match scanBraces text jsonStart with
  | None => Next (markerPos + 1) [] []
  | Some jsonEnd =>
  match indexOf text [gt] jsonEnd with
  | None => Next (markerPos + 1) [] []
  | Some gtPos =>
  let imgEnd := gtPos + 1 in
  let fullImgTag := substring text imgStart imgEnd in
  let instructionJson := substring text jsonStart jsonEnd in
  let srcValue :=
    match Regex.search Regex.src_value_at fullImgTag 0 with
    | Some (_, v) => v
    | None => []
    end in
  let hasMarker :=
    includes srcValue (lit "[IMG:GEN]") || includes srcValue (lit "[IMG:") in
  let hasErrorImage := includes srcValue (lit "error.svg") in
  let hasPath :=
    negb (length srcValue =? 0) && startsWith srcValue (lit "/")
    && (5 <? length srcValue) in
  if hasErrorImage && negb (forceAll o) then Next imgEnd [] [] else
  let directive (logged : list log_entry) :=
    let '(ts, ls) :=
      try_directive true (normalize_new instructionJson) instructionJson
        fullImgTag imgStart (if hasPath then Some srcValue else None) in
    Next imgEnd ts (logged ++ ls) in
  if forceAll o then directive []
  else if hasMarker || (length srcValue =? 0) then directive []
  else if hasPath && checkExistence o then
    if checkFileExists srcValue then Next imgEnd [] []
    else directive [LogMissingFile srcValue]
  else Next imgEnd [] []
  end end end end end.

(** One turn of the second loop (lines 900-979). *)
Definition legacy_turn (text : jstr) (searchStart : nat) : turn :=
  match indexOf text marker searchStart with
  | None => Break
  | Some markerIndex =>
      let jsonStart := markerIndex + length marker in
      match scanBraces text jsonStart with
      | None => Next jsonStart [] []
      | Some jsonEnd =>
          let jsonStr := substring text jsonStart jsonEnd in
          let afterJson := substring_from text jsonEnd in
          if negb (startsWith afterJson [rbrack]) then Next jsonEnd [] []
          else
            let tagOnly := substring text markerIndex (jsonEnd + 1) in
            let '(ts, ls) :=
              try_directive false (normalize_legacy jsonStr) jsonStr
                tagOnly markerIndex None in
            Next (jsonEnd + 1) ts ls
      end
  end.

(** A [while (true)] loop: turns until [Break].  [None] when the fuel runs
    out before the loop ends. *)
Fixpoint run_loop (turn_at : nat -> turn) (fuel : nat) (pos : nat)
    (tags : list tag) (log : list log_entry)
  : option (list tag * list log_entry) :=
  match fuel with
  | 0 => None
  | S f =>
      match turn_at pos with
      | Break => Some (tags, log)
      | Next pos' ts ls => run_loop turn_at f pos' (tags ++ ts) (log ++ ls)
      end
  end.

(** [parseImageTags(text, options)]: the tags it returns and the lines it
    logs.  Each turn moves the search position forward, so [length text + 1]
    turns per loop are enough (see [parseImageTags_returns]). *)
Definition scan_from (turn_at : nat -> turn) (text : jstr) (pos : nat)
    (tags : list tag) (log : list log_entry)
  : option (list tag * list log_entry) :=
  run_loop turn_at (S (length text)) pos tags log.

Definition parseImageTags (text : jstr) (o : parse_options)
  : option (list tag * list log_entry) :=
  match scan_from (tagged_turn text o) text 0 [] [] with
  | None => None
  | Some (tags, log) => scan_from (legacy_turn text) text 0 tags log
  end.

End WithHost.

End Parser.

Import Parser.

(** ** Configuration and chat *)

Module Config.

(** The fields of the settings object that the modelled functions read. *)
Record settings := {
  enabled : bool;
  apiType : jstr;
  endpoint : jstr;
  apiKey : jstr;
  model : jstr;
  size : jstr;
  quality : jstr;
  maxRetries : Z;
  retryDelay : Z;
  sendCharAvatar : bool;
  sendUserAvatar : bool;
  aspectRatio : jstr;
  imageSize : jstr;
  naisteraAspectRatio : jstr;
  naisteraPreset : jstr;
  naisteraSendCharAvatar : bool;
  naisteraSendUserAvatar : bool;
  sendPreviousImages : bool;
  maxPreviousImages : Z;
  sendStyleReference : bool;
  sendNpcReferences : bool;
  npcReferenceImages : list (jstr * jstr)
}.

Definition defaultSettings : settings := {|
  enabled := true;
  apiType := lit "openai";
  endpoint := [];
  apiKey := [];
  model := [];
  size := lit "1024x1024";
  quality := lit "standard";
  maxRetries := 0;
  retryDelay := 1000;
  sendCharAvatar := false;
  sendUserAvatar := false;
  aspectRatio := lit "1:1";
  imageSize := lit "1K";
  naisteraAspectRatio := lit "1:1";
  naisteraPreset := [];
  naisteraSendCharAvatar := false;
  naisteraSendUserAvatar := false;
  sendPreviousImages := true;
  maxPreviousImages := 2;
  sendStyleReference := true;
  sendNpcReferences := true;
  npcReferenceImages := []
|}.

(** A message of [context.chat]. *)
Record message := { mes : jstr; is_user : bool }.

(** A string in a condition: the empty string is false. *)
Definition nonempty (s : jstr) : bool :=
  match s with [] => false | _ :: _ => true end.

End Config.

Import Config.

(** ** [collectReferenceImages] *)

Module Collector.

Record generated := { path : jstr; messageIndex : nat }.

Record references := {
  previous : list jstr;
  style_ref : option jstr;
  npcs : list jstr
}.

(** The inner [while] of lines 362-373 on one message. *)
Definition images_of (i : nat) (m : message) : list generated :=
  map (fun p => {| path := p; messageIndex := i |})
    (List.filter (fun p => includes p (lit "iig_"))
       (Regex.exec_all Regex.img_path_at (mes m) 0)).

(** Lines 356-374: the chat from its last message down to its first, the
    message being generated for left out.  [rest] holds the messages below
    index [n], the latest first. *)
Fixpoint scan_chat (rest : list message) (n : nat)
    (currentMessageId : option nat) : list generated :=
  match rest, n with
  | m :: rest', S i =>
      (if match currentMessageId with
          | Some c => c =? i
          | None => false
          end
       then []
       else if nonempty (mes m) then images_of i m else [])
      ++ scan_chat rest' i currentMessageId
  | _, _ => []
  end.

Definition generatedImages (chat : list message)
    (currentMessageId : option nat) : list generated :=
  scan_chat (rev chat) (length chat) currentMessageId.

Section WithHost.

(** [imageUrlToDataUrl]: what the host answers for a path; [None] is the
    [null] of a failed retrieval. *)
Variable imageUrlToDataUrl : jstr -> option jstr.

(** [String.prototype.toLowerCase] *)
Variable toLowerCase : jstr -> jstr.

(** A retrieved value in a condition: [null] and the empty string are
    false. *)
Definition fetched (p : jstr) : option jstr :=
  match imageUrlToDataUrl p with
  | Some d => if nonempty d then Some d else None
  | None => None
  end.

(** Lines 378-385 *)
Definition style_of (s : settings) (gen : list generated) : option jstr :=
  if sendStyleReference s then
    match last gen with
    | Some oldestImage => fetched (path oldestImage)
    | None => None
    end
  else None.

(** Lines 387-399 *)
Definition previous_of (s : settings) (gen : list generated)
    (style : option jstr) : list jstr :=
  if sendPreviousImages s && negb (length gen =? 0) then
    let maxPrev :=
      Z.min (if (maxPreviousImages s =? 0)%Z then 2 else maxPreviousImages s)
        4 in
    let endIdx :=
      Z.min maxPrev
        (Z.of_nat (length gen)
         - match style with Some _ => 1 | None => 0 end)%Z in
    omap (fun g => fetched (path g)) (take (Z.to_nat endIdx) gen)
  else [].

(** Lines 401-415 *)
Definition npcs_of (s : settings) (prompt : jstr) : list jstr :=
  if sendNpcReferences s then
    let promptLower := toLowerCase prompt in
    omap (fun '(npcName, npcImagePath) =>
            if nonempty npcImagePath
               && includes promptLower (toLowerCase npcName)
            then fetched npcImagePath else None)
      (npcReferenceImages s)
  else [].

Definition collectReferenceImages (s : settings) (chat : list message)
    (prompt : jstr) (currentMessageId : option nat) : references :=
  match chat with
  | [] => {| previous := []; style_ref := None; npcs := [] |}
  | _ :: _ =>
      let gen := generatedImages chat currentMessageId in
      let style := style_of s gen in
      {| previous := previous_of s gen style;
         style_ref := style;
         npcs := npcs_of s prompt |}
  end.

End WithHost.

End Collector.

(** ** The backend adapters: the request each one builds

    The adapters are modelled on a prompt and a style that are strings, which
    is what a directive holds whenever its payload gives them as JSON strings
    or leaves them out.  The per-request options keep the JSON values of the
    directive. *)

Module Adapters.

Record options := {
  o_aspectRatio : json;
  o_imageSize : json;
  o_quality : json;
  o_preset : json;
  o_messageId : option nat
}.

Inductive part :=
  | InlineData (mimeType data : jstr)
  | Text (text : jstr).

Inductive body :=
  | OpenAIBody (b_model prompt : jstr) (n : nat) (b_size : jstr)
      (b_quality : json) (response_format : jstr) (image : option jstr)
  | GeminiBody (parts : list part) (responseModalities : list jstr)
      (b_aspectRatio b_imageSize : json)
  | NaisteraBody (prompt : jstr) (aspect_ratio : json) (b_preset : option json)
      (reference_images : option (list jstr)).

Record http_request := { url : jstr; bearer : jstr; payload : body }.

(** [endpoint.replace(/\/$/, '')] *)
Definition strip_slash (endpoint : jstr) : jstr :=
  match rev endpoint with
  | c :: r => if cu_eqb c 47%N then rev r else endpoint
  | [] => []
  end.

Definition endsWith (text pat : jstr) : bool :=
  prefixb (rev pat) (rev text).

(** [style ? `[Style: ${style}] ${prompt}` : prompt], as all three adapters
    have it (lines 424, 508 and 586). *)
Definition styled (prompt style : jstr) : jstr :=
  if nonempty style then lit "[Style: " ++ style ++ lit "] " ++ prompt
  else prompt.

Definition json_is (v : json) (s : jstr) : bool :=
  match v with
  | JString x => jstr_eqb x s
  | _ => false
  end.

(** [a || b] on two values *)
Definition orj (a b : json) : json := if truthy a then a else b.

Definition generateImageOpenAI (s : settings) (prompt style : jstr)
    (referenceImages : list jstr) (o : options) : http_request :=
  let fullPrompt := styled prompt style in
  let size :=
    if truthy (o_aspectRatio o) then
      if json_is (o_aspectRatio o) (lit "16:9") then lit "1792x1024"
      else if json_is (o_aspectRatio o) (lit "9:16") then lit "1024x1792"
      else if json_is (o_aspectRatio o) (lit "1:1") then lit "1024x1024"
      else size s
    else size s in
  {| url := strip_slash (endpoint s) ++ lit "/v1/images/generations";
     bearer := apiKey s;
     payload :=
       OpenAIBody (model s) fullPrompt 1 size
         (orj (o_quality o) (JString (quality s))) (lit "b64_json")
         match referenceImages with
         | r :: _ => Some (lit "data:image/png;base64," ++ r)
         | [] => None
         end |}.

Definition VALID_ASPECT_RATIOS : list jstr :=
  [lit "1:1"; lit "2:3"; lit "3:2"; lit "3:4"; lit "4:3"; lit "4:5";
   lit "5:4"; lit "9:16"; lit "16:9"; lit "21:9"].

Definition VALID_IMAGE_SIZES : list jstr := [lit "1K"; lit "2K"; lit "4K"].

(** [list.includes(v)] for a list of strings *)
Definition includes_value (l : list jstr) (v : json) : bool :=
  existsb (json_is v) l.

(** Lines 485-488 and 490-493: the option, else the stored value, else the
    default; and when that is not in the list, the stored value if it is in
    the list, else the default. *)
Definition validated (valid : list jstr) (option_ : json) (stored dflt : jstr)
  : json :=
  let v := orj (orj option_ (JString stored)) (JString dflt) in
  if includes_value valid v then v
  else if includes_value valid (JString stored) then JString stored
  else JString dflt.

Definition decimal (n : nat) : jstr :=
  lit (DecimalString.NilEmpty.string_of_uint (Nat.to_uint n)).

Definition nl : jstr := [10%N].

(** Lines 511-524 *)
Definition refInstruction (count : nat) : jstr :=
  lit "[CRITICAL REFERENCE INSTRUCTIONS:" ++ nl
  ++ lit "You are provided with " ++ decimal count
  ++ lit " reference image(s). These MUST be used as follows:" ++ nl
  ++ lit "- Reference 1: This is the PRIMARY STYLE/CHARACTER reference. Copy the exact art style, color palette, lighting, and if a character - their complete appearance (face, hair, body, clothing)."
  ++ nl
  ++ (if 2 <=? count
      then lit "- Reference 2+: Additional character references or previous images from this scene. Maintain EXACT visual consistency with these."
      else [])
  ++ nl ++ nl
  ++ lit "MANDATORY:" ++ nl
  ++ lit "- Match the art style EXACTLY (brushwork, colors, rendering technique)"
  ++ nl
  ++ lit "- Character faces MUST look identical to references" ++ nl
  ++ lit "- Clothing and accessories MUST match unless explicitly changed in prompt"
  ++ nl
  ++ lit "- Maintain the same level of detail and quality" ++ nl ++ nl
  ++ lit "DO NOT: Create generic/different looking characters. Every named character MUST match their reference exactly.]"
  ++ nl ++ nl.

Definition generateImageGemini (s : settings) (prompt style : jstr)
    (referenceImages : list jstr) (o : options) : http_request :=
  let aspectRatio :=
    validated VALID_ASPECT_RATIOS (o_aspectRatio o) (aspectRatio s)
      (lit "1:1") in
  let imageSize :=
    validated VALID_IMAGE_SIZES (o_imageSize o) (imageSize s) (lit "1K") in
  let images :=
    map (fun imgB64 => InlineData (lit "image/png") imgB64)
      (take 4 referenceImages) in
  let fullPrompt := styled prompt style in
  let fullPrompt :=
    if 0 <? length referenceImages
    then refInstruction (length referenceImages) ++ fullPrompt
    else fullPrompt in
  {| url := strip_slash (endpoint s) ++ lit "/v1beta/models/" ++ model s
            ++ lit ":generateContent";
     bearer := apiKey s;
     payload :=
       GeminiBody (images ++ [Text fullPrompt]) [lit "TEXT"; lit "IMAGE"]
         aspectRatio imageSize |}.

Definition generateImageNaistera (s : settings) (prompt style : jstr)
    (o : options) (referenceImages : list jstr) : http_request :=
  let endpoint := strip_slash (endpoint s) in
  let url :=
    if endsWith endpoint (lit "/api/generate") then endpoint
    else endpoint ++ lit "/api/generate" in
  let aspectRatio :=
    orj (orj (o_aspectRatio o) (JString (naisteraAspectRatio s)))
      (JString (lit "1:1")) in
  let preset := orj (orj (o_preset o) (JString (naisteraPreset s))) JNull in
  {| url := url;
     bearer := apiKey s;
     payload :=
       NaisteraBody (styled prompt style) aspectRatio
         (if truthy preset then Some preset else None)
         (if 0 <? length referenceImages
          then Some (take 4 referenceImages) else None) |}.

(** [isGeminiModel]; [toLowerCase] is the host's. *)
Definition isGeminiModel (toLowerCase : jstr -> jstr) (modelId : jstr) : bool :=
  includes (toLowerCase modelId) (lit "nano-banana").

End Adapters.

(** ** [generateImageWithRetry] *)

Module Retry.

Import Adapters.

(** What is thrown: [undefined], or an error with its [message] if it has
    one. *)
Inductive thrown :=
  | Undefined
  | Error (message : option jstr).

(** How one call of an adapter ends. *)
Inductive call_result :=
  | Returned (dataUrl : jstr)
  | Threw (e : thrown).

Definition message_of (e : thrown) : option jstr :=
  match e with
  | Undefined => None
  | Error m => m
  end.

(** The status lines handed to [onStatusUpdate]. *)
Inductive status :=
  | StCollecting
  | StGenerating (attempt maxRetries : Z)
  | StRetryIn (delay : Z).

Inductive event :=
  | EvStatus (s : status)
  | EvAttempt (attempt : Z)
  | EvLogError (attempt : Z) (message : option jstr)
  | EvSleep (delay : Z).

(** Lines 729-734 *)
Definition isRetryable (message : option jstr) : bool :=
  match message with
  | Some m =>
      includes m (lit "429") || includes m (lit "503")
      || includes m (lit "502") || includes m (lit "504")
      || includes m (lit "timeout") || includes m (lit "network")
  | None => false
  end.

(** The loop of lines 714-746.  [call attempt] is how the adapter call of
    that attempt ends.  [None] when the fuel runs out before the loop ends. *)
Fixpoint retry_loop (call : Z -> call_result) (maxRetries baseDelay : Z)
    (fuel : nat) (attempt : Z) (lastError : thrown) (trace : list event)
  : option (call_result * list event) :=
  match fuel with
  | 0 => None
  | S f =>
      if (attempt <=? maxRetries)%Z then
        let trace :=
          trace ++ [EvStatus (StGenerating attempt maxRetries);
                    EvAttempt attempt] in
        match call attempt with
        | Returned d => Some (Returned d, trace)
        | Threw error =>
            let trace := trace ++ [EvLogError (attempt + 1) (message_of error)] in
            if negb (isRetryable (message_of error))
               || (attempt =? maxRetries)%Z
            then Some (Threw error, trace)
            else
              let delay := (baseDelay * 2 ^ attempt)%Z in
              retry_loop call maxRetries baseDelay f (attempt + 1)%Z error
                (trace ++ [EvStatus (StRetryIn delay); EvSleep delay])
        end
      else Some (Threw lastError, trace)
  end.

(** The loop from [attempt = 0]; it makes at most [maxRetries + 1] turns. *)
Definition retry (call : Z -> call_result) (maxRetries baseDelay : Z)
  : option (call_result * list event) :=
  retry_loop call maxRetries baseDelay (Z.to_nat (maxRetries + 1) + 1) 0
    Undefined [].

(** The adapter calls among the events. *)
Definition attempts (trace : list event) : list Z :=
  omap (fun e => match e with EvAttempt a => Some a | _ => None end) trace.


(** [validateSettings]: the message of the error it throws, if it throws. *)
Definition validateSettings (s : settings) : option jstr :=
  let errors :=
    (if nonempty (endpoint s) then []
     else [[85; 82; 76; 32; 1101; 1085; 1076; 1087; 1086; 1080; 1085; 1090;
            1072; 32; 1085; 1077; 32; 1085; 1072; 1089; 1090; 1088; 1086;
            1077; 1085]%N])
    ++ (if nonempty (apiKey s) then []
        else [[65; 80; 73; 32; 1082; 1083; 1102; 1095; 32; 1085; 1077; 32;
               1085; 1072; 1089; 1090; 1088; 1086; 1077; 1085]%N])
    ++ (if negb (jstr_eqb (apiType s) (lit "naistera"))
           && negb (nonempty (model s))
        then [[1052; 1086; 1076; 1077; 1083; 1100; 32; 1085; 1077; 32; 1074;
               1099; 1073; 1088; 1072; 1085; 1072]%N]
        else []) in
  match errors with
  | [] => None
  | e :: es =>
      Some ([1054; 1096; 1080; 1073; 1082; 1072; 32; 1085; 1072; 1089; 1090;
             1088; 1086; 1077; 1082; 58; 32]%N
            ++ e ++ flat_map (fun x => lit ", " ++ x) es)
  end.

(** [dataUrl.split(',')[1]]: what stands between the first comma and the
    next; [None] is [undefined], when there is no comma. *)
Definition split_1 (dataUrl : jstr) : option jstr :=
  match Regex.span (fun c => negb (cu_eqb c 44%N)) dataUrl with
  | (_, _ :: r) => Some (fst (Regex.span (fun c => negb (cu_eqb c 44%N)) r))
  | (_, []) => None
  end.

(** [if (b64) list.push(b64)] under the guard [list.length >= 4 => break] *)
Definition push_capped (f : jstr -> option jstr) (acc : list jstr)
    (items : list jstr) : list jstr :=
  fold_left
    (fun acc x =>
       if 4 <=? length acc then acc
       else match f x with
            | Some b => if nonempty b then acc ++ [b] else acc
            | None => acc
            end)
    items acc.

Definition push_opt (acc : list jstr) (x : option jstr) : list jstr :=
  match x with
  | Some b => if nonempty b then acc ++ [b] else acc
  | None => acc
  end.

Section WithHost.

Variable imageUrlToDataUrl : jstr -> option jstr.
Variable toLowerCase : jstr -> jstr.
(** The avatars as the host returns them; [None] is [null]. *)
Variable charAvatarBase64 userAvatarBase64 : option jstr.
Variable charAvatarDataUrl userAvatarDataUrl : option jstr.
(** How the adapter call for a request ends at a given attempt. *)
Variable backend : http_request -> Z -> call_result.

Definition is_gemini (s : settings) : bool :=
  jstr_eqb (apiType s) (lit "gemini") || isGeminiModel toLowerCase (model s).

(** Lines 659-687 *)
Definition gemini_references (s : settings) (refs : Collector.references)
  : list jstr :=
  if is_gemini s then
    let l := if sendCharAvatar s then push_opt [] charAvatarBase64 else [] in
    let l := if sendUserAvatar s then push_opt l userAvatarBase64 else l in
    let l :=
      match Collector.style_ref refs with
      | Some st => push_opt l (split_1 st)
      | None => l
      end in
    let l := push_capped split_1 l (Collector.previous refs) in
    push_capped split_1 l (Collector.npcs refs)
  else [].

(** Lines 689-710 *)
Definition naistera_references (s : settings) (refs : Collector.references)
  : list jstr :=
  if jstr_eqb (apiType s) (lit "naistera") then
    let l :=
      if naisteraSendCharAvatar s then push_opt [] charAvatarDataUrl else [] in
    let l :=
      if naisteraSendUserAvatar s then push_opt l userAvatarDataUrl else l in
    let l :=
      match Collector.style_ref refs with
      | Some st => l ++ [st]
      | None => l
      end in
    let l := push_capped Some l (Collector.previous refs) in
    push_capped Some l (Collector.npcs refs)
  else [].

(** The request of lines 718-724 *)
Definition request_of (s : settings) (prompt style : jstr) (o : options)
    (referenceImages referenceDataUrls : list jstr) : http_request :=
  if jstr_eqb (apiType s) (lit "naistera")
  then generateImageNaistera s prompt style o referenceDataUrls
  else if is_gemini s
  then generateImageGemini s prompt style referenceImages o
  else generateImageOpenAI s prompt style referenceImages o.

(** [generateImageWithRetry(prompt, style, onStatusUpdate, options)]: how it
    ends, the request it sent if it came to sending one, and its events. *)
Definition generateImageWithRetry (s : settings) (chat : list message)
    (prompt style : jstr) (o : options)
  : option (call_result * option http_request * list event) :=
  match validateSettings s with
  | Some msg => Some (Threw (Error (Some msg)), None, [])
  | None =>
      let refs :=
        Collector.collectReferenceImages imageUrlToDataUrl toLowerCase s chat
          prompt (o_messageId o) in
      let req :=
        request_of s prompt style o (gemini_references s refs)
          (naistera_references s refs) in
      match retry (backend req) (maxRetries s) (retryDelay s) with
      | Some (r, trace) =>
          Some (r,
                match attempts trace with [] => None | _ :: _ => Some req end,
                EvStatus StCollecting :: trace)
      | None => None
      end
  end.

End WithHost.

End Retry.

(** ** Patching the message text *)

Module Patcher.

(** [GetSubstitution] of ECMAScript, which [String.prototype.replace] applies
    to a replacement given as a string: [$$], [$&], the text before the match,
    the text after it, and [$n] or [$nn] for a capture are expanded.  Neither
    replacement of the program has named groups, so [$<] stays as written. *)
Fixpoint getSubstitution (matched before after : jstr)
    (captures : list (option jstr)) (t : jstr) : jstr :=
  let capture (i : nat) : jstr :=
    match captures !! (i - 1) with
    | Some (Some c) => c
    | _ => []
    end in
  let m := length captures in
  match t with
  | [] => []
  | c :: r =>
      if cu_eqb c dollar then
        match r with
        | [] => [c]
        | d :: r1 =>
            if cu_eqb d dollar
            then dollar :: getSubstitution matched before after captures r1
            else if cu_eqb d 96%N
            then before ++ getSubstitution matched before after captures r1
            else if cu_eqb d 38%N
            then matched ++ getSubstitution matched before after captures r1
            else if cu_eqb d sq
            then after ++ getSubstitution matched before after captures r1
            else if is_digit d then
              let one :=
                let i := N.to_nat (d - 48) in
                if (1 <=? i) && (i <=? m)
                then capture i
                       ++ getSubstitution matched before after captures r1
                else dollar :: d
                       :: getSubstitution matched before after captures r1 in
              match r1 with
              | d' :: r2 =>
                  if is_digit d' then
                    let i := N.to_nat ((d - 48) * 10 + (d' - 48)) in
                    if m <? i then one
                    else if 1 <=? i
                    then capture i
                           ++ getSubstitution matched before after captures r2
                    else dollar :: d :: d'
                           :: getSubstitution matched before after captures r2
                  else one
              | [] => one
              end
            else dollar :: getSubstitution matched before after captures r
        end
      else c :: getSubstitution matched before after captures r
  end.

(** [text.replace(search, replaceValue)] with a string to search for: the
    first occurrence only. *)
Definition replace_string (text search replaceValue : jstr) : jstr :=
  match indexOf text search 0 with
  | None => text
  | Some pos =>
      let before := take pos text in
      let after := drop (pos + length search) text in
      before ++ getSubstitution search before after [] replaceValue ++ after
  end.

(** [full.replace(re, replaceValue)] for the expression of lines 1195 and
    1211, which is not global: the first match only. *)
Definition replace_src (full replaceValue : jstr) : jstr :=
  match Regex.search Regex.src_attr_at full 0 with
  | None => full
  | Some (pos, (len, q)) =>
      let before := take pos full in
      let matched := take len (drop pos full) in
      let after := drop (pos + len) full in
      before ++ getSubstitution matched before after [Some [q]] replaceValue
        ++ after
  end.

(** How generating and storing the image of a directive ended. *)
Inductive outcome :=
  | Success (imagePath : jstr)
  | Failure (message : jstr).

Definition ERROR_IMAGE_PATH : jstr :=
  lit "/scripts/extensions/third-party/sillyimages/error.svg".

Definition check_mark : cu := 10003%N.

(** What takes the place of [fullMatch] (lines 1194-1200 and 1210-1216). *)
Definition replacement (t : tag) (o : outcome) : jstr :=
  if isNewFormat t then
    replace_src (fullMatch t)
      (lit "src=`"
       ++ match o with Success p => p | Failure _ => ERROR_IMAGE_PATH end
       ++ lit "`")
  else
    match o with
    | Success imagePath =>
        lit "[IMG:" ++ [check_mark] ++ lit ":" ++ imagePath ++ lit "]"
    | Failure message =>
        lit "[IMG:ERROR:" ++ substring message 0 50 ++ lit "]"
    end.

(** [message.mes = message.mes.replace(tag.fullMatch, ...)] *)
Definition patch (mes : jstr) (t : tag) (o : outcome) : jstr :=
  replace_string mes (fullMatch t) (replacement t o).

End Patcher.

(** ** [processMessageTags] and [regenerateMessageImages]

    The program runs on one thread; an [async] function gives up control at
    each [await] and is resumed later.  A call of an [async] function is
    modelled as a task with a program counter that names the [await] it is
    suspended at; one step runs a task from there to its next [await].  The
    page elements are the host's business: of them the model keeps only
    whether the element of a message is there. *)

Module Orchestration.

Import Adapters Retry Patcher.

Record host := {
  h_checkFileExists : jstr -> bool;
  h_imageUrlToDataUrl : jstr -> option jstr;
  h_toLowerCase : jstr -> jstr;
  h_charAvatarBase64 : option jstr;
  h_userAvatarBase64 : option jstr;
  h_charAvatarDataUrl : option jstr;
  h_userAvatarDataUrl : option jstr;
  h_backend : http_request -> Z -> call_result;
  (** the answer of [/api/images/upload] to a data URL: the stored path, or
      the message of the error *)
  h_upload : jstr -> jstr + jstr;
  (** the page has the element of a message and its [.mes_text] *)
  h_messageElement : nat -> bool;
  (** [querySelector('img[data-iig-instruction]')] finds an element *)
  h_existingImg : nat -> bool
}.

(** [saveImageToFile]: the stored path, or the message of what it throws. *)
Definition saveImageToFile (h : host) (dataUrl : jstr) : jstr + jstr :=
  let converted :=
    if nonempty dataUrl && negb (startsWith dataUrl (lit "data:"))
       && (startsWith dataUrl (lit "http://")
           || startsWith dataUrl (lit "https://"))
    then Collector.fetched (h_imageUrlToDataUrl h) dataUrl
    else Some dataUrl in
  match converted with
  | None => inr (lit "Failed to convert external URL to data URL")
  | Some dataUrl =>
      match indexOf dataUrl (lit ",") 0 with
      | None => inr (lit "Invalid data URL format")
      | Some _ =>
          if negb (startsWith dataUrl (lit "data:image/"))
          then inr (lit "Invalid data URL format")
          else h_upload h dataUrl
      end
  end.

Definition text_of (v : json) : option jstr :=
  match v with
  | JString s => Some s
  | _ => None
  end.

Definition options_of (t : tag) (messageId : nat) : options :=
  {| o_aspectRatio := Parser.aspectRatio t;
     o_imageSize := Parser.imageSize t;
     o_quality := Parser.quality t;
     o_preset := Parser.preset t;
     o_messageId := Some messageId |}.

(** The [try] of lines 1168-1219 (and 1278-1286) for one directive: how it
    ends and the request that went to the backend, if one did.  [None] for a
    directive whose prompt or style is not a string, which this model leaves
    out, and for a thrown value without a message. *)
Definition generate (h : host) (s : settings) (chat : list message)
    (messageId : nat) (t : tag) : option (outcome * option http_request) :=
  match text_of (prompt t), text_of (style t) with
  | Some p, Some st =>
      match
        generateImageWithRetry (h_imageUrlToDataUrl h) (h_toLowerCase h)
          (h_charAvatarBase64 h) (h_userAvatarBase64 h)
          (h_charAvatarDataUrl h) (h_userAvatarDataUrl h) (h_backend h)
          s chat p st (options_of t messageId)
      with
      | Some (Returned dataUrl, req, _) =>
          match saveImageToFile h dataUrl with
          | inl imagePath => Some (Success imagePath, req)
          | inr msg => Some (Failure msg, req)
          end
      | Some (Threw (Error (Some msg)), req, _) => Some (Failure msg, req)
      | _ => None
      end
  | _, _ => None
  end.

(** A side effect of a task. *)
Inductive effect :=
  | FxSkipped (messageId : nat)
  | FxMarkerSet (messageId : nat)
  | FxMarkerCleared (messageId : nat)
  | FxGenerate (messageId index : nat) (req : option http_request)
  | FxPatch (messageId : nat) (text : jstr)
  | FxSaveBegin
  | FxSaveEnd (chat : list message).

Record world := {
  w_chat : list message;
  w_processing : gset nat;
  w_effects : list effect
}.

Inductive kind := Process | Regenerate.

(** Where a task stands: not begun, suspended at one of its [await]s, or
    over.  [processMessageTags] is suspended at the [await]s of lines 1029,
    1223 and 1224, [regenerateMessageImages] at those of lines 1240, 1278 (to
    1286) and 1309. *)
Inductive pc :=
  | Fresh
  | AwaitParse (text : jstr)
  | AwaitBatch (tags : list tag)
  | AwaitSave
  | Done.

Record task := { t_kind : kind; t_message : nat; t_pc : pc }.

Definition set_text (chat : list message) (i : nat) (text : jstr)
  : list message :=
  match chat !! i with
  | Some m => <[i := {| mes := text; is_user := is_user m |}]> chat
  | None => chat
  end.

Definition text_at (chat : list message) (i : nat) : jstr :=
  match chat !! i with
  | Some m => mes m
  | None => []
  end.

Definition emit (w : world) (fx : list effect) : world :=
  {| w_chat := w_chat w;
     w_processing := w_processing w;
     w_effects := w_effects w ++ fx |}.

Definition mark (w : world) (m : nat) : world :=
  {| w_chat := w_chat w;
     w_processing := {[ m ]} ∪ w_processing w;
     w_effects := w_effects w ++ [FxMarkerSet m] |}.

Definition unmark (w : world) (m : nat) : world :=
  {| w_chat := w_chat w;
     w_processing := w_processing w ∖ {[ m ]};
     w_effects := w_effects w ++ [FxMarkerCleared m] |}.

(** The directives of a batch, each generated against the chat as the batch
    found it and patched into the message in turn (lines 1194-1216). *)
Fixpoint run_batch (h : host) (s : settings) (chat0 : list message)
    (m : nat) (tags : list tag) (index : nat) (w : world) : option world :=
  match tags with
  | [] => Some w
  | t :: tags' =>
      match generate h s chat0 m t with
      | Some (o, req) =>
          let text := patch (text_at (w_chat w) m) t o in
          run_batch h s chat0 m tags' (S index)
            {| w_chat := set_text (w_chat w) m text;
               w_processing := w_processing w;
               w_effects :=
                 w_effects w ++ [FxGenerate m index req; FxPatch m text] |}
      | None => None
      end
  end.

(** The loop of lines 1264-1306: a directive is generated only when the page
    has an instruction image; its patch is that of line 1298, and a failure
    is logged and leaves the text alone. *)
Fixpoint run_regen (h : host) (s : settings) (m : nat) (tags : list tag)
    (index : nat) (w : world) : option world :=
  match tags with
  | [] => Some w
  | t :: tags' =>
      if h_existingImg h m then
        match generate h s (w_chat w) m t with
        | Some (Success imagePath, req) =>
            let updatedTag :=
              replace_src (fullMatch t) (lit "src=`" ++ imagePath ++ lit "`") in
            let text :=
              replace_string (text_at (w_chat w) m) (fullMatch t) updatedTag in
            run_regen h s m tags' (S index)
              {| w_chat := set_text (w_chat w) m text;
                 w_processing := w_processing w;
                 w_effects :=
                   w_effects w ++ [FxGenerate m index req; FxPatch m text] |}
        | Some (Failure _, req) =>
            run_regen h s m tags' (S index)
              (emit w [FxGenerate m index req])
        | None => None
        end
      else run_regen h s m tags' (S index) w
  end.

(** One step of [processMessageTags(m)]. *)
Definition step_process (h : host) (s : settings) (m : nat) (p : pc)
    (w : world) : option (pc * world) :=
  match p with
  | Fresh =>
      if negb (enabled s) then Some (Done, w)
      else if decide (m ∈ w_processing w)
      then Some (Done, emit w [FxSkipped m])
      else
        match w_chat w !! m with
        | None => Some (Done, w)
        | Some message =>
            if is_user message then Some (Done, w)
            else Some (AwaitParse (mes message), w)
        end
  | AwaitParse text =>
      match
        parseImageTags (h_checkFileExists h) text
          {| checkExistence := true; forceAll := false |}
      with
      | None => None
      | Some ([], _) => Some (Done, w)
      | Some (tags, _) =>
          let w := mark w m in
          if negb (h_messageElement h m) then Some (Done, unmark w m)
          else Some (AwaitBatch tags, w)
      end
  | AwaitBatch tags =>
      match run_batch h s (w_chat w) m tags 0 w with
      | Some w' => Some (AwaitSave, emit w' [FxSaveBegin])
      | None => None
      end
  | AwaitSave => Some (Done, unmark (emit w [FxSaveEnd (w_chat w)]) m)
  | Done => Some (Done, w)
  end.

(** One step of [regenerateMessageImages(m)]. *)
Definition step_regenerate (h : host) (s : settings) (m : nat) (p : pc)
    (w : world) : option (pc * world) :=
  match p with
  | Fresh =>
      match w_chat w !! m with
      | None => Some (Done, w)
      | Some message => Some (AwaitParse (mes message), w)
      end
  | AwaitParse text =>
      match
        parseImageTags (h_checkFileExists h) text
          {| checkExistence := false; forceAll := true |}
      with
      | None => None
      | Some ([], _) => Some (Done, w)
      | Some (tags, _) =>
          let w := mark w m in
          if negb (h_messageElement h m) then Some (Done, unmark w m)
          else Some (AwaitBatch tags, w)
      end
  | AwaitBatch tags =>
      match run_regen h s m tags 0 w with
      | Some w' => Some (AwaitSave, emit (unmark w' m) [FxSaveBegin])
      | None => None
      end
  | AwaitSave => Some (Done, emit w [FxSaveEnd (w_chat w)])
  | Done => Some (Done, w)
  end.

Definition step_task (h : host) (s : settings) (t : task) (w : world)
  : option (task * world) :=
  match
    match t_kind t with
    | Process => step_process h s (t_message t) (t_pc t) w
    | Regenerate => step_regenerate h s (t_message t) (t_pc t) w
    end
  with
  | Some (p, w') =>
      Some ({| t_kind := t_kind t; t_message := t_message t; t_pc := p |}, w')
  | None => None
  end.

(** A schedule names, turn after turn, the task that is resumed. *)
Fixpoint run (h : host) (s : settings) (schedule : list nat)
    (tasks : list task) (w : world) : option (list task * world) :=
  match schedule with
  | [] => Some (tasks, w)
  | i :: schedule' =>
      match tasks !! i with
      | None => None
      | Some t =>
          match step_task h s t w with
          | Some (t', w') => run h s schedule' (<[i := t']> tasks) w'
          | None => None
          end
      end
  end.

(** The backend calls among the effects. *)
Definition generations (fx : list effect) : list (nat * nat) :=
  omap (fun e => match e with
                 | FxGenerate m i (Some _) => Some (m, i)
                 | _ => None
                 end) fx.

End Orchestration.

(** ** Notions used in the statements *)

Module Notions.

(** The double quotes of a text. *)
Fixpoint quotes (s : jstr) : nat :=
  match s with
  | [] => 0
  | c :: r => (if cu_eqb c dq then 1 else 0) + quotes r
  end.


Definition no_backslash (s : jstr) : Prop := Forall (fun c => c <> bs) s.

(** [eats s r]: [r] is what is left of [s] after a prefix, and the prefix,
    if it is free of backslashes, holds an even number of double quotes. *)
Definition eats (s r : jstr) : Prop :=
  exists pre, s = pre ++ r /\ (no_backslash pre -> Nat.Even (quotes pre)).

(** [plain s r]: [r] is what is left of [s] after a prefix without double
    quotes. *)
Definition plain (s r : jstr) : Prop :=
  exists pre, s = pre ++ r /\ quotes pre = 0.

(** The fields a directive takes from its parsed payload (lines 879-884 and
    964-969). *)
Definition fields_from (data : json) (t : tag) : Prop :=
  style t = or_else (get data (lit "style")) (JString [])
  /\ prompt t = or_else (get data (lit "prompt")) (JString [])
  /\ Parser.aspectRatio t
     = or_else2 (get data (lit "aspect_ratio")) (get data (lit "aspectRatio"))
         JNull
  /\ preset t = or_else (get data (lit "preset")) JNull
  /\ Parser.imageSize t
     = or_else2 (get data (lit "image_size")) (get data (lit "imageSize"))
         JNull
  /\ Parser.quality t = or_else (get data (lit "quality")) JNull.



Definition no_dollar (s : jstr) : Prop := Forall (fun c => c <> dollar) s.

End Notions.

Import Notions.

(** ** Concrete inputs used by the witnesses and counterexamples *)

Module Scenarios.

Definition opts_check : parse_options :=
  {| checkExistence := true; forceAll := false |}.

Definition all_exist (_ : jstr) : bool := true.

Definition cat_text : jstr :=
  lit "The image [IMG:GEN:{`prompt`:`a cat`,`style`:`anime`}] appears.".

Definition cat_marker : jstr :=
  lit "[IMG:GEN:{`prompt`:`a cat`,`style`:`anime`}]".

Definition cat_tag : tag :=
  {| fullMatch := cat_marker;
     index := 10;
     style := JString (lit "anime");
     prompt := JString (lit "a cat");
     Parser.aspectRatio := JNull;
     preset := JNull;
     Parser.imageSize := JNull;
     Parser.quality := JNull;
     isNewFormat := false;
     existingSrc := None |}.



Definition quoted_brace_text : jstr :=
  lit "[IMG:GEN:{`prompt`:`a } in quotes`}]".



(** A backend that answers every attempt with the error of a rate limit. *)
Definition always_429 (_ : Z) : Retry.call_result :=
  Retry.Threw
    (Retry.Error (Some (lit "API Error (429): Too Many Requests"))).

(** Five earlier messages of the character with one generated image each,
    a message of the user between them, and the message being generated for
    at index 6. *)
Definition image_message (p : jstr) : message :=
  {| mes := lit "<img src=`" ++ p ++ lit "`>"; is_user := false |}.

Definition five_images_chat : list message :=
  [ image_message (lit "/user/images/c/iig_1.png");
    image_message (lit "/user/images/c/iig_2.png");
    {| mes := lit "go on"; is_user := true |};
    image_message (lit "/user/images/c/iig_3.png");
    image_message (lit "/user/images/c/iig_4.png");
    image_message (lit "/user/images/c/iig_5.png");
    {| mes := cat_text; is_user := false |} ].

Definition generated_at (p : jstr) (i : nat) : Collector.generated :=
  {| Collector.path := p; Collector.messageIndex := i |}.

(** A host that retrieves every image. *)
Definition as_data_url (p : jstr) : option jstr := Some (lit "data:" ++ p).

Definition same_case (s : jstr) : jstr := s.

Definition settings_cap_0 : settings :=
  {| enabled := true;
     apiType := lit "openai";
     endpoint := [];
     apiKey := [];
     model := [];
     size := lit "1024x1024";
     Config.quality := lit "standard";
     maxRetries := 0;
     retryDelay := 1000;
     sendCharAvatar := false;
     sendUserAvatar := false;
     Config.aspectRatio := lit "1:1";
     Config.imageSize := lit "1K";
     naisteraAspectRatio := lit "1:1";
     naisteraPreset := [];
     naisteraSendCharAvatar := false;
     naisteraSendUserAvatar := false;
     sendPreviousImages := true;
     maxPreviousImages := 0;
     sendStyleReference := true;
     sendNpcReferences := true;
     npcReferenceImages := [] |}.

Definition stored_path : jstr := lit "/user/images/c/iig_1.png".

(** The path of an image stored for a character whose name holds [$&]. *)
Definition dollar_path : jstr := lit "/user/images/R$&D/iig_1.png".

(** A directive of the image format. *)
Definition img_full : jstr :=
  lit "<img data-iig-instruction='{`prompt`:`a cat`}' src=`[IMG:GEN]`>".

Definition img_text : jstr := lit "<p>" ++ img_full ++ lit "</p>".

Definition img_tag_of (full : jstr) : tag :=
  {| fullMatch := full;
     index := 3;
     style := JString [];
     prompt := JString (lit "a cat");
     Parser.aspectRatio := JNull;
     preset := JNull;
     Parser.imageSize := JNull;
     Parser.quality := JNull;
     isNewFormat := true;
     existingSrc := None |}.



(** A generic-REST backend that is configured. *)
Definition settings_openai : settings :=
  {| enabled := true;
     apiType := lit "openai";
     endpoint := lit "https://api.example.com/";
     apiKey := lit "sk-test";
     model := lit "dall-e-3";
     size := lit "1024x1024";
     Config.quality := lit "standard";
     maxRetries := 2;
     retryDelay := 1000;
     sendCharAvatar := false;
     sendUserAvatar := false;
     Config.aspectRatio := lit "1:1";
     Config.imageSize := lit "1K";
     naisteraAspectRatio := lit "1:1";
     naisteraPreset := [];
     naisteraSendCharAvatar := false;
     naisteraSendUserAvatar := false;
     sendPreviousImages := true;
     maxPreviousImages := 2;
     sendStyleReference := true;
     sendNpcReferences := true;
     npcReferenceImages := [] |}.

(** A host on which everything succeeds; an image is stored under
    [stored]. *)
Definition host_storing (stored : jstr) : Orchestration.host :=
  {| Orchestration.h_checkFileExists := all_exist;
     Orchestration.h_imageUrlToDataUrl := as_data_url;
     Orchestration.h_toLowerCase := same_case;
     Orchestration.h_charAvatarBase64 := None;
     Orchestration.h_userAvatarBase64 := None;
     Orchestration.h_charAvatarDataUrl := None;
     Orchestration.h_userAvatarDataUrl := None;
     Orchestration.h_backend :=
       fun _ _ => Retry.Returned (lit "data:image/png;base64,iVBORw0KGgo=");
     Orchestration.h_upload := fun _ => inl stored;
     Orchestration.h_messageElement := fun _ => true;
     Orchestration.h_existingImg := fun _ => true |}.

Definition world_of (text : jstr) : Orchestration.world :=
  {| Orchestration.w_chat := [{| mes := text; is_user := false |}];
     Orchestration.w_processing := ∅;
     Orchestration.w_effects := [] |}.

Definition process_0 : Orchestration.task :=
  {| Orchestration.t_kind := Orchestration.Process;
     Orchestration.t_message := 0;
     Orchestration.t_pc := Orchestration.Fresh |}.


(** The prompt of the request of a generation, when it went to the
    generic-REST backend. *)
Definition openai_prompt (req : option Adapters.http_request) : option jstr :=
  match req with
  | Some r =>
      match Adapters.payload r with
      | Adapters.OpenAIBody _ p _ _ _ _ _ => Some p
      | _ => None
      end
  | None => None
  end.

(** The prompts of the requests that went out, in order. *)
Definition prompts_sent (fx : list Orchestration.effect)
  : list (option jstr) :=
  omap (fun e => match e with
                 | Orchestration.FxGenerate _ _ (Some r) =>
                     Some (openai_prompt (Some r))
                 | _ => None
                 end) fx.

(** The effects by kind. *)
Inductive effect_kind :=
  | KSkipped | KMarkerSet | KMarkerCleared | KGenerate | KPatch
  | KSaveBegin | KSaveEnd.

Definition kind_of (e : Orchestration.effect) : effect_kind :=
  match e with
  | Orchestration.FxSkipped _ => KSkipped
  | Orchestration.FxMarkerSet _ => KMarkerSet
  | Orchestration.FxMarkerCleared _ => KMarkerCleared
  | Orchestration.FxGenerate _ _ _ => KGenerate
  | Orchestration.FxPatch _ _ => KPatch
  | Orchestration.FxSaveBegin => KSaveBegin
  | Orchestration.FxSaveEnd _ => KSaveEnd
  end.

(** What a run leaves: where the tasks stand, the effects by kind, the
    prompts sent, and the text of message 0. *)
Definition summary
    (r : option (list Orchestration.task * Orchestration.world))
  : option (list Orchestration.pc * list effect_kind * list (option jstr)
            * jstr) :=
  match r with
  | Some (ts, w) =>
      Some (map Orchestration.t_pc ts,
            map kind_of (Orchestration.w_effects w),
            prompts_sent (Orchestration.w_effects w),
            Orchestration.text_at (Orchestration.w_chat w) 0)
  | None => None
  end.

End Scenarios.

Import Scenarios.

(** ** [iigLog] and its buffer *)

Module Logging.

Definition MAX_LOG_ENTRIES : nat := 200.

Definition level_name (l : log_level) : jstr :=
  match l with
  | INFO => lit "INFO"
  | WARN => lit "WARN"
  | ERROR => lit "ERROR"
  end.

(** [list.join(sep)] *)
Fixpoint join (sep : jstr) (l : list jstr) : jstr :=
  match l with
  | [] => []
  | x :: r =>
      match r with
      | [] => x
      | _ :: _ => x ++ sep ++ join sep r
      end
  end.

(** Line 11, for arguments that are strings, of which [String(a)] is [a];
    [timestamp] is the clock of the host as [toISOString] prints it. *)
Definition entry (timestamp : jstr) (level : log_level) (args : list jstr)
  : jstr :=
  lit "[" ++ timestamp ++ lit "] [" ++ level_name level ++ lit "] "
  ++ join (lit " ") args.

(** Lines 8-16: the buffer after the call.  What goes to the console is the
    host's. *)
Definition iigLog (logBuffer : list jstr) (timestamp : jstr)
    (level : log_level) (args : list jstr) : list jstr :=
  let logBuffer := logBuffer ++ [entry timestamp level args] in
  if MAX_LOG_ENTRIES <? length logBuffer then drop 1 logBuffer
  else logBuffer.

(** A call of [iigLog]: the time it is made at, its level, its arguments. *)
Definition call : Type := jstr * log_level * list jstr.

Definition entry_of (c : call) : jstr :=
  let '(timestamp, level, args) := c in entry timestamp level args.

(** The buffer after a sequence of calls. *)
Definition logged (logBuffer : list jstr) (calls : list call) : list jstr :=
  fold_left
    (fun b c => let '(timestamp, level, args) := c in
                iigLog b timestamp level args)
    calls logBuffer.

End Logging.

(** ** [getSettings]

    The settings object as the host stores it: an object is a finite map
    from property names to values. *)

Module Store.

Definition number (n : N) : json := JNumber false n 0.

(** Lines 39-63 *)
Definition defaultSettings : list (jstr * json) :=
  [ (lit "enabled", JBool true);
    (lit "apiType", JString (lit "openai"));
    (lit "endpoint", JString []);
    (lit "apiKey", JString []);
    (lit "model", JString []);
    (lit "size", JString (lit "1024x1024"));
    (lit "quality", JString (lit "standard"));
    (lit "maxRetries", number 0);
    (lit "retryDelay", number 1000);
    (lit "sendCharAvatar", JBool false);
    (lit "sendUserAvatar", JBool false);
    (lit "userAvatarFile", JString []);
    (lit "aspectRatio", JString (lit "1:1"));
    (lit "imageSize", JString (lit "1K"));
    (lit "naisteraAspectRatio", JString (lit "1:1"));
    (lit "naisteraPreset", JString []);
    (lit "naisteraSendCharAvatar", JBool false);
    (lit "naisteraSendUserAvatar", JBool false);
    (lit "sendPreviousImages", JBool true);
    (lit "maxPreviousImages", number 2);
    (lit "sendStyleReference", JBool true);
    (lit "sendNpcReferences", JBool true);
    (lit "npcReferenceImages", JObject []) ].

(** Lines 105-109: a key of the defaults that the object does not own is
    given its default. *)
Definition fill (s : gmap jstr json) (kv : jstr * json) : gmap jstr json :=
  let '(key, dflt) := kv in
  match s !! key with
  | Some _ => s
  | None => <[key := dflt]> s
  end.

(** [getSettings()]: [stored] is [extensionSettings[MODULE_NAME]], [None]
    when there is none yet; the result is the object that is stored from then
    on and returned. *)
Definition getSettings (stored : option (gmap jstr json)) : gmap jstr json :=
  let settings :=
    match stored with
    | Some s => s
    | None => list_to_map defaultSettings
    end in
  fold_left fill defaultSettings settings.

End Store.

(** ** The number fields of the settings form

    [parseInt] is the platform's.  Its result is modelled by the integer
    that the digits denote; the program holds the double nearest to that
    integer, which is the integer itself up to [2^53], and is zero, below 1 or
    above 4 exactly when the integer is. *)

Module Form.

(** The value of a character as a digit of the radix, if it is one. *)
Definition digit_of (radix : Z) (c : cu) : option Z :=
  match hex_val c with
  | Some v => if (Z.of_N v <? radix)%Z then Some (Z.of_N v) else None
  | None => None
  end.

Definition is_digit_of (radix : Z) (c : cu) : bool :=
  match digit_of radix c with
  | Some _ => true
  | None => false
  end.

Definition value_of (radix : Z) (digits : jstr) : Z :=
  fold_left (fun acc c => (radix * acc + default 0 (digit_of radix c))%Z)
    digits 0%Z.

(** [parseInt(string)], no radix given: blanks are passed over, then a sign,
    then [0x] or [0X], which makes the radix 16; the digits that follow are
    read as far as they go.  [None] is [NaN], when there is no digit. *)
Definition parseInt (string : jstr) : option Z :=
  let s := Regex.skip_space string in
  let '(sign, s) :=
    match s with
    | c :: r =>
        if cu_eqb c 45%N then ((-1)%Z, r)
        else if cu_eqb c 43%N then (1%Z, r)
        else (1%Z, s)
    | [] => (1%Z, [])
    end in
  let '(radix, s) :=
    match s with
    | a :: b :: r =>
        if cu_eqb a 48%N && (cu_eqb b 120%N || cu_eqb b 88%N)
        then (16%Z, r) else (10%Z, s)
    | _ => (10%Z, s)
    end in
  let '(digits, _) := Regex.span (is_digit_of radix) s in
  match digits with
  | [] => None
  | _ :: _ => Some (sign * value_of radix digits)%Z
  end.

(** [n || d] on the result of [parseInt]: [NaN] and zero are false. *)
Definition or_number (n : option Z) (d : Z) : Z :=
  match n with
  | Some n => if (n =? 0)%Z then d else n
  | None => d
  end.

(** Line 1898: what the form stores as [maxPreviousImages]. *)
Definition on_max_previous_images (value : jstr) : Z :=
  Z.min 4 (Z.max 1 (or_number (parseInt value) 2)).

(** Line 1932: what the form stores as [maxRetries]. *)
Definition on_max_retries (value : jstr) : Z :=
  or_number (parseInt value) 3.

(** Line 1937: what the form stores as [retryDelay]. *)
Definition on_retry_delay (value : jstr) : Z :=
  or_number (parseInt value) 1000.

(** [settings.maxPreviousImages = c] *)
Definition set_maxPreviousImages (s : settings) (c : Z) : settings :=
  {| enabled := enabled s;
     apiType := apiType s;
     endpoint := endpoint s;
     apiKey := apiKey s;
     model := model s;
     size := size s;
     Config.quality := Config.quality s;
     maxRetries := maxRetries s;
     retryDelay := retryDelay s;
     sendCharAvatar := sendCharAvatar s;
     sendUserAvatar := sendUserAvatar s;
     Config.aspectRatio := Config.aspectRatio s;
     Config.imageSize := Config.imageSize s;
     naisteraAspectRatio := naisteraAspectRatio s;
     naisteraPreset := naisteraPreset s;
     naisteraSendCharAvatar := naisteraSendCharAvatar s;
     naisteraSendUserAvatar := naisteraSendUserAvatar s;
     sendPreviousImages := sendPreviousImages s;
     maxPreviousImages := c;
     sendStyleReference := sendStyleReference s;
     sendNpcReferences := sendNpcReferences s;
     npcReferenceImages := npcReferenceImages s |}.

(** [settings.maxRetries = n] *)
Definition set_maxRetries (s : settings) (n : Z) : settings :=
  {| enabled := enabled s;
     apiType := apiType s;
     endpoint := endpoint s;
     apiKey := apiKey s;
     model := model s;
     size := size s;
     Config.quality := Config.quality s;
     maxRetries := n;
     retryDelay := retryDelay s;
     sendCharAvatar := sendCharAvatar s;
     sendUserAvatar := sendUserAvatar s;
     Config.aspectRatio := Config.aspectRatio s;
     Config.imageSize := Config.imageSize s;
     naisteraAspectRatio := naisteraAspectRatio s;
     naisteraPreset := naisteraPreset s;
     naisteraSendCharAvatar := naisteraSendCharAvatar s;
     naisteraSendUserAvatar := naisteraSendUserAvatar s;
     sendPreviousImages := sendPreviousImages s;
     maxPreviousImages := maxPreviousImages s;
     sendStyleReference := sendStyleReference s;
     sendNpcReferences := sendNpcReferences s;
     npcReferenceImages := npcReferenceImages s |}.

(** [settings.endpoint = e] *)
Definition set_endpoint (s : settings) (e : jstr) : settings :=
  {| enabled := enabled s;
     apiType := apiType s;
     endpoint := e;
     apiKey := apiKey s;
     model := model s;
     size := size s;
     Config.quality := Config.quality s;
     maxRetries := maxRetries s;
     retryDelay := retryDelay s;
     sendCharAvatar := sendCharAvatar s;
     sendUserAvatar := sendUserAvatar s;
     Config.aspectRatio := Config.aspectRatio s;
     Config.imageSize := Config.imageSize s;
     naisteraAspectRatio := naisteraAspectRatio s;
     naisteraPreset := naisteraPreset s;
     naisteraSendCharAvatar := naisteraSendCharAvatar s;
     naisteraSendUserAvatar := naisteraSendUserAvatar s;
     sendPreviousImages := sendPreviousImages s;
     maxPreviousImages := maxPreviousImages s;
     sendStyleReference := sendStyleReference s;
     sendNpcReferences := sendNpcReferences s;
     npcReferenceImages := npcReferenceImages s |}.

End Form.

(** ** [saveImageToFile], with the request it uploads *)

Module Upload.

(** [\w] *)
Definition is_word (c : cu) : bool :=
  ((48 <=? c) && (c <=? 57) || (65 <=? c) && (c <=? 90)
   || (97 <=? c) && (c <=? 122) || (c =? 95))%N.

(** The expression of line 226 at the head of [s]: [image/] and group 1,
    which is one or more word characters.  The result is group 1. *)
Definition format_at (s : jstr) : option jstr :=
  if prefixb (lit "image/") s then
    let '(w, _) := Regex.span is_word (drop 6 s) in
    match w with
    | [] => None
    | _ :: _ => Some w
    end
  else None.

(** The body of the request to [/api/images/upload] (lines 241-246). *)
Record upload_body := {
  image : jstr;
  format : jstr;
  ch_name : jstr;
  filename : jstr
}.

Record host := {
  h_imageUrlToDataUrl : jstr -> option jstr;
  (** the name of the current character, if there is a current character *)
  h_character : option jstr;
  (** the time of the call as [toISOString] prints it *)
  h_now : jstr;
  (** the answer to the upload: the stored path, or the message of the
      error of lines 249-252 *)
  h_upload : upload_body -> jstr + jstr
}.

(** [.replace(/[:.]/g, '-')] *)
Definition dashed (s : jstr) : jstr :=
  map (fun c => if cu_eqb c 58%N || cu_eqb c 46%N then 45%N else c) s.

(** The body of lines 241-246 for a format and an image. *)
Definition body_of (h : host) (f payload : jstr) : upload_body :=
  {| image := payload;
     format := f;
     ch_name :=
       match h_character h with
       | Some name => if nonempty name then name else lit "generated"
       | None => lit "generated"
       end;
     filename := lit "iig_" ++ dashed (h_now h) |}.

(** [saveImageToFile(dataUrl)] for a string: the body it uploads, if it
    comes to uploading, and the stored path or the message of what it
    throws. *)
Definition saveImageToFile (h : host) (dataUrl : jstr)
  : option upload_body * (jstr + jstr) :=
  let converted :=
    if nonempty dataUrl && negb (startsWith dataUrl (lit "data:"))
       && (startsWith dataUrl (lit "http://")
           || startsWith dataUrl (lit "https://"))
    then Collector.fetched (h_imageUrlToDataUrl h) dataUrl
    else Some dataUrl in
  match converted with
  | None => (None, inr (lit "Failed to convert external URL to data URL"))
  | Some dataUrl =>
      match indexOf dataUrl (lit ",") 0 with
      | None => (None, inr (lit "Invalid data URL format"))
      | Some commaIndex =>
          if negb (startsWith dataUrl (lit "data:image/"))
          then (None, inr (lit "Invalid data URL format"))
          else
            let metaPart := substring dataUrl 0 commaIndex in
            let format :=
              match Regex.search format_at metaPart 0 with
              | Some (_, f) => f
              | None => lit "png"
              end in
            let base64Data := substring_from dataUrl (commaIndex + 1) in
            let charName :=
              match h_character h with
              | Some name => if nonempty name then name else lit "generated"
              | None => lit "generated"
              end in
            let body :=
              {| image := base64Data;
                 format := format;
                 ch_name := charName;
                 filename := lit "iig_" ++ dashed (h_now h) |} in
            (Some body, h_upload h body)
      end
  end.

End Upload.

(** ** What the adapters make of the answer of the backend

    The answers are typed: a field that the program reads as a string is a
    string or is missing. *)

Module Responses.

Import Adapters.

(** How an adapter ends: it returns a value, [None] being [undefined], or
    throws an error with a message. *)
Inductive answer :=
  | Value (v : option jstr)
  | Throws (message : jstr).

(** The answer to a request: the parsed body when [response.ok], else the
    status and the text of the body. *)
Inductive http_response (A : Type) :=
  | Ok (result : A)
  | NotOk (status : nat) (text : jstr).
Arguments Ok {A} result.
Arguments NotOk {A} status text.

(** Lines 455-458, 555-558 and 608-611 *)
Definition api_error (status : nat) (text : jstr) : jstr :=
  lit "API Error (" ++ decimal status ++ lit "): " ++ text.

Record image_obj := { b64_json : option jstr; io_url : option jstr }.

Record openai_result := {
  data : option (list image_obj);
  r_url : option jstr
}.

(** A string in a condition: missing and empty are false. *)
Definition present (o : option jstr) : bool :=
  match o with
  | Some s => nonempty s
  | None => false
  end.

(** Lines 455-474 *)
Definition answerOpenAI (r : http_response openai_result) : answer :=
  match r with
  | NotOk status text => Throws (api_error status text)
  | Ok result =>
      match default [] (data result) with
      | [] =>
          if present (r_url result) then Value (r_url result)
          else Throws (lit "No image data in response")
      | imageObj :: _ =>
          match b64_json imageObj with
          | Some b =>
              if nonempty b
              then Value (Some (lit "data:image/png;base64," ++ b))
              else Value (io_url imageObj)
          | None => Value (io_url imageObj)
          end
      end
  end.

Record inline := { mimeType : jstr; i_data : jstr }.

(** A part of the answer: [inlineData] and [inline_data], the latter with
    its [mime_type]. *)
Record rpart := { inlineData : option inline; inline_data : option inline }.

(** A candidate with its [content?.parts]. *)
Record candidate := { c_parts : option (list rpart) }.

Record gemini_result := { candidates : option (list candidate) }.

Definition data_url (i : inline) : jstr :=
  lit "data:" ++ mimeType i ++ lit ";base64," ++ i_data i.

(** The loop of lines 569-576 *)
Fixpoint first_image (parts : list rpart) : option jstr :=
  match parts with
  | [] => None
  | part :: rest =>
      match inlineData part with
      | Some i => Some (data_url i)
      | None =>
          match inline_data part with
          | Some i => Some (data_url i)
          | None => first_image rest
          end
      end
  end.

(** Lines 555-578 *)
Definition answerGemini (r : http_response gemini_result) : answer :=
  match r with
  | NotOk status text => Throws (api_error status text)
  | Ok result =>
      match default [] (candidates result) with
      | [] => Throws (lit "No candidates in response")
      | c :: _ =>
          match first_image (default [] (c_parts c)) with
          | Some d => Value (Some d)
          | None => Throws (lit "No image found in Gemini response")
          end
      end
  end.

(** Lines 608-618; the result is [None] for a body that is [null]. *)
Definition answerNaistera (r : http_response (option (option jstr)))
  : answer :=
  match r with
  | NotOk status text => Throws (api_error status text)
  | Ok result =>
      match result with
      | Some data_url =>
          if present data_url then Value data_url
          else Throws (lit "No data_url in response")
      | None => Throws (lit "No data_url in response")
      end
  end.

(** The answer as the retry loop sees it (lines 718-727). *)
Definition thrown_message (a : answer) : option jstr :=
  match a with
  | Value _ => None
  | Throws m => Some m
  end.

End Responses.

(** ** [isImageModel] and [fetchModels] *)

Module Models.

Definition IMAGE_MODEL_KEYWORDS : list jstr :=
  [lit "dall-e"; lit "midjourney"; lit "mj"; lit "journey";
   lit "stable-diffusion"; lit "sdxl"; lit "flux"; lit "imagen";
   lit "drawing"; lit "paint"; lit "image"; lit "seedream"; lit "hidream";
   lit "dreamshaper"; lit "ideogram"; lit "nano-banana"; lit "gpt-image";
   lit "wanx"; lit "qwen"].

Definition VIDEO_MODEL_KEYWORDS : list jstr :=
  [lit "sora"; lit "kling"; lit "jimeng"; lit "veo"; lit "pika";
   lit "runway"; lit "luma"; lit "video"; lit "gen-3"; lit "minimax";
   lit "cogvideo"; lit "mochi"; lit "seedance"; lit "vidu"; lit "wan-ai";
   lit "hunyuan"; lit "hailuo"].

Section WithHost.

(** [String.prototype.toLowerCase] *)
Variable toLowerCase : jstr -> jstr.

(** Lines 77-91 *)
Definition isImageModel (modelId : jstr) : bool :=
  let mid := toLowerCase modelId in
  if existsb (includes mid) VIDEO_MODEL_KEYWORDS then false
  else if includes mid (lit "vision") && includes mid (lit "preview")
  then false
  else existsb (includes mid) IMAGE_MODEL_KEYWORDS.

(** [fetchModels()]: the address it asks, if it asks, and the list it
    returns.  [answer] is the answer to the request: the identifiers of
    [data.data] when the answer is [ok], [None] standing for a body without
    [data]. *)
Definition fetchModels (s : settings)
    (answer : Responses.http_response (option (list jstr)))
  : option jstr * list jstr :=
  if negb (nonempty (endpoint s)) || negb (nonempty (apiKey s))
  then (None, [])
  else
    let url := Adapters.strip_slash (endpoint s) ++ lit "/v1/models" in
    (Some url,
     match answer with
     | Responses.Ok data => List.filter isImageModel (default [] data)
     | Responses.NotOk _ _ => []
     end).

End WithHost.

End Models.

(** ** More concrete inputs *)

Module Cases.




(** A directive of the image format whose [src] is not quoted. *)
Definition img_unquoted_full : jstr :=
  lit "<img data-iig-instruction='{`prompt`:`a cat`}' src=[IMG:GEN]>".

Definition img_unquoted_text : jstr :=
  lit "<p>" ++ img_unquoted_full ++ lit "</p>".

(** A directive of the bracket format whose prompt is a number. *)
Definition number_prompt_text : jstr := lit "[IMG:GEN:{`prompt`:5}]".

(** An answer of the multimodal-chat backend: some text, then an image. *)
Definition text_then_image : Responses.gemini_result :=
  {| Responses.candidates :=
       Some
         [ {| Responses.c_parts :=
                Some
                  ([ {| Responses.inlineData := None;
                        Responses.inline_data := None |} ]
                   ++ {| Responses.inlineData := None;
                         Responses.inline_data :=
                           Some {| Responses.mimeType := lit "image/jpeg";
                                   Responses.i_data := lit "/9j/4AAQ" |} |}
                   :: []) |} ] |}.

End Cases.

Module Hosts.

(** A host with a current character, on which every upload succeeds. *)
Definition storing : Upload.host :=
  {| Upload.h_imageUrlToDataUrl := as_data_url;
     Upload.h_character := Some (lit "Mira");
     Upload.h_now := lit "2026-01-01T10:20:30.456Z";
     Upload.h_upload :=
       fun b =>
         inl (lit "/user/images/" ++ Upload.ch_name b ++ lit "/"
              ++ Upload.filename b ++ lit "." ++ Upload.format b) |}.

End Hosts.

(** ** More notions used in the statements *)

Module Shapes.

(** [pat] stands in [text] at position [i]. *)
Definition occurs_at (text pat : jstr) (i : nat) : Prop :=
  pat <> [] /\ i + length pat <= length text
  /\ take (length pat) (drop i text) = pat.

(** Lines 833-834: the value of the [src] attribute of an image tag, empty
    when it has none. *)
Definition src_of (fullImgTag : jstr) : jstr :=
  match Regex.search Regex.src_value_at fullImgTag 0 with
  | Some (_, v) => v
  | None => []
  end.

(** The image of a directive of the image format is still to be made: its
    [src] is not the error image, and it is empty, or holds a marker, or is a
    path that was looked for and not found. *)
Definition needs_image (checkFileExists : jstr -> bool) (o : parse_options)
    (t : tag) : Prop :=
  let v := src_of (fullMatch t) in
  includes v (lit "error.svg") = false
  /\ (v = []
      \/ includes v (lit "[IMG:GEN]") = true
      \/ includes v (lit "[IMG:") = true
      \/ (checkExistence o = true /\ checkFileExists v = false
          /\ existingSrc t = Some v)).

(** The directives of a list do not overlap and stand in the order of the
    text. *)
Definition apart (tags : list tag) : Prop :=
  StronglySorted
    (fun a b => index a + length (fullMatch a) <= index b) tags.


End Shapes.

(** * Properties *)

Section ScanFacts.

Lemma cu_eqb_eq a b : cu_eqb a b = true <-> a = b.
Proof. apply N.eqb_eq. Qed.

Lemma cu_eqb_neq a b : a <> b -> cu_eqb a b = false.
Proof. intros H. apply N.eqb_neq. exact H. Qed.

Lemma cu_eqb_refl a : cu_eqb a a = true.
Proof. apply N.eqb_refl. Qed.

(** Inside a string the scan runs to the closing quote whatever the body
    holds. *)
Lemma scanLoop_str_body b :
  str_body b ->
  forall rest i n,
    scanLoop (b ++ dq :: rest) i n true false
    = scanLoop rest (i + length b + 1) n false false.
Proof.
  induction 1 as [|c s Hq Hb _ IH|c s _ IH]; intros rest i n.
  - simpl. rewrite Nat.add_0_r, Nat.add_1_r. reflexivity.
  - simpl. rewrite (cu_eqb_neq c bs Hb), (cu_eqb_neq c dq Hq). simpl.
    rewrite IH. f_equal. lia.
  - simpl. rewrite IH. f_equal. lia.
Qed.

(** Outside a string and at depth [n >= 1], a balanced stretch leaves the
    depth where it was. *)
Lemma scanLoop_items b :
  items b ->
  forall rest i n, (1 <= n)%Z ->
    scanLoop (b ++ rest) i n false false
    = scanLoop rest (i + length b) n false false.
Proof.
  induction 1 as [|c s Hq Hl Hr _ IH|b s Hb _ IH|b s _ IHb _ IHs];
    intros rest i n Hn.
  - simpl. rewrite Nat.add_0_r. reflexivity.
  - simpl. rewrite andb_false_r.
    rewrite (cu_eqb_neq c dq Hq), (cu_eqb_neq c lbrace Hl),
      (cu_eqb_neq c rbrace Hr). simpl.
    rewrite IH by exact Hn. f_equal. lia.
  - simpl. rewrite <- app_assoc. simpl.
    rewrite (scanLoop_str_body b Hb). rewrite IH by exact Hn.
    rewrite length_app. simpl. f_equal. lia.
  - simpl. rewrite <- app_assoc. simpl.
    rewrite IHb by lia. simpl.
    destruct (n + 1 - 1 =? 0)%Z eqn:E; [apply Z.eqb_eq in E; lia|].
    replace (n + 1 - 1)%Z with n by lia.
    rewrite IHs by exact Hn. rewrite length_app. simpl. f_equal. lia.
Qed.

Lemma drop_app_length' (pre s : jstr) : drop (length pre) (pre ++ s) = s.
Proof. induction pre; simpl; auto. Qed.

End ScanFacts.

(** Where the text at [jsonStart] is an opening brace, a balanced body and
    the matching closing brace, the scan ends just after that brace. *)
Lemma scanBraces_matching (pre b rest : jstr) :
  items b ->
  scanBraces (pre ++ lbrace :: b ++ rbrace :: rest) (length pre)
    = Some (length pre + length b + 2)
  /\ substring (pre ++ lbrace :: b ++ rbrace :: rest)
       (length pre) (length pre + length b + 2)
     = lbrace :: b ++ [rbrace].
Proof.
  intros Hb. split.
  - unfold scanBraces. rewrite drop_app_length'. simpl.
    rewrite (scanLoop_items b Hb) by lia. simpl. f_equal. lia.
  - unfold substring.
    rewrite Nat.min_l, Nat.max_r by lia.
    rewrite drop_app_length'.
    replace (length pre + length b + 2 - length pre) with (S (length b + 1))
      by lia.
    simpl. f_equal.
    change (rbrace :: rest) with ([rbrace] ++ rest). rewrite app_assoc.
    rewrite take_app_length'; [reflexivity|].
    rewrite length_app. simpl. lia.
Qed.

(** ** Strings *)

Section StringFacts.

Lemma prefixb_app p r : prefixb p (p ++ r) = true.
Proof.
  induction p as [|a p IH]; simpl; [reflexivity|].
  rewrite cu_eqb_refl. exact IH.
Qed.

Lemma prefixb_inv p s : prefixb p s = true -> exists r, s = p ++ r.
Proof.
  revert s. induction p as [|a p IH]; intros s H.
  - exists s. reflexivity.
  - destruct s as [|b s]; simpl in H; [discriminate|].
    apply andb_prop in H. destruct H as [Hab Hp].
    apply cu_eqb_eq in Hab. subst b.
    destruct (IH s Hp) as [r ->]. exists r. reflexivity.
Qed.

Lemma prefixb_length p s : prefixb p s = true -> length p <= length s.
Proof.
  intros H. destruct (prefixb_inv p s H) as [r ->].
  rewrite length_app. lia.
Qed.

Lemma prefixb_take p s : prefixb p s = true -> take (length p) s = p.
Proof.
  intros H. destruct (prefixb_inv p s H) as [r ->].
  rewrite take_app_length. reflexivity.
Qed.

Lemma find_from_Some p s k j :
  find_from p s k = Some j ->
  k <= j /\ j - k + length p <= length s
  /\ prefixb p (drop (j - k) s) = true
  /\ forall i, i < j - k -> prefixb p (drop i s) = false.
Proof.
  revert k. induction s as [|c s IH]; intros k H; simpl in H.
  - destruct (prefixb p []) eqn:E; [|discriminate].
    injection H as <-. replace (k - k) with 0 by lia.
    repeat split; try lia.
    + apply prefixb_length in E. simpl in *. lia.
    + exact E.
  - destruct (prefixb p (c :: s)) eqn:E.
    + injection H as <-. replace (k - k) with 0 by lia.
      repeat split; try lia.
      * apply prefixb_length in E. simpl in *. lia.
      * exact E.
    + destruct (IH (S k) H) as (Hle & Hlen & Hpre & Hmin).
      replace (j - k) with (S (j - S k)) by lia.
      repeat split; try lia.
      * simpl. lia.
      * exact Hpre.
      * intros i Hi. destruct i as [|i]; [exact E|].
        simpl. apply Hmin. lia.
Qed.

Lemma find_from_None p s k i :
  find_from p s k = None -> prefixb p (drop i s) = false.
Proof.
  revert k i. induction s as [|c s IH]; intros k i H; simpl in H.
  - destruct (prefixb p []) eqn:E; [discriminate|].
    rewrite drop_nil. exact E.
  - destruct (prefixb p (c :: s)) eqn:E; [discriminate|].
    destruct i as [|i]; [exact E|]. simpl. exact (IH (S k) i H).
Qed.

(** [indexOf]: where it finds the pattern, the pattern is there, within the
    text, at or after the start position, and nowhere between. *)
Lemma indexOf_Some text pat from j :
  pat <> [] ->
  indexOf text pat from = Some j ->
  from <= j /\ j + length pat <= length text
  /\ prefixb pat (drop j text) = true
  /\ forall i, from <= i < j -> prefixb pat (drop i text) = false.
Proof.
  intros Hne H. unfold indexOf in H.
  apply find_from_Some in H. destruct H as (Hle & Hlen & Hpre & Hmin).
  rewrite length_drop in Hlen. rewrite drop_drop in Hpre.
  assert (Hp : 0 < length pat) by (destruct pat; [congruence|simpl; lia]).
  assert (Hfrom : from <= length text) by lia.
  rewrite Nat.min_l in * by exact Hfrom.
  replace (from + (j - from)) with j in Hpre by lia.
  repeat split; try lia; [exact Hpre|].
  intros i Hi. specialize (Hmin (i - from)).
  rewrite drop_drop in Hmin. replace (from + (i - from)) with i in Hmin by lia.
  apply Hmin. lia.
Qed.

Lemma scanLoop_bounds rest : forall i n b e j,
  scanLoop rest i n b e = Some j -> i < j <= i + length rest.
Proof.
  induction rest as [|c rest IH]; intros i n b e j H; simpl in H;
    [discriminate|].
  assert (Hrec : forall n' b' e',
             scanLoop rest (S i) n' b' e' = Some j ->
             i < j <= i + length (c :: rest)).
  { intros n' b' e' H'. apply IH in H'. simpl. lia. }
  destruct e; [eauto|].
  destruct (cu_eqb c bs && b); [eauto|].
  destruct (cu_eqb c dq); [eauto|].
  destruct (negb b); [|eauto].
  destruct (cu_eqb c lbrace); [eauto|].
  destruct (cu_eqb c rbrace); [|eauto].
  destruct (n - 1 =? 0)%Z; [|eauto].
  injection H as <-. simpl. lia.
Qed.

Lemma scanBraces_bounds text jsonStart jsonEnd :
  scanBraces text jsonStart = Some jsonEnd ->
  jsonStart < jsonEnd <= length text.
Proof.
  unfold scanBraces. intros H. apply scanLoop_bounds in H.
  rewrite length_drop in H. lia.
Qed.

End StringFacts.

(** ** The loops of [parseImageTags] end *)

Section LoopFacts.

Variable checkFileExists : jstr -> bool.

(** Enough fuel: when every turn moves the search position forward and is
    only taken below [n], [n - pos + 1] turns end the loop. *)
Lemma run_loop_total (turn_at : nat -> turn) (n : nat) :
  (forall pos pos' ts ls,
      turn_at pos = Next pos' ts ls -> pos < pos' /\ pos < n) ->
  forall fuel pos tags log,
    n - pos < fuel ->
    exists tags' log', run_loop turn_at fuel pos tags log = Some (tags', log').
Proof.
  intros Hturn. induction fuel as [|f IH]; intros pos tags log Hf; [lia|].
  simpl. destruct (turn_at pos) as [|pos' ts ls] eqn:E.
  - eauto.
  - destruct (Hturn _ _ _ _ E) as [H1 H2]. apply IH. lia.
Qed.

(** With enough fuel the result does not depend on the fuel. *)
Lemma run_loop_fuel (turn_at : nat -> turn) (n : nat) :
  (forall pos pos' ts ls,
      turn_at pos = Next pos' ts ls -> pos < pos' /\ pos < n) ->
  forall f1 f2 pos tags log,
    n - pos < f1 -> n - pos < f2 ->
    run_loop turn_at f1 pos tags log = run_loop turn_at f2 pos tags log.
Proof.
  intros Hturn. induction f1 as [|f1 IH]; intros f2 pos tags log H1 H2; [lia|].
  destruct f2 as [|f2]; [lia|].
  simpl. destruct (turn_at pos) as [|pos' ts ls] eqn:E; [reflexivity|].
  destruct (Hturn _ _ _ _ E) as [Ha Hb]. apply IH; lia.
Qed.

(** What holds of every tag a turn pushes holds of every tag of the result;
    the lines logged only grow. *)
Lemma run_loop_inv (turn_at : nat -> turn) (P : tag -> Prop) :
  (forall pos pos' ts ls, turn_at pos = Next pos' ts ls -> Forall P ts) ->
  forall fuel pos tags log tags' log',
    Forall P tags ->
    run_loop turn_at fuel pos tags log = Some (tags', log') ->
    Forall P tags'.
Proof.
  intros Hturn. induction fuel as [|f IH];
    intros pos tags log tags' log' HP H; simpl in H; [discriminate|].
  destruct (turn_at pos) as [|pos' ts ls] eqn:E.
  - injection H as <- <-. exact HP.
  - eapply IH; [|exact H]. apply Forall_app. split; [exact HP|].
    exact (Hturn _ _ _ _ E).
Qed.

Lemma imgTagMarker_length : length imgTagMarker = 21.
Proof. reflexivity. Qed.

Lemma marker_length : length marker = 9.
Proof. reflexivity. Qed.

Lemma try_directive_tags nf nj jt full idx ex ts ls :
  try_directive nf nj jt full idx ex = (ts, ls) ->
  Forall (fun t => fullMatch t = full /\ index t = idx
                   /\ isNewFormat t = nf) ts.
Proof.
  unfold try_directive. intros H.
  destruct (JSON_parse nj) as [data|]; [|injection H as <- <-; constructor].
  destruct data;
    try destruct (prompt_prefix _); injection H as <- <-;
    repeat constructor.
Qed.

Lemma tagged_turn_progress text o pos pos' ts ls :
  tagged_turn checkFileExists text o pos = Next pos' ts ls ->
  pos < pos' /\ pos < length text.
Proof.
  unfold tagged_turn. intros H.
  destruct (indexOf text imgTagMarker pos) as [markerPos|] eqn:E1;
    [|discriminate].
  apply indexOf_Some in E1; [|discriminate].
  destruct E1 as (Hm1 & Hm2 & _). rewrite imgTagMarker_length in *.
  assert (Hgoal : forall p, markerPos + 1 <= p -> pos < p /\ pos < length text)
    by (intros; lia).
  destruct (lastIndexOf text (lit "<img") markerPos) as [imgStart|];
    [|injection H as <- _ _; apply Hgoal; lia].
  destruct (500 <? markerPos - imgStart);
    [injection H as <- _ _; apply Hgoal; lia|].
  destruct (indexOf text [lbrace] (markerPos + 21)) as [jsonStart|] eqn:E2;
    [|injection H as <- _ _; apply Hgoal; lia].
  apply indexOf_Some in E2; [|discriminate]. destruct E2 as (Hj1 & _).
  destruct (markerPos + 21 + 10 <? jsonStart);
    [injection H as <- _ _; apply Hgoal; lia|].
  destruct (scanBraces text jsonStart) as [jsonEnd|] eqn:E3;
    [|injection H as <- _ _; apply Hgoal; lia].
  apply scanBraces_bounds in E3.
  destruct (indexOf text [gt] jsonEnd) as [gtPos|] eqn:E4;
    [|injection H as <- _ _; apply Hgoal; lia].
  apply indexOf_Some in E4; [|discriminate]. destruct E4 as (Hg1 & _).
  assert (Hend : pos < gtPos + 1 /\ pos < length text) by lia.
  cbv zeta in H.
  repeat match type of H with
         | (if ?c then _ else _) = _ => destruct c
         | (let '(_, _) := ?x in _) = _ => destruct x
         end;
    injection H as <- _ _; exact Hend.
Qed.

Lemma legacy_turn_progress text pos pos' ts ls :
  legacy_turn text pos = Next pos' ts ls ->
  pos < pos' /\ pos < length text.
Proof.
  unfold legacy_turn. intros H.
  destruct (indexOf text marker pos) as [markerIndex|] eqn:E1; [|discriminate].
  apply indexOf_Some in E1; [|discriminate].
  destruct E1 as (Hm1 & Hm2 & _). rewrite marker_length in *.
  destruct (scanBraces text (markerIndex + 9)) as [jsonEnd|] eqn:E2;
    [|injection H as <- _ _; lia].
  apply scanBraces_bounds in E2.
  destruct (negb _); [injection H as <- _ _; lia|].
  destruct (try_directive _ _ _ _ _ _). injection H as <- _ _. lia.
Qed.

(** [parseImageTags] returns: neither loop runs out of turns. *)
Lemma parseImageTags_returns text o :
  exists tags log, parseImageTags checkFileExists text o = Some (tags, log).
Proof.
  unfold parseImageTags, scan_from.
  destruct (run_loop_total (tagged_turn checkFileExists text o) (length text)
              (tagged_turn_progress text o) (S (length text)) 0 [] [])
    as (tags1 & log1 & E1); [lia|].
  rewrite E1.
  apply (run_loop_total (legacy_turn text) (length text)
           (legacy_turn_progress text)). lia.
Qed.

End LoopFacts.

(** ** [JSON.parse]: what a parse consumes *)

Section JsonFacts.

Lemma quotes_app a b : quotes (a ++ b) = quotes a + quotes b.
Proof. induction a as [|c a IH]; simpl; [reflexivity|]. rewrite IH. lia. Qed.

Lemma eats_refl s : eats s s.
Proof. exists []. split; [reflexivity|]. intros _. exists 0. reflexivity. Qed.

Lemma eats_trans s m r : eats s m -> eats m r -> eats s r.
Proof.
  intros (p1 & -> & H1) (p2 & -> & H2). exists (p1 ++ p2).
  split; [rewrite app_assoc; reflexivity|].
  intros H. apply Forall_app in H. destruct H as [Ha Hb].
  rewrite quotes_app.
  destruct (H1 Ha) as [x Hx]. destruct (H2 Hb) as [y Hy].
  exists (x + y). lia.
Qed.

Lemma eats_cons c s : c <> dq -> eats (c :: s) s.
Proof.
  intros Hc. exists [c]. split; [reflexivity|]. intros _.
  simpl. rewrite (cu_eqb_neq c dq Hc). exists 0. reflexivity.
Qed.

Lemma eats_length s r : eats s r -> length r <= length s.
Proof. intros (pre & -> & _). rewrite length_app. lia. Qed.

Lemma skip_ws_eats s : eats s (skip_ws s).
Proof.
  induction s as [|c s IH]; simpl; [apply eats_refl|].
  destruct (is_ws c) eqn:E; [|apply eats_refl].
  eapply eats_trans; [|exact IH]. apply eats_cons.
  intros ->. discriminate.
Qed.


(** The body of a string and its closing quote: one quote when there is no
    backslash. *)
Lemma parse_string_body_eats_upto n : forall s, length s <= n ->
  forall acc str r,
  parse_string_body s acc = Some (str, r) ->
  length r < length s
  /\ exists pre, s = pre ++ r
                 /\ (no_backslash pre -> quotes pre = 1).
Proof.
  induction n as [|n IH]; intros s Hn acc str r H;
    (destruct s as [|c s]; [discriminate|]); [simpl in Hn; lia|].
  simpl in Hn. simpl in H. destruct (cu_eqb c dq) eqn:Eq.
  - injection H as <- <-. apply cu_eqb_eq in Eq. subst c.
    split; [simpl; lia|]. exists [dq]. split; [reflexivity|].
    intros _. reflexivity.
  - destruct (cu_eqb c bs) eqn:Eb.
    + apply cu_eqb_eq in Eb. subst c.
      destruct s as [|e r1]; [discriminate|].
      destruct (cu_eqb e 117%N).
      * destruct r1 as [|h1 [|h2 [|h3 [|h4 r2]]]]; try discriminate.
        destruct (hex4 h1 h2 h3 h4); [|discriminate].
        apply IH in H; [|simpl in *; lia].
        destruct H as (Hl & pre & -> & _).
        split; [simpl in *; lia|].
        exists (bs :: e :: h1 :: h2 :: h3 :: h4 :: pre).
        split; [reflexivity|].
        intros Hn'. inversion Hn'; subst. congruence.
      * destruct (simple_escape e); [|discriminate].
        apply IH in H; [|simpl in *; lia].
        destruct H as (Hl & pre & -> & _).
        split; [simpl in *; lia|].
        exists (bs :: e :: pre). split; [reflexivity|].
        intros Hn'. inversion Hn'; subst. congruence.
    + destruct (c <? 32)%N; [discriminate|].
      apply IH in H; [|lia].
      destruct H as (Hl & pre & -> & Hq).
      split; [simpl in *; lia|].
      exists (c :: pre). split; [reflexivity|].
      intros Hn'. inversion Hn'; subst. simpl. rewrite Eq. simpl.
      apply Hq. assumption.
Qed.

Lemma parse_string_body_eats s acc str r :
  parse_string_body s acc = Some (str, r) ->
  length r < length s
  /\ exists pre, s = pre ++ r
                 /\ (no_backslash pre -> quotes pre = 1).
Proof. apply (parse_string_body_eats_upto (length s)). lia. Qed.

Lemma string_eats s acc str r :
  parse_string_body s acc = Some (str, r) ->
  eats (dq :: s) r /\ length r < length s.
Proof.
  intros H. apply parse_string_body_eats in H.
  destruct H as (Hl & pre & -> & Hq). split; [|exact Hl].
  exists (dq :: pre). split; [reflexivity|].
  intros Hn. inversion Hn; subst. simpl. rewrite (Hq H2).
  exists 1. reflexivity.
Qed.

Lemma plain_eats s r : plain s r -> eats s r.
Proof.
  intros (pre & -> & H). exists pre. split; [reflexivity|].
  intros _. rewrite H. exists 0. reflexivity.
Qed.

Lemma plain_refl s : plain s s.
Proof. exists []. split; reflexivity. Qed.

Lemma plain_trans s m r : plain s m -> plain m r -> plain s r.
Proof.
  intros (p1 & -> & H1) (p2 & -> & H2). exists (p1 ++ p2).
  split; [rewrite app_assoc; reflexivity|].
  rewrite quotes_app. lia.
Qed.

Lemma plain_cons c s : c <> dq -> plain (c :: s) s.
Proof.
  intros Hc. exists [c]. split; [reflexivity|].
  simpl. rewrite (cu_eqb_neq c dq Hc). reflexivity.
Qed.

Lemma plain_length s r : plain s r -> length r <= length s.
Proof. intros (pre & -> & _). rewrite length_app. lia. Qed.

Lemma is_digit_not_dq c : is_digit c = true -> c <> dq.
Proof.
  unfold is_digit, dq. intros H ->. discriminate.
Qed.

Lemma take_digits_plain s : forall acc n m k r,
  take_digits s acc n = (m, k, r) -> plain s r.
Proof.
  induction s as [|c s IH]; intros acc n m k r H; simpl in H.
  - injection H as <- <- <-. apply plain_refl.
  - destruct (is_digit c) eqn:E.
    + eapply plain_trans; [apply plain_cons, is_digit_not_dq, E|].
      exact (IH _ _ _ _ _ H).
    + injection H as <- <- <-. apply plain_refl.
Qed.

Lemma parse_fraction_plain s mant m n r :
  parse_fraction s mant = Some (m, n, r) -> plain s r.
Proof.
  unfold parse_fraction. intros H. destruct s as [|c s].
  - injection H as <- <- <-. apply plain_refl.
  - destruct (cu_eqb c 46%N) eqn:E.
    + destruct (take_digits s mant 0) as [[m' n'] r'] eqn:Et.
      destruct n'; [discriminate|]. injection H as <- <- <-.
      eapply plain_trans; [|exact (take_digits_plain _ _ _ _ _ _ Et)].
      apply plain_cons. apply cu_eqb_eq in E. subst c. discriminate.
    + injection H as <- <- <-. apply plain_refl.
Qed.

Lemma parse_exponent_plain s e r :
  parse_exponent s = Some (e, r) -> plain s r.
Proof.
  unfold parse_exponent. intros H. destruct s as [|c s].
  - injection H as <- <-. apply plain_refl.
  - destruct (cu_eqb c 101%N || cu_eqb c 69%N) eqn:E.
    + assert (Hc : c <> dq).
      { intros ->. discriminate. }
      assert (Hsign : forall sign r1,
                 (let '(e0, n, r2) := take_digits r1 0%N 0 in
                  match n with
                  | 0 => None
                  | S _ => Some ((sign * Z.of_N e0)%Z, r2)
                  end) = Some (e, r) -> plain r1 r).
      { intros sign r1 H1.
        destruct (take_digits r1 0%N 0) as [[e0 n] r2] eqn:Et.
        destruct n; [discriminate|]. injection H1 as <- <-.
        exact (take_digits_plain _ _ _ _ _ _ Et). }
      eapply plain_trans; [apply plain_cons, Hc|].
      destruct s as [|d s']; [exact (Hsign 1%Z [] H)|].
      destruct (cu_eqb d 43%N) eqn:E1.
      * eapply plain_trans; [|exact (Hsign 1%Z s' H)].
        apply plain_cons. apply cu_eqb_eq in E1. subst d. discriminate.
      * destruct (cu_eqb d 45%N) eqn:E2; [|exact (Hsign 1%Z (d :: s') H)].
        eapply plain_trans; [|exact (Hsign (-1)%Z s' H)].
        apply plain_cons. apply cu_eqb_eq in E2. subst d. discriminate.
    + injection H as <- <-. apply plain_refl.
Qed.

Lemma parse_number_plain s v r :
  parse_number s = Some (v, r) -> plain s r /\ length r < length s.
Proof.
  unfold parse_number. intros H.
  assert (Hcore : forall neg s1,
             match s1 with
             | [] => None
             | d :: r0 =>
                 if is_digit d then
                   let '(m, r1) :=
                     if cu_eqb d 48%N then (0%N, r0)
                     else let '(m, _, r1) := take_digits s1 0%N 0 in (m, r1) in
                   match parse_fraction r1 m with
                   | Some (m', fd, r2) =>
                       match parse_exponent r2 with
                       | Some (e, r3) =>
                           Some (JNumber neg m' (e - Z.of_nat fd)%Z, r3)
                       | None => None
                       end
                   | None => None
                   end
                 else None
             end = Some (v, r) -> plain s1 r /\ length r < length s1).
  { intros neg s1 H1. destruct s1 as [|d r0]; [discriminate|].
    destruct (is_digit d) eqn:Ed; [|discriminate].
    assert (Hd : plain (d :: r0) r0) by (apply plain_cons, is_digit_not_dq, Ed).
    assert (Hstep : forall m r1,
               plain r0 r1 ->
               match parse_fraction r1 m with
               | Some (m', fd, r2) =>
                   match parse_exponent r2 with
                   | Some (e, r3) =>
                       Some (JNumber neg m' (e - Z.of_nat fd)%Z, r3)
                   | None => None
                   end
               | None => None
               end = Some (v, r) ->
               plain (d :: r0) r /\ length r < length (d :: r0)).
    { intros m r1 Hp H2.
      destruct (parse_fraction r1 m) as [[[m' fd] r2]|] eqn:Ef; [|discriminate].
      destruct (parse_exponent r2) as [[e r3]|] eqn:Ee; [|discriminate].
      injection H2 as <- <-.
      apply parse_fraction_plain in Ef. apply parse_exponent_plain in Ee.
      assert (Hr : plain r0 r3)
        by (eapply plain_trans; [exact Hp|]; eapply plain_trans; eassumption).
      split; [eapply plain_trans; eassumption|].
      apply plain_length in Hr. simpl. lia. }
    destruct (cu_eqb d 48%N).
    - apply (Hstep 0%N r0); [apply plain_refl|exact H1].
    - destruct (take_digits (d :: r0) 0%N 0) as [[m k] r1] eqn:Et.
      simpl in Et. rewrite Ed in Et.
      apply (Hstep m r1); [|exact H1].
      exact (take_digits_plain _ _ _ _ _ _ Et). }
  destruct s as [|c s]; [discriminate|].
  destruct (cu_eqb c 45%N) eqn:E.
  - apply (Hcore true s) in H. destruct H as [Hp Hl].
    split; [|simpl; lia].
    eapply plain_trans; [|exact Hp]. apply plain_cons.
    apply cu_eqb_eq in E. subst c. discriminate.
  - exact (Hcore false (c :: s) H).
Qed.

Lemma parse_keyword_plain kw v s v' r :
  quotes kw = 0 -> kw <> [] ->
  parse_keyword kw v s = POk v' r -> plain s r /\ length r < length s.
Proof.
  unfold parse_keyword. intros Hq Hne H.
  destruct (prefixb kw s) eqn:E; [|discriminate]. injection H as <- <-.
  destruct (prefixb_inv _ _ E) as [r ->].
  rewrite drop_app_length'. split.
  - exists kw. split; [reflexivity|exact Hq].
  - rewrite length_app. destruct kw; [congruence|simpl; lia].
Qed.

End JsonFacts.

Section JsonParse.

Lemma eats_skip_ws s c r : skip_ws s = c :: r -> eats s (c :: r).
Proof. intros <-. apply skip_ws_eats. Qed.

Lemma skip_ws_length s : length (skip_ws s) <= length s.
Proof. apply eats_length, skip_ws_eats. Qed.

Ltac char_is E :=
  apply cu_eqb_eq in E; subst; discriminate.

(** What a successful parse consumes: a prefix with an even number of
    double quotes (if it has no backslash), and at least one character. *)
Lemma parse_eats fuel :
  (forall s v r, parse_value fuel s = POk v r ->
                 eats s r /\ length r < length s)
  /\ (forall s acc v r, parse_members fuel s acc = POk v r ->
                        eats s r /\ length r < length s)
  /\ (forall s acc v r, parse_elements fuel s acc = POk v r ->
                        eats s r /\ length r < length s).
Proof.
  induction fuel as [|f (IHv & IHm & IHe)];
    [repeat split; intros; discriminate|].
  split; [|split].
  - intros s v r H. simpl in H.
    pose proof (skip_ws_eats s) as Hws.
    pose proof (skip_ws_length s) as Hwl.
    destruct (skip_ws s) as [|c r0]; [discriminate|].
    assert (Hlift : forall x, eats (c :: r0) x /\ length x < length (c :: r0) ->
                              eats s x /\ length x < length s).
    { intros x [Ha Hb]. split; [eapply eats_trans; eassumption|lia]. }
    apply Hlift. clear Hlift Hws Hwl.
    destruct (cu_eqb c lbrace) eqn:E1.
    { apply cu_eqb_eq in E1. subst c.
      pose proof (skip_ws_eats r0) as Hws. pose proof (skip_ws_length r0) as Hwl.
      destruct (skip_ws r0) as [|c2 r2]; [discriminate|].
      assert (H0 : eats (lbrace :: r0) (c2 :: r2))
        by (eapply eats_trans; [apply eats_cons; discriminate|exact Hws]).
      destruct (cu_eqb c2 rbrace) eqn:E2.
      - injection H as <- <-. apply cu_eqb_eq in E2. subst c2. split.
        + eapply eats_trans; [exact H0|]. apply eats_cons. discriminate.
        + simpl in *. lia.
      - apply IHm in H. destruct H as [Ha Hb]. split.
        + eapply eats_trans; eassumption.
        + simpl in *. lia. }
    destruct (cu_eqb c 91%N) eqn:E2.
    { apply cu_eqb_eq in E2. subst c.
      pose proof (skip_ws_eats r0) as Hws. pose proof (skip_ws_length r0) as Hwl.
      destruct (skip_ws r0) as [|c2 r2]; [discriminate|].
      assert (H0 : eats (91%N :: r0) (c2 :: r2))
        by (eapply eats_trans; [apply eats_cons; discriminate|exact Hws]).
      destruct (cu_eqb c2 rbrack) eqn:E3.
      - injection H as <- <-. apply cu_eqb_eq in E3. subst c2. split.
        + eapply eats_trans; [exact H0|]. apply eats_cons. discriminate.
        + simpl in *. lia.
      - apply IHe in H. destruct H as [Ha Hb]. split.
        + eapply eats_trans; eassumption.
        + simpl in *. lia. }
    destruct (cu_eqb c dq) eqn:E3.
    { apply cu_eqb_eq in E3. subst c.
      destruct (parse_string_body r0 []) as [[str r']|] eqn:Es; [|discriminate].
      injection H as <- <-. apply string_eats in Es. destruct Es as [Ha Hb].
      split; [exact Ha|simpl; lia]. }
    assert (Hkw : forall kw v0, quotes kw = 0 -> kw <> [] ->
               parse_keyword kw v0 (c :: r0) = POk v r ->
               eats (c :: r0) r /\ length r < length (c :: r0)).
    { intros kw v0 Hq Hne Hk.
      apply parse_keyword_plain in Hk; [|assumption..].
      destruct Hk as [Ha Hb]. split; [apply plain_eats, Ha|exact Hb]. }
    destruct (cu_eqb c 116%N);
      [exact (Hkw (lit "true") _ eq_refl ltac:(discriminate) H)|].
    destruct (cu_eqb c 102%N);
      [exact (Hkw (lit "false") _ eq_refl ltac:(discriminate) H)|].
    destruct (cu_eqb c 110%N);
      [exact (Hkw (lit "null") _ eq_refl ltac:(discriminate) H)|].
    destruct (parse_number (c :: r0)) as [[v' r']|] eqn:En; [|discriminate].
    injection H as <- <-. apply parse_number_plain in En.
    destruct En as [Ha Hb]. split; [apply plain_eats, Ha|exact Hb].
  - intros s acc v r H. simpl in H.
    destruct s as [|c r0]; [discriminate|].
    destruct (cu_eqb c dq) eqn:E1; [|discriminate].
    apply cu_eqb_eq in E1. subst c.
    destruct (parse_string_body r0 []) as [[k r1]|] eqn:Es; [|discriminate].
    apply string_eats in Es. destruct Es as [Hs1 Hs2].
    pose proof (skip_ws_eats r1) as Hws. pose proof (skip_ws_length r1) as Hwl.
    destruct (skip_ws r1) as [|c1 r2]; [discriminate|].
    destruct (cu_eqb c1 58%N) eqn:E2; [|discriminate].
    apply cu_eqb_eq in E2. subst c1.
    destruct (parse_value f r2) as [v0 r3| |] eqn:Ev; try discriminate.
    apply IHv in Ev. destruct Ev as [Hv1 Hv2].
    pose proof (skip_ws_eats r3) as Hws3. pose proof (skip_ws_length r3) as Hwl3.
    destruct (skip_ws r3) as [|c3 r4]; [discriminate|].
    assert (H0 : eats (dq :: r0) (c3 :: r4)).
    { eapply eats_trans; [exact Hs1|]. eapply eats_trans; [exact Hws|].
      eapply eats_trans; [apply eats_cons; discriminate|].
      eapply eats_trans; [exact Hv1|exact Hws3]. }
    destruct (cu_eqb c3 44%N) eqn:E3.
    + apply cu_eqb_eq in E3. subst c3. apply IHm in H. destruct H as [Ha Hb].
      pose proof (skip_ws_length r4). split.
      * eapply eats_trans; [exact H0|].
        eapply eats_trans; [apply eats_cons; discriminate|].
        eapply eats_trans; [apply skip_ws_eats|exact Ha].
      * simpl in *. lia.
    + destruct (cu_eqb c3 rbrace) eqn:E4; [|discriminate].
      apply cu_eqb_eq in E4. subst c3. injection H as <- <-. split.
      * eapply eats_trans; [exact H0|]. apply eats_cons. discriminate.
      * simpl in *. lia.
  - intros s acc v r H. simpl in H.
    destruct (parse_value f s) as [v0 r1| |] eqn:Ev; try discriminate.
    apply IHv in Ev. destruct Ev as [Hv1 Hv2].
    pose proof (skip_ws_eats r1) as Hws. pose proof (skip_ws_length r1) as Hwl.
    destruct (skip_ws r1) as [|c r2]; [discriminate|].
    assert (H0 : eats s (c :: r2)) by (eapply eats_trans; eassumption).
    destruct (cu_eqb c 44%N) eqn:E3.
    + apply cu_eqb_eq in E3. subst c. apply IHe in H. destruct H as [Ha Hb].
      split.
      * eapply eats_trans; [exact H0|].
        eapply eats_trans; [apply eats_cons; discriminate|exact Ha].
      * simpl in *. lia.
    + destruct (cu_eqb c rbrack) eqn:E4; [|discriminate].
      apply cu_eqb_eq in E4. subst c. injection H as <- <-. split.
      * eapply eats_trans; [exact H0|]. apply eats_cons. discriminate.
      * simpl in *. lia.
Qed.

(** The parser never runs out of fuel on a text of at most half its fuel. *)
Lemma parse_fuel fuel :
  (forall s, 2 * length s + 1 <= fuel -> parse_value fuel s <> PFuel)
  /\ (forall s acc, 2 * length s + 1 <= fuel ->
                    parse_members fuel s acc <> PFuel)
  /\ (forall s acc, 2 * length s + 2 <= fuel ->
                    parse_elements fuel s acc <> PFuel).
Proof.
  induction fuel as [|f (IHv & IHm & IHe)]; [repeat split; intros; lia|].
  split; [|split].
  - intros s Hf. simpl.
    pose proof (skip_ws_length s) as Hwl.
    destruct (skip_ws s) as [|c r0]; [discriminate|].
    destruct (cu_eqb c lbrace).
    { pose proof (skip_ws_length r0) as Hwl2.
      destruct (skip_ws r0) as [|c2 r2]; [discriminate|].
      destruct (cu_eqb c2 rbrace); [discriminate|].
      apply IHm. simpl in *. lia. }
    destruct (cu_eqb c 91%N).
    { pose proof (skip_ws_length r0) as Hwl2.
      destruct (skip_ws r0) as [|c2 r2]; [discriminate|].
      destruct (cu_eqb c2 rbrack); [discriminate|].
      apply IHe. simpl in *. lia. }
    destruct (cu_eqb c dq);
      [destruct (parse_string_body r0 []) as [[? ?]|]; discriminate|].
    unfold parse_keyword.
    destruct (cu_eqb c 116%N); [destruct (prefixb _ _); discriminate|].
    destruct (cu_eqb c 102%N); [destruct (prefixb _ _); discriminate|].
    destruct (cu_eqb c 110%N); [destruct (prefixb _ _); discriminate|].
    destruct (parse_number (c :: r0)) as [[? ?]|]; discriminate.
  - intros s acc Hf. simpl.
    destruct s as [|c r0]; [discriminate|].
    destruct (cu_eqb c dq); [|discriminate].
    destruct (parse_string_body r0 []) as [[k r1]|] eqn:Es; [|discriminate].
    apply string_eats in Es. destruct Es as [_ Hs2].
    pose proof (skip_ws_length r1) as Hwl.
    destruct (skip_ws r1) as [|c1 r2]; [discriminate|].
    destruct (cu_eqb c1 58%N); [|discriminate].
    destruct (parse_value f r2) as [v0 r3| |] eqn:Ev; [|discriminate|].
    + apply (proj1 (parse_eats f)) in Ev. destruct Ev as [_ Hv2].
      pose proof (skip_ws_length r3) as Hwl3.
      destruct (skip_ws r3) as [|c3 r4]; [discriminate|].
      destruct (cu_eqb c3 44%N).
      * apply IHm. pose proof (skip_ws_length r4). simpl in *. lia.
      * destruct (cu_eqb c3 rbrace); discriminate.
    + exfalso. revert Ev. apply IHv. simpl in *. lia.
  - intros s acc Hf. simpl.
    destruct (parse_value f s) as [v0 r1| |] eqn:Ev; [|discriminate|].
    + apply (proj1 (parse_eats f)) in Ev. destruct Ev as [_ Hv2].
      pose proof (skip_ws_length r1) as Hwl.
      destruct (skip_ws r1) as [|c r2]; [discriminate|].
      destruct (cu_eqb c 44%N).
      * apply IHe. simpl in *. lia.
      * destruct (cu_eqb c rbrack); discriminate.
    + exfalso. revert Ev. apply IHv. lia.
Qed.

(** [JSON_parse] gives the parser all the fuel it needs: [None] is a syntax
    error, never a parse cut short. *)
Lemma JSON_parse_fuel text :
  parse_value (S (2 * length text)) text <> PFuel.
Proof. apply (proj1 (parse_fuel _)). lia. Qed.


End JsonParse.

(** ** The bracket format *)

Section LegacyFacts.

Variable checkFileExists : jstr -> bool.

Lemma startsWith_lookup text k c :
  startsWith (substring_from text k) [c] = true <-> text !! k = Some c.
Proof.
  unfold startsWith, substring_from.
  replace (text !! k) with (drop k text !! 0)
    by (rewrite lookup_drop; f_equal; lia).
  destruct (drop k text) as [|d r]; simpl; [split; discriminate|].
  rewrite andb_true_r. split.
  - intros H. apply cu_eqb_eq in H. congruence.
  - intros H. injection H as ->. apply cu_eqb_refl.
Qed.


Lemma try_directive_sound nf nj jt full idx ex ts ls :
  try_directive nf nj jt full idx ex = (ts, ls) ->
  Forall (fun t => exists data,
              JSON_parse nj = Some data
              /\ fullMatch t = full /\ index t = idx
              /\ isNewFormat t = nf /\ existingSrc t = ex
              /\ fields_from data t) ts.
Proof.
  unfold try_directive. intros H.
  destruct (JSON_parse nj) as [data|]; [|injection H as <- <-; constructor].
  destruct data;
    try destruct (prompt_prefix _); injection H as <- <-;
    repeat constructor;
    eexists; repeat split.
Qed.








End LegacyFacts.

Section ScanContinues.

Variable checkFileExists : jstr -> bool.

Lemma scan_from_next (turn_at : nat -> turn) text pos pos' ts ls tags log :
  (forall p p' ts' ls',
      turn_at p = Next p' ts' ls' -> p < p' /\ p < length text) ->
  turn_at pos = Next pos' ts ls ->
  scan_from turn_at text pos tags log
  = scan_from turn_at text pos' (tags ++ ts) (log ++ ls).
Proof.
  intros Hturn E. unfold scan_from.
  destruct (Hturn _ _ _ _ E) as [H1 H2].
  transitivity (run_loop turn_at (length text) pos' (tags ++ ts) (log ++ ls));
    [simpl; rewrite E; reflexivity|].
  apply (run_loop_fuel turn_at (length text) Hturn); lia.
Qed.

Lemma legacy_scan_next text pos pos' ts ls tags log :
  legacy_turn text pos = Next pos' ts ls ->
  scan_from (legacy_turn text) text pos tags log
  = scan_from (legacy_turn text) text pos' (tags ++ ts) (log ++ ls).
Proof. apply scan_from_next, legacy_turn_progress. Qed.


Lemma parseImageTags_scans text o :
  parseImageTags checkFileExists text o
  = match scan_from (tagged_turn checkFileExists text o) text 0 [] [] with
    | Some (tags, log) => scan_from (legacy_turn text) text 0 tags log
    | None => None
    end.
Proof. reflexivity. Qed.



End ScanContinues.

(** ** The scanner: claims *)

Ltac cu_neq := let E := fresh in intros E; vm_compute in E; discriminate E.

Ltac plain_string :=
  vm_compute;
  repeat (apply sb_char; [cu_neq|cu_neq|]);
  apply sb_nil.

Lemma scanLoop_ends_at_brace rest : forall i n b e j,
  scanLoop rest i n b e = Some j -> rest !! (j - 1 - i) = Some rbrace.
Proof.
  induction rest as [|c rest IH]; intros i n b e j H; simpl in H;
    [discriminate|].
  assert (Hrec : forall n' b' e',
             scanLoop rest (S i) n' b' e' = Some j ->
             (c :: rest) !! (j - 1 - i) = Some rbrace).
  { intros n' b' e' H'. pose proof (scanLoop_bounds _ _ _ _ _ _ H') as Hb.
    apply IH in H'. replace (j - 1 - i) with (S (j - 1 - S i)) by lia.
    exact H'. }
  destruct e; [eauto|].
  destruct (cu_eqb c bs && b); [eauto|].
  destruct (cu_eqb c dq); [eauto|].
  destruct (negb b); [|eauto].
  destruct (cu_eqb c lbrace); [eauto|].
  destruct (cu_eqb c rbrace) eqn:E; [|eauto].
  destruct (n - 1 =? 0)%Z; [|eauto].
  injection H as <-. replace (i + 1 - 1 - i) with 0 by lia.
  apply cu_eqb_eq in E. subst c. reflexivity.
Qed.

Lemma scanBraces_ends_at_brace text jsonStart jsonEnd :
  scanBraces text jsonStart = Some jsonEnd ->
  text !! (jsonEnd - 1) = Some rbrace.
Proof.
  unfold scanBraces. intros H.
  pose proof (scanLoop_bounds _ _ _ _ _ _ H) as Hb.
  apply scanLoop_ends_at_brace in H. unfold jstr in *.
  rewrite lookup_drop in H.
  rewrite <- H. f_equal. lia.
Qed.

(** C3.  The brace scan, which both formats share, is aware of string
    literals: when the text at [jsonStart] is an opening brace, a balanced
    body (in which closing braces may occur inside quoted strings, also after
    backslash escapes) and the matching closing brace, the scan ends just
    after that closing brace, so that the payload is exactly that brace
    pair; and wherever the scan ends, it ends just after a closing brace. *)
Theorem scanBraces_string_aware (pre b rest : jstr) :
  items b ->
  scanBraces (pre ++ lbrace :: b ++ rbrace :: rest) (length pre)
    = Some (length pre + length b + 2)
  /\ substring (pre ++ lbrace :: b ++ rbrace :: rest)
       (length pre) (length pre + length b + 2)
     = lbrace :: b ++ [rbrace]
  /\ (forall (text : list cu) jsonStart jsonEnd,
        scanBraces text jsonStart = Some jsonEnd ->
        jsonStart < jsonEnd <= length text
        /\ text !! (jsonEnd - 1) = Some rbrace).
Proof.
  intros Hb. destruct (scanBraces_matching pre b rest Hb) as [H1 H2].
  split; [exact H1|]. split; [exact H2|].
  intros text jsonStart jsonEnd H. split.
  - exact (scanBraces_bounds text jsonStart jsonEnd H).
  - exact (scanBraces_ends_at_brace text jsonStart jsonEnd H).
Qed.

Lemma scanBraces_string_aware_witness :
  scanBraces quoted_brace_text 9 = Some 35
  /\ substring quoted_brace_text 9 35 = lit "{`prompt`:`a } in quotes`}".
Proof.
  refine (let H := scanBraces_string_aware (lit "[IMG:GEN:")
                     (lit "`prompt`:`a } in quotes`") (lit "]") _ in
          conj (proj1 H) (proj1 (proj2 H))).
  apply (it_str (lit "prompt") (lit ":`a } in quotes`")); [plain_string|].
  apply (it_plain 58%N (lit "`a } in quotes`")); [cu_neq..|].
  apply (it_str (lit "a } in quotes") []); [plain_string|apply it_nil].
Defined.






(** ** Single quotes in a bracket payload *)

Section Apostrophes.

Variable checkFileExists : jstr -> bool.





End Apostrophes.




(** ** The retry loop *)

Section RetryFacts.

Import Retry.

Variable call : Z -> call_result.
Variables maxRetries baseDelay : Z.








End RetryFacts.



(** ** The reference collector *)

Section CollectorFacts.

Import Collector.

Variable imageUrlToDataUrl : jstr -> option jstr.
Variable toLowerCase : jstr -> jstr.

Lemma images_of_index i m :
  Forall (fun g => messageIndex g = i) (images_of i m).
Proof.
  unfold images_of. apply Forall_forall. intros g Hg.
  apply list_elem_of_In, in_map_iff in Hg. destruct Hg as (p & <- & _).
  reflexivity.
Qed.

(** The images are collected from the latest message to the earliest, and
    none comes from the message being generated for. *)
Lemma scan_chat_order rest : forall n cur,
  Forall (fun g => messageIndex g < n
                   /\ Some (messageIndex g) <> cur) (scan_chat rest n cur)
  /\ StronglySorted (fun a b => messageIndex b <= messageIndex a)
       (scan_chat rest n cur).
Proof.
  induction rest as [|m rest IH]; intros n cur; simpl;
    [split; constructor|].
  destruct n as [|i]; [split; constructor|].
  destruct (IH i cur) as [IH1 IH2].
  assert (Hhead : Forall (fun g => messageIndex g = i
                                   /\ Some (messageIndex g) <> cur)
                    (if match cur with
                        | Some c => c =? i
                        | None => false
                        end
                     then []
                     else if nonempty (mes m) then images_of i m else [])).
  { destruct cur as [c|].
    - destruct (c =? i) eqn:E; [constructor|].
      apply Nat.eqb_neq in E.
      destruct (nonempty (mes m)); [|constructor].
      eapply Forall_impl; [apply images_of_index|].
      intros g ->. split; [reflexivity|]. congruence.
    - destruct (nonempty (mes m)); [|constructor].
      eapply Forall_impl; [apply images_of_index|].
      intros g ->. split; [reflexivity|discriminate]. }
  split.
  - apply Forall_app. split.
    + eapply Forall_impl; [exact Hhead|]. intros g [-> Hc]. split; [lia|exact Hc].
    + eapply Forall_impl; [exact IH1|]. intros g [Hlt Hc]. split; [lia|exact Hc].
  - induction Hhead as [|g l [Hg _] Hl IHl]; [exact IH2|].
    simpl. constructor; [exact IHl|].
    apply Forall_app. split.
    + eapply Forall_impl; [exact Hl|]. intros g' [Hg' _]. lia.
    + eapply Forall_impl; [exact IH1|]. intros g' [Hlt _]. lia.
Qed.

Lemma omap_length {A B} (f : A -> option B) l :
  length (omap f l) <= length l.
Proof.
  induction l as [|x l IH]; csimpl; [lia|].
  destruct (f x); csimpl; lia.
Qed.

(** The loop of lines 391-397 runs [endIdx] times at most, and [endIdx] is
    at most the cap in force. *)
Lemma previous_of_bound s gen style :
  (0 <= maxPreviousImages s)%Z ->
  (Z.of_nat (length (previous_of imageUrlToDataUrl s gen style))
   <= Z.min (if (maxPreviousImages s =? 0)%Z then 2 else maxPreviousImages s)
        4)%Z.
Proof.
  intros Hcap. unfold previous_of.
  destruct (sendPreviousImages s && negb (length gen =? 0));
    [|simpl; destruct (maxPreviousImages s =? 0)%Z; lia].
  etransitivity; [apply inj_le, omap_length|].
  rewrite length_take.
  destruct (maxPreviousImages s =? 0)%Z; destruct style; lia.
Qed.

End CollectorFacts.

(** C5, as the code has it.  With the style reference on, previous images on
    with cap 2, and five generated images found in the chat outside the
    message being generated for, the style reference is the last found, which
    is the oldest, and the previous images are the first two found, which
    are the two newest, newest first; a retrieval that fails leaves its
    image out.  The images are found from the latest message down, never in
    the message being generated for.  For a cap that is not negative the
    count of previous images is at most [min(c, 4)], where [c] is the cap, or
    2 when the cap is 0. *)
Theorem reference_ordering imageUrlToDataUrl toLowerCase s chat prompt cur :
  (forall g0 g1 g2 g3 g4,
     sendStyleReference s = true ->
     sendPreviousImages s = true ->
     maxPreviousImages s = 2%Z ->
     Collector.generatedImages chat cur = [g0; g1; g2; g3; g4] ->
     let r :=
       Collector.collectReferenceImages imageUrlToDataUrl toLowerCase s chat
         prompt cur in
     Collector.style_ref r
     = Collector.fetched imageUrlToDataUrl (Collector.path g4)
     /\ Collector.previous r
        = omap (fun g => Collector.fetched imageUrlToDataUrl (Collector.path g))
            [g0; g1])
  /\ (Forall (fun g => Collector.messageIndex g < length chat
                       /\ Some (Collector.messageIndex g) <> cur)
        (Collector.generatedImages chat cur)
      /\ StronglySorted
           (fun a b => Collector.messageIndex b <= Collector.messageIndex a)
           (Collector.generatedImages chat cur))
  /\ ((0 <= maxPreviousImages s)%Z ->
      (Z.of_nat
         (length
            (Collector.previous
               (Collector.collectReferenceImages imageUrlToDataUrl toLowerCase
                  s chat prompt cur)))
       <= Z.min
            (if (maxPreviousImages s =? 0)%Z then 2 else maxPreviousImages s)
            4)%Z).
Proof.
  split; [|split].
  - intros g0 g1 g2 g3 g4 Hst Hprev Hcap Hgen r. subst r.
    unfold Collector.collectReferenceImages.
    destruct chat as [|m chat']; [discriminate|].
    rewrite Hgen. cbn [Collector.style_ref Collector.previous].
    unfold Collector.style_of, Collector.previous_of.
    rewrite Hst, Hprev, Hcap. cbn [last length Nat.eqb negb andb].
    split; [reflexivity|].
    destruct (Collector.fetched imageUrlToDataUrl (Collector.path g4));
      reflexivity.
  - apply scan_chat_order.
  - intros Hcap. unfold Collector.collectReferenceImages.
    destruct chat as [|m chat']; [simpl; destruct (_ =? 0)%Z; lia|].
    cbn [Collector.previous]. apply previous_of_bound. exact Hcap.
Qed.

Lemma reference_ordering_witness :
  (let r :=
     Collector.collectReferenceImages as_data_url same_case defaultSettings
       five_images_chat (lit "a cat") (Some 6) in
   Collector.style_ref r = Some (lit "data:/user/images/c/iig_1.png")
   /\ Collector.previous r
      = [lit "data:/user/images/c/iig_5.png";
         lit "data:/user/images/c/iig_4.png"])
  /\ (Z.of_nat
        (length
           (Collector.previous
              (Collector.collectReferenceImages as_data_url same_case
                 defaultSettings five_images_chat (lit "a cat")
                 (Some 6%nat))))
      <= 2)%Z.
Proof.
  pose proof (reference_ordering as_data_url same_case defaultSettings
                five_images_chat (lit "a cat") (Some 6)) as (H1 & _ & H3).
  split.
  - exact (H1 (generated_at (lit "/user/images/c/iig_5.png") 5)
              (generated_at (lit "/user/images/c/iig_4.png") 4)
              (generated_at (lit "/user/images/c/iig_3.png") 3)
              (generated_at (lit "/user/images/c/iig_2.png") 1)
              (generated_at (lit "/user/images/c/iig_1.png") 0)
              eq_refl eq_refl eq_refl eq_refl).
  - apply H3. vm_compute. discriminate.
Defined.

(** C5 does not hold as stated: with the cap set to 0 the code falls back to
    a cap of 2, and two previous images are returned, more than
    [min(0, 4)]. *)
Lemma previous_images_cap_zero :
  maxPreviousImages settings_cap_0 = 0%Z
  /\ (Z.of_nat
        (length
           (Collector.previous
              (Collector.collectReferenceImages as_data_url same_case
                 settings_cap_0 five_images_chat (lit "a cat")
                 (Some 6%nat))))
      > Z.min (maxPreviousImages settings_cap_0) 4)%Z.
Proof. split; vm_compute; reflexivity. Qed.

(** ** The multimodal-chat adapter *)

Section AdapterFacts.

Import Adapters.




End AdapterFacts.


(** ** Patching *)

Section PatcherFacts.

Import Patcher.

Lemma indexOf_first text pat k :
  pat <> [] ->
  prefixb pat (drop k text) = true ->
  (forall i, i < k -> prefixb pat (drop i text) = false) ->
  indexOf text pat 0 = Some k.
Proof.
  intros Hne Hk Hmin.
  destruct (indexOf text pat 0) as [j|] eqn:E.
  - apply indexOf_Some in E; [|exact Hne].
    destruct E as (_ & _ & Hj & Hjmin).
    destruct (Nat.lt_trichotomy j k) as [Hlt|[->|Hgt]]; [|reflexivity|].
    + rewrite (Hmin j Hlt) in Hj. discriminate.
    + rewrite (Hjmin k) in Hk; [discriminate|lia].
  - unfold indexOf in E.
    pose proof (find_from_None _ _ _ k E) as Hf. simpl in Hf.
    change (drop 0 text) with text in Hf.
    rewrite Hf in Hk. discriminate.
Qed.


(** A replacement without a dollar sign is taken as it is. *)
Lemma getSubstitution_plain matched before after captures t :
  Forall (fun c => c <> dollar) t ->
  getSubstitution matched before after captures t = t.
Proof.
  induction 1 as [|c t Hc _ IH]; [reflexivity|].
  simpl. rewrite (cu_eqb_neq c dollar Hc). f_equal. exact IH.
Qed.


Lemma replace_string_first pre search post r :
  search <> [] ->
  (forall i, i < length pre ->
             prefixb search (drop i (pre ++ search ++ post)) = false) ->
  replace_string (pre ++ search ++ post) search r
  = pre ++ getSubstitution search pre post [] r ++ post.
Proof.
  intros Hne Hmin. unfold replace_string.
  rewrite (indexOf_first _ _ (length pre) Hne).
  - rewrite take_app_length.
    rewrite <- drop_drop, drop_app_length', drop_app_length'. reflexivity.
  - rewrite drop_app_length'. apply prefixb_app.
  - exact Hmin.
Qed.

Lemma search_Some {A} (at_ : jstr -> option A) s : forall k pos a,
  Regex.search at_ s k = Some (pos, a) ->
  k <= pos /\ at_ (drop (pos - k) s) = Some a
  /\ forall i, i < pos - k -> at_ (drop i s) = None.
Proof.
  induction s as [|c s IH]; intros k pos a H; simpl in H.
  - destruct (at_ []) eqn:E; [|discriminate]. injection H as <- <-.
    replace (k - k) with 0 by lia. repeat split; [lia|exact E|lia].
  - destruct (at_ (c :: s)) eqn:E.
    + injection H as <- <-. replace (k - k) with 0 by lia.
      repeat split; [lia|exact E|lia].
    + apply IH in H. destruct H as (Hle & Hat & Hmin).
      replace (pos - k) with (S (pos - S k)) by lia.
      repeat split; [lia|exact Hat|].
      intros i Hi. destruct i as [|i]; [exact E|]. apply Hmin. lia.
Qed.



Lemma span_split p s a b :
  Regex.span p s = (a, b) -> s = a ++ b /\ Forall (fun c => p c = true) a.
Proof.
  revert a b. induction s as [|c s IH]; intros a b H; simpl in H.
  - injection H as <- <-. split; constructor.
  - destruct (p c) eqn:E.
    + destruct (Regex.span p s) as [a' b'] eqn:Es. injection H as <- <-.
      destruct (IH a' b' eq_refl) as [-> Hf].
      split; [reflexivity|]. constructor; assumption.
    + injection H as <- <-. split; [reflexivity|constructor].
Qed.


Lemma replace_src_none full r :
  Regex.search Regex.src_attr_at full 0 = None -> replace_src full r = full.
Proof. unfold replace_src. intros ->. reflexivity. Qed.


End PatcherFacts.


Ltac no_dollars := vm_compute; repeat (constructor; [cu_neq|]); constructor.



(** ** From a directive to the patched message *)

Section OrchestrationFacts.

Import Adapters Retry Patcher Orchestration.

Variable h : host.
Variable s : settings.

(** A directive on a configured generic-REST backend whose first attempt
    succeeds: the request is that of [generateImageOpenAI], without reference
    images, and the outcome is the stored path. *)
Lemma generate_openai chat m t p st dataUrl imagePath :
  text_of (prompt t) = Some p ->
  text_of (style t) = Some st ->
  validateSettings s = None ->
  jstr_eqb (apiType s) (lit "naistera") = false ->
  is_gemini (h_toLowerCase h) s = false ->
  (0 <= maxRetries s)%Z ->
  h_backend h (generateImageOpenAI s p st [] (options_of t m)) 0%Z
  = Returned dataUrl ->
  saveImageToFile h dataUrl = inl imagePath ->
  generate h s chat m t
  = Some (Success imagePath,
          Some (generateImageOpenAI s p st [] (options_of t m))).
Proof.
  intros Hp Hst Hv Hn Hg Hr Hb Hsave.
  unfold generate, generateImageWithRetry. rewrite Hp, Hst, Hv.
  unfold gemini_references, naistera_references, request_of.
  rewrite Hg, Hn.
  unfold retry.
  replace (Z.to_nat (maxRetries s + 1) + 1)
    with (S (Z.to_nat (maxRetries s + 1))) by lia.
  cbn [retry_loop].
  destruct (0 <=? maxRetries s)%Z eqn:E; [|apply Z.leb_gt in E; lia].
  rewrite Hb. cbn [app attempts]. rewrite Hsave. reflexivity.
Qed.

(** While a message is marked, a fresh call of [processMessageTags] for it
    ends at once, with no effect but the line it logs. *)
Lemma process_skipped_when_marked m w :
  enabled s = true -> m ∈ w_processing w ->
  step_process h s m Fresh w = Some (Done, emit w [FxSkipped m]).
Proof.
  intros He Hm. unfold step_process. rewrite He. simpl.
  destruct (decide (m ∈ w_processing w)); [reflexivity|contradiction].
Qed.

End OrchestrationFacts.

(** In the message of the scenario the marker occurs once, after the first
    ten characters. *)
Lemma cat_patch o :
  Patcher.patch cat_text cat_tag o
  = lit "The image "
    ++ Patcher.getSubstitution cat_marker (lit "The image ") (lit " appears.")
         [] (Patcher.replacement cat_tag o)
    ++ lit " appears.".
Proof.
  unfold Patcher.patch.
  change cat_text with (lit "The image " ++ fullMatch cat_tag ++ lit " appears.").
  apply replace_string_first; [discriminate|].
  intros i Hi. do 10 (destruct i as [|i]; [reflexivity|]).
  simpl in Hi. lia.
Qed.

(** The scenario of the cat where the stored path holds no dollar sign: the
    backend is called with the style in brackets before the prompt, and the
    marker becomes the completion marker, the prose around it untouched. *)
Lemma cat_scenario_plain_path h s chat m dataUrl imagePath :
  Retry.validateSettings s = None ->
  jstr_eqb (apiType s) (lit "naistera") = false ->
  Retry.is_gemini (Orchestration.h_toLowerCase h) s = false ->
  (0 <= maxRetries s)%Z ->
  Orchestration.h_backend h
    (Adapters.generateImageOpenAI s (lit "a cat") (lit "anime") []
       (Orchestration.options_of cat_tag m)) 0%Z
  = Retry.Returned dataUrl ->
  Orchestration.saveImageToFile h dataUrl = inl imagePath ->
  no_dollar imagePath ->
  parseImageTags (Orchestration.h_checkFileExists h) cat_text opts_check
  = Some ([cat_tag], [LogFound false (Some (lit "a cat"))])
  /\ (exists req,
        Orchestration.generate h s chat m cat_tag
        = Some (Patcher.Success imagePath, Some req)
        /\ openai_prompt (Some req) = Some (lit "[Style: anime] a cat"))
  /\ Patcher.patch cat_text cat_tag (Patcher.Success imagePath)
     = lit "The image " ++ lit "[IMG:" ++ [Patcher.check_mark] ++ lit ":"
       ++ imagePath ++ lit "]" ++ lit " appears.".
Proof.
  intros Hv Hn Hg Hr Hb Hsave Hd.
  split; [vm_compute; reflexivity|]. split.
  - eexists. split.
    + apply (generate_openai h s chat m cat_tag (lit "a cat") (lit "anime")
               dataUrl imagePath); try assumption; reflexivity.
    + reflexivity.
  - rewrite cat_patch, getSubstitution_plain.
    + cbn [Patcher.replacement cat_tag isNewFormat].
      rewrite <- !app_assoc. reflexivity.
    + cbn [Patcher.replacement cat_tag isNewFormat].
      rewrite !Forall_app.
      repeat split; try exact Hd; vm_compute;
        repeat (constructor; [cu_neq|]); constructor.
Qed.

(** C7, on a stored path that holds [$&].  The directive is found, and the
    generic-REST backend is called with the prompt [[Style: anime] a cat], as
    the claim says; but the marker is not replaced by the completion marker
    with that path: [String.prototype.replace] expands the [$&] of the path
    into the marker just matched, so the directive is back in the text,
    inside the completion marker. *)
Theorem completion_marker_dollar_path :
  summary
    (Orchestration.run (host_storing dollar_path) settings_openai
       [0; 0; 0; 0] [process_0] (world_of cat_text))
  = Some ([Orchestration.Done],
          [KMarkerSet; KGenerate; KPatch; KSaveBegin; KSaveEnd;
           KMarkerCleared],
          [Some (lit "[Style: anime] a cat")],
          lit "The image [IMG:" ++ [Patcher.check_mark]
          ++ lit ":/user/images/R" ++ cat_marker
          ++ lit "D/iig_1.png] appears.")
  /\ lit "The image [IMG:" ++ [Patcher.check_mark]
     ++ lit ":/user/images/R" ++ cat_marker ++ lit "D/iig_1.png] appears."
     <> lit "The image [IMG:" ++ [Patcher.check_mark] ++ lit ":"
        ++ dollar_path ++ lit "] appears.".
Proof.
  split; [vm_compute; reflexivity|].
  vm_compute. discriminate.
Qed.


(** * Further properties

    Properties of the code around the directives: the log, the settings and
    their form, the upload, the answers of the backends, and more on the
    parser, the collector, the retry loop and the two entry points. *)

(** ** The log buffer *)

(** The buffer of [iigLog] holds the latest 200 entries: after any calls on
    a buffer of at most 200 entries, it is the old entries followed by the
    new ones, cut down from the front to the last 200. *)
Theorem log_buffer_keeps_latest (logBuffer : list jstr)
    (calls : list Logging.call) :
  length logBuffer <= Logging.MAX_LOG_ENTRIES ->
  let all := logBuffer ++ map Logging.entry_of calls in
  Logging.logged logBuffer calls
  = drop (length all - Logging.MAX_LOG_ENTRIES) all
  /\ length (Logging.logged logBuffer calls) <= Logging.MAX_LOG_ENTRIES.
Proof.
  unfold Logging.MAX_LOG_ENTRIES. revert logBuffer.
  induction calls as [|c calls IH]; intros buf Hlen; cbn zeta.
  - simpl. rewrite app_nil_r.
    replace (length buf - 200) with 0 by lia. split; [reflexivity|exact Hlen].
  - destruct c as [[ts l] a].
    change (Logging.logged buf ((ts, l, a) :: calls))
      with (Logging.logged (Logging.iigLog buf ts l a) calls).
    set (e := Logging.entry ts l a).
    assert (Hstep : Logging.iigLog buf ts l a
                    = drop (length (buf ++ [e]) - 200) (buf ++ [e])).
    { unfold Logging.iigLog, Logging.MAX_LOG_ENTRIES. fold e.
      rewrite length_app. simpl.
      destruct (200 <? length buf + 1) eqn:E.
      - apply Nat.ltb_lt in E.
        replace (length buf + 1 - 200) with 1 by lia. reflexivity.
      - apply Nat.ltb_ge in E.
        replace (length buf + 1 - 200) with 0 by lia. reflexivity. }
    assert (Hlen' : length (Logging.iigLog buf ts l a) <= 200).
    { rewrite Hstep, length_drop, length_app. simpl. lia. }
    destruct (IH _ Hlen') as [IH1 IH2]. cbn zeta in IH1.
    split; [|exact IH2].
    rewrite IH1, Hstep.
    change (map Logging.entry_of ((ts, l, a) :: calls))
      with (e :: map Logging.entry_of calls).
    set (es := map Logging.entry_of calls).
    replace (buf ++ e :: es) with ((buf ++ [e]) ++ es)
      by (rewrite <- app_assoc; reflexivity).
    set (X := buf ++ [e]).
    assert (HX : length X = length buf + 1)
      by (unfold X; rewrite length_app; reflexivity).
    rewrite !length_app, length_drop.
    destruct (decide (length X <= 200)) as [Hle|Hgt].
    + replace (length X - 200) with 0 by lia. rewrite drop_0.
      f_equal. lia.
    + replace (length X - 200) with 1 in * by lia.
      rewrite <- drop_app_le by lia. rewrite drop_drop. f_equal. lia.
Qed.

Lemma log_buffer_keeps_latest_witness :
  Logging.logged (repeat (lit "old") 200)
    [(lit "2026-01-01T00:00:00.000Z", WARN, [lit "a"; lit "b"])]
  = repeat (lit "old") 199 ++ [lit "[2026-01-01T00:00:00.000Z] [WARN] a b"].
Proof.
  refine (eq_trans
            (proj1 (log_buffer_keeps_latest (repeat (lit "old") 200)
                      [(lit "2026-01-01T00:00:00.000Z", WARN,
                         [lit "a"; lit "b"])] _)) _).
  - simpl. unfold Logging.MAX_LOG_ENTRIES. lia.
  - vm_compute. reflexivity.
Defined.

(** ** [getSettings] *)

Section StoreFacts.

Lemma fill_union (l : list (jstr * json)) : forall s : gmap jstr json,
  fold_left Store.fill l s = s ∪ list_to_map l.
Proof.
  induction l as [|[k v] l IH]; intros s; simpl.
  - rewrite (right_id_L ∅ (∪)). reflexivity.
  - rewrite IH. unfold Store.fill.
    destruct (s !! k) as [x|] eqn:E.
    + apply map_eq. intros i. rewrite !lookup_union.
      destruct (decide (i = k)) as [->|Hne].
      * rewrite E, lookup_insert_eq. destruct (list_to_map l !! k); reflexivity.
      * rewrite lookup_insert_ne by congruence. reflexivity.
    + apply map_eq. intros i. rewrite !lookup_union.
      destruct (decide (i = k)) as [->|Hne].
      * rewrite E, !lookup_insert_eq.
        destruct (list_to_map l !! k); reflexivity.
      * rewrite !lookup_insert_ne by congruence. reflexivity.
Qed.

End StoreFacts.

(** [getSettings] completes the stored object with the defaults and
    overwrites nothing: a stored property keeps its value, whatever it is
    (also [0], [false] or the empty string), a default that is missing is
    added, and properties the defaults do not name stay.  A second call
    changes nothing more. *)
Theorem getSettings_completes (stored : gmap jstr json) :
  Store.getSettings (Some stored)
  = stored ∪ list_to_map Store.defaultSettings
  /\ (forall key v, stored !! key = Some v ->
                    Store.getSettings (Some stored) !! key = Some v)
  /\ (forall key dflt, (key, dflt) ∈ Store.defaultSettings ->
                       is_Some (Store.getSettings (Some stored) !! key))
  /\ Store.getSettings (Some (Store.getSettings (Some stored)))
     = Store.getSettings (Some stored)
  /\ Store.getSettings None = list_to_map Store.defaultSettings.
Proof.
  assert (H : forall s : gmap jstr json,
             Store.getSettings (Some s)
             = s ∪ list_to_map Store.defaultSettings)
    by (intros s; apply fill_union).
  split; [apply H|]. split; [|split; [|split]].
  - intros key v Hk. rewrite H. apply lookup_union_Some_l. exact Hk.
  - intros key dflt Hin. rewrite H.
    apply lookup_union_is_Some. right.
    destruct (list_to_map Store.defaultSettings !! key) eqn:E; [eauto|].
    apply not_elem_of_list_to_map in E. exfalso. apply E.
    apply list_elem_of_fmap. exists (key, dflt). split; [reflexivity|exact Hin].
  - rewrite !H. rewrite <- (assoc_L (∪)). rewrite (idemp_L (∪)). reflexivity.
  - unfold Store.getSettings. rewrite fill_union. apply (idemp_L (∪)).
Qed.

Lemma getSettings_completes_witness :
  Store.getSettings
    (Some {[ lit "maxPreviousImages" := Store.number 0 ]})
    !! lit "maxPreviousImages"
  = Some (Store.number 0).
Proof.
  apply (proj1 (proj2 (getSettings_completes
                         {[ lit "maxPreviousImages" := Store.number 0 ]}))).
  apply lookup_singleton_eq.
Defined.

(** ** The number fields of the settings form *)

Section FormFacts.

Lemma lit_String a r :
  lit (String a r)
  = (let n := N_of_ascii a in if N.eqb n 96 then dq else n) :: lit r.
Proof. reflexivity. Qed.

(** The digits that [decimal] prints are decimal digits. *)
Lemma span_decimal_digits d :
  Regex.span (Form.is_digit_of 10) (lit (NilEmpty.string_of_uint d))
  = (lit (NilEmpty.string_of_uint d), []).
Proof.
  induction d; cbn [NilEmpty.string_of_uint]; [reflexivity|..];
    rewrite lit_String; cbn -[lit]; rewrite IHd; reflexivity.
Qed.

Lemma value_of_decimal d : forall acc,
  (0 <= acc)%Z ->
  fold_left
    (fun acc c => (10 * acc + default 0 (Form.digit_of 10 c))%Z)
    (lit (NilEmpty.string_of_uint d)) acc
  = Z.of_nat (Nat.of_uint_acc d (Z.to_nat acc)).
Proof.
  induction d; intros acc Hacc; cbn [NilEmpty.string_of_uint Nat.of_uint_acc];
    [simpl; lia|..];
    rewrite lit_String; cbn [fold_left];
    match goal with
    | |- context [Form.digit_of 10 ?c] =>
        let v := eval vm_compute in (Form.digit_of 10 c) in
        change (Form.digit_of 10 c) with v
    end;
    cbn [default from_option id];
    (rewrite IHd by lia); f_equal; f_equal; rewrite Nat.tail_mul_spec; lia.
Qed.

Lemma to_uint_cons n :
  exists c r, lit (NilEmpty.string_of_uint (Nat.to_uint n)) = c :: r
              /\ Form.is_digit_of 10 c = true
              /\ match r with
                 | b :: _ => Form.is_digit_of 10 b = true
                 | [] => True
                 end.
Proof.
  pose proof (DecimalNat.Unsigned.of_to n) as Hn.
  pose proof (span_decimal_digits (Nat.to_uint n)) as Hs.
  destruct (Nat.to_uint n) as [|d|d|d|d|d|d|d|d|d|d] eqn:E;
    [exfalso; cbn in Hn; subst n; discriminate E|..];
    cbn [NilEmpty.string_of_uint] in *; rewrite lit_String in *;
    eexists _, _; (split; [reflexivity|]); (split; [reflexivity|]);
    destruct d; cbn [NilEmpty.string_of_uint]; try rewrite lit_String;
    try exact I; reflexivity.
Qed.

Lemma parseInt_signed (minus : bool) n :
  Form.parseInt ((if minus then [45%N] else []) ++ Adapters.decimal n)
  = Some ((if minus then -1 else 1) * Z.of_nat n)%Z.
Proof.
  unfold Adapters.decimal.
  destruct (to_uint_cons n) as (c & r & E & Hc & Hr).
  pose proof (span_decimal_digits (Nat.to_uint n)) as Hs.
  pose proof (value_of_decimal (Nat.to_uint n) 0 ltac:(lia)) as Hv.
  rewrite E in Hs, Hv.
  unfold Form.parseInt. rewrite E.
  assert (Hdig : forall x, Form.is_digit_of 10 x = true ->
                           Regex.is_space x = false
                           /\ cu_eqb x 45%N = false /\ cu_eqb x 43%N = false
                           /\ cu_eqb x 120%N = false /\ cu_eqb x 88%N = false).
  { intros x Hx. unfold Form.is_digit_of, Form.digit_of, hex_val in Hx.
    unfold Regex.is_space, cu_eqb.
    destruct (N.leb 48 x && N.leb x 57)%N eqn:E1.
    - apply andb_prop in E1. destruct E1 as [Ha Hb].
      apply N.leb_le in Ha, Hb.
      repeat split;
        repeat match goal with
               | |- _ || _ = false => apply orb_false_iff; split
               | |- _ && _ = false => apply andb_false_iff
               end;
        try (apply N.eqb_neq; lia);
        try (left; apply N.leb_gt; lia); try (right; apply N.leb_gt; lia).
    - destruct (N.leb 65 x && N.leb x 70)%N eqn:E2.
      + apply andb_prop in E2. destruct E2 as [Ha Hb].
        apply N.leb_le in Ha, Hb.
        destruct (Z.of_N (x - 55) <? 10)%Z eqn:E3; [|discriminate].
        apply Z.ltb_lt in E3. lia.
      + destruct (N.leb 97 x && N.leb x 102)%N eqn:E4; [|discriminate].
        apply andb_prop in E4. destruct E4 as [Ha Hb].
        apply N.leb_le in Ha, Hb.
        destruct (Z.of_N (x - 87) <? 10)%Z eqn:E3; [|discriminate].
        apply Z.ltb_lt in E3. lia. }
  destruct (Hdig c Hc) as (Hsp & Hm & Hp & _).
  assert (Hrad : match c :: r with
                 | a :: b :: r0 =>
                     if cu_eqb a 48%N && (cu_eqb b 120%N || cu_eqb b 88%N)
                     then (16%Z, r0) else (10%Z, c :: r)
                 | _ => (10%Z, c :: r)
                 end = (10%Z, c :: r)).
  { destruct r as [|b r0]; [reflexivity|].
    destruct (Hdig b Hr) as (_ & _ & _ & Hx & HX).
    rewrite Hx, HX, andb_false_r. reflexivity. }
  assert (Hv' : Form.value_of 10 (c :: r) = Z.of_nat n).
  { unfold Form.value_of. rewrite Hv.
    change (Nat.of_uint_acc (Nat.to_uint n) (Z.to_nat 0))
      with (Nat.of_uint (Nat.to_uint n)).
    rewrite DecimalNat.Unsigned.of_to. reflexivity. }
  destruct minus.
  - change ([45%N] ++ c :: r) with (45%N :: c :: r).
    cbn [Regex.skip_space].
    change (Regex.is_space 45%N) with false.
    cbv beta iota zeta. rewrite (cu_eqb_refl 45%N). cbv beta iota zeta.
    cbv beta iota zeta in Hrad.
    rewrite Hrad, Hs, Hv'. reflexivity.
  - change ([] ++ c :: r) with (c :: r).
    cbn [Regex.skip_space]. rewrite Hsp, Hm, Hp, Hrad, Hs, Hv'. reflexivity.
Qed.

Lemma parseInt_decimal n :
  Form.parseInt (Adapters.decimal n) = Some (Z.of_nat n).
Proof.
  pose proof (parseInt_signed false n) as H. cbn [app] in H.
  rewrite H. f_equal. lia.
Qed.

End FormFacts.

(** The field for the cap of previous images stores a number from 1 to 4,
    whatever is typed: a number typed is kept up to 4, and [0], nothing or
    no number at all gives 2.  With a cap stored by the form,
    [collectReferenceImages] returns at most that many previous images. *)
Theorem form_cap_in_range (imageUrlToDataUrl : jstr -> option jstr)
    (value : jstr) (s : settings) (gen : list Collector.generated)
    (style : option jstr) :
  let c := Form.on_max_previous_images value in
  (1 <= c <= 4)%Z
  /\ (Z.of_nat
        (length
           (Collector.previous_of imageUrlToDataUrl
              (Form.set_maxPreviousImages s c) gen style)) <= c)%Z
  /\ (forall n : nat,
        Form.on_max_previous_images (Adapters.decimal n)
        = if n =? 0 then 2%Z else Z.min 4 (Z.of_nat n))
  /\ (Form.parseInt value = None -> Form.on_max_previous_images value = 2%Z)
  /\ Form.on_max_previous_images [] = 2%Z.
Proof.
  cbn zeta. split; [unfold Form.on_max_previous_images; lia|].
  split; [|split; [|split]].
  - etransitivity.
    + apply previous_of_bound. cbn [Form.set_maxPreviousImages maxPreviousImages].
      unfold Form.on_max_previous_images. lia.
    + cbn [Form.set_maxPreviousImages maxPreviousImages].
      unfold Form.on_max_previous_images.
      destruct (Z.min 4 (Z.max 1 (Form.or_number (Form.parseInt value) 2))
                =? 0)%Z eqn:E; [apply Z.eqb_eq in E|]; lia.
  - intros n. unfold Form.on_max_previous_images.
    rewrite parseInt_decimal. unfold Form.or_number.
    destruct n as [|n]; [reflexivity|].
    replace (Z.of_nat (S n) =? 0)%Z with false by (symmetry; apply Z.eqb_neq; lia).
    cbn [Nat.eqb]. lia.
  - intros Hnan. unfold Form.on_max_previous_images. rewrite Hnan.
    reflexivity.
  - reflexivity.
Qed.

(** The field for the number of retries never stores 0: a whole number
    typed, up to [2^53], is kept, also a negative one, and [0], nothing or no
    number at all gives 3, though the default of the settings is 0. *)
Theorem form_retries_never_zero (value : jstr) :
  Form.on_max_retries value <> 0%Z
  /\ (forall n : nat,
        (Z.of_nat n <= 2 ^ 53)%Z ->
        Form.on_max_retries (Adapters.decimal n)
        = if n =? 0 then 3%Z else Z.of_nat n)
  /\ (forall n : nat,
        (Z.of_nat n <= 2 ^ 53)%Z ->
        Form.on_max_retries (lit "-" ++ Adapters.decimal n)
        = if n =? 0 then 3%Z else (- Z.of_nat n)%Z)
  /\ (Form.parseInt value = None -> Form.on_max_retries value = 3%Z)
  /\ Form.on_max_retries [] = 3%Z
  /\ maxRetries defaultSettings = 0%Z.
Proof.
  split; [|split; [|split; [|split; [|split]]]].
  - unfold Form.on_max_retries, Form.or_number.
    destruct (Form.parseInt value) as [n|]; [|discriminate].
    destruct (n =? 0)%Z eqn:E; [discriminate|]. apply Z.eqb_neq. exact E.
  - intros n _. unfold Form.on_max_retries. rewrite parseInt_decimal.
    unfold Form.or_number. destruct n as [|n]; [reflexivity|].
    replace (Z.of_nat (S n) =? 0)%Z with false
      by (symmetry; apply Z.eqb_neq; lia).
    reflexivity.
  - intros n _. unfold Form.on_max_retries.
    assert (H : Form.parseInt (lit "-" ++ Adapters.decimal n)
                = Some (-1 * Z.of_nat n)%Z)
      by exact (parseInt_signed true n).
    rewrite H. unfold Form.or_number.
    destruct n as [|n]; [reflexivity|].
    replace (-1 * Z.of_nat (S n) =? 0)%Z with false
      by (symmetry; apply Z.eqb_neq; lia).
    cbn [Nat.eqb]. lia.
  - intros Hnan. unfold Form.on_max_retries. rewrite Hnan. reflexivity.
  - reflexivity.
  - reflexivity.
Qed.

(** A negative number typed into the field for the retries stays
    negative. *)
Lemma form_retries_sign (n : nat) :
  (Form.on_max_retries (lit "-" ++ Adapters.decimal (S n)) < 0)%Z
  /\ Form.on_max_retries (lit "-" ++ Adapters.decimal (S n))
     = (- Z.of_nat (S n))%Z.
Proof.
  assert (H : Form.parseInt (lit "-" ++ Adapters.decimal (S n))
              = Some (-1 * Z.of_nat (S n))%Z)
    by exact (parseInt_signed true (S n)).
  unfold Form.on_max_retries. rewrite H. unfold Form.or_number.
  replace (-1 * Z.of_nat (S n) =? 0)%Z with false
    by (symmetry; apply Z.eqb_neq; lia).
  lia.
Qed.

(** ** More on [generateImageWithRetry] *)

Section RetryMore.

Import Retry.

Variable call : Z -> call_result.
Variables maxRetries baseDelay : Z.



End RetryMore.



Section RetryShape.

Import Retry.

Variable call : Z -> call_result.
Variables maxRetries baseDelay : Z.


End RetryShape.


Section GenerateFacts.

Import Retry.

Variable imageUrlToDataUrl : jstr -> option jstr.
Variable toLowerCase : jstr -> jstr.
Variables charAvatarBase64 userAvatarBase64 : option jstr.
Variables charAvatarDataUrl userAvatarDataUrl : option jstr.
Variable backend : Adapters.http_request -> Z -> call_result.

Lemma push_opt_length acc x : length (push_opt acc x) <= length acc + 1.
Proof.
  unfold push_opt. destruct x as [b|]; [|lia].
  destruct (nonempty b); [rewrite length_app; simpl|]; lia.
Qed.

Lemma push_capped_bound f items : forall acc,
  length acc <= 4 -> length (push_capped f acc items) <= 4.
Proof.
  unfold push_capped. induction items as [|x items IH]; intros acc Hacc;
    cbn [fold_left]; [exact Hacc|].
  apply IH. destruct (4 <=? length acc) eqn:E; [exact Hacc|].
  apply Nat.leb_gt in E.
  destruct (f x) as [b|]; [|exact Hacc].
  destruct (nonempty b); [rewrite length_app; simpl|]; lia.
Qed.

Lemma gemini_references_bound s refs :
  length (gemini_references toLowerCase charAvatarBase64 userAvatarBase64
            s refs) <= 4.
Proof.
  unfold gemini_references. destruct (is_gemini toLowerCase s); [|simpl; lia].
  do 2 apply push_capped_bound.
  pose proof (push_opt_length [] charAvatarBase64) as H1.
  set (l1 := if sendCharAvatar s then push_opt [] charAvatarBase64 else []).
  assert (Hl1 : length l1 <= 1)
    by (unfold l1; destruct (sendCharAvatar s); simpl in *; lia).
  set (l2 := if sendUserAvatar s then push_opt l1 userAvatarBase64 else l1).
  assert (Hl2 : length l2 <= 2).
  { unfold l2. destruct (sendUserAvatar s); [|lia].
    pose proof (push_opt_length l1 userAvatarBase64). lia. }
  destruct (Collector.style_ref refs) as [st|]; [|lia].
  pose proof (push_opt_length l2 (split_1 st)). lia.
Qed.

Lemma naistera_references_bound s refs :
  length (naistera_references charAvatarDataUrl userAvatarDataUrl s refs)
  <= 4.
Proof.
  unfold naistera_references.
  destruct (jstr_eqb (apiType s) (lit "naistera")); [|simpl; lia].
  do 2 apply push_capped_bound.
  pose proof (push_opt_length [] charAvatarDataUrl) as H1.
  set (l1 := if naisteraSendCharAvatar s
             then push_opt [] charAvatarDataUrl else []).
  assert (Hl1 : length l1 <= 1)
    by (unfold l1; destruct (naisteraSendCharAvatar s); simpl in *; lia).
  set (l2 := if naisteraSendUserAvatar s
             then push_opt l1 userAvatarDataUrl else l1).
  assert (Hl2 : length l2 <= 2).
  { unfold l2. destruct (naisteraSendUserAvatar s); [|lia].
    pose proof (push_opt_length l1 userAvatarDataUrl). lia. }
  destruct (Collector.style_ref refs) as [st|]; [|lia].
  rewrite length_app. simpl. lia.
Qed.

End GenerateFacts.

(** Which references reach which backend.  [generateImageWithRetry] puts
    together at most four references for the multimodal-chat backend and at
    most four for the image service, so the adapters cut nothing off and the
    count that the multimodal-chat prompt states is the count of images sent
    with it; to the generic backend it hands no reference at all, whatever
    was collected. *)
Theorem references_by_backend (toLowerCase : jstr -> jstr)
    (charAvatarBase64 userAvatarBase64 : option jstr)
    (charAvatarDataUrl userAvatarDataUrl : option jstr)
    (s : settings) (refs : Collector.references) (prompt style : jstr)
    (o : Adapters.options) :
  let images :=
    Retry.gemini_references toLowerCase charAvatarBase64 userAvatarBase64
      s refs in
  let dataUrls :=
    Retry.naistera_references charAvatarDataUrl userAvatarDataUrl s refs in
  length images <= 4
  /\ length dataUrls <= 4
  /\ (exists ratio size_,
        Adapters.payload
          (Adapters.generateImageGemini s prompt style images o)
        = Adapters.GeminiBody
            (map (Adapters.InlineData (lit "image/png")) images
             ++ [Adapters.Text
                   ((if 0 <? length images
                     then Adapters.refInstruction (length images) else [])
                    ++ Adapters.styled prompt style)])
            [lit "TEXT"; lit "IMAGE"] ratio size_)
  /\ (jstr_eqb (apiType s) (lit "naistera") = false ->
      Retry.is_gemini toLowerCase s = false ->
      Retry.request_of toLowerCase s prompt style o images dataUrls
      = Adapters.generateImageOpenAI s prompt style [] o
      /\ exists m p n sz q f,
           Adapters.payload
             (Retry.request_of toLowerCase s prompt style o images dataUrls)
           = Adapters.OpenAIBody m p n sz q f None).
Proof.
  cbn zeta.
  pose proof (gemini_references_bound toLowerCase charAvatarBase64
                userAvatarBase64 s refs) as Hg.
  split; [exact Hg|].
  split; [apply naistera_references_bound|].
  split.
  - eexists _, _. unfold Adapters.generateImageGemini.
    cbn [Adapters.payload]. rewrite take_ge by exact Hg.
    destruct (0 <? length _); reflexivity.
  - intros Hn Hgem. unfold Retry.request_of. rewrite Hn, Hgem.
    unfold Retry.gemini_references. rewrite Hgem.
    split; [reflexivity|]. repeat eexists.
Qed.

(** With the endpoint, the key or (but for the image service) the model
    missing, [generateImageWithRetry] throws the error of [validateSettings]
    before anything else: no status is reported, no reference is collected
    and no request goes out. *)
Theorem invalid_settings_send_nothing (imageUrlToDataUrl : jstr -> option jstr)
    (toLowerCase : jstr -> jstr)
    (charAvatarBase64 userAvatarBase64 : option jstr)
    (charAvatarDataUrl userAvatarDataUrl : option jstr)
    (backend : Adapters.http_request -> Z -> Retry.call_result)
    (s : settings) (chat : list message) (prompt style : jstr)
    (o : Adapters.options) :
  endpoint s = [] \/ apiKey s = []
  \/ (jstr_eqb (apiType s) (lit "naistera") = false /\ model s = []) ->
  exists msg,
    Retry.validateSettings s = Some msg
    /\ Retry.generateImageWithRetry imageUrlToDataUrl toLowerCase
         charAvatarBase64 userAvatarBase64 charAvatarDataUrl
         userAvatarDataUrl backend s chat prompt style o
       = Some (Retry.Threw (Retry.Error (Some msg)), None, []).
Proof.
  intros H.
  assert (Hv : exists msg, Retry.validateSettings s = Some msg).
  { unfold Retry.validateSettings.
    destruct H as [H|[H|[H1 H2]]].
    - rewrite H. cbn [nonempty app]. eauto.
    - rewrite H. destruct (nonempty (endpoint s)); cbn [nonempty app]; eauto.
    - rewrite H1, H2. cbn [nonempty negb andb].
      destruct (nonempty (endpoint s)), (nonempty (apiKey s));
        cbn [app]; eauto. }
  destruct Hv as [msg Hv]. exists msg. split; [exact Hv|].
  unfold Retry.generateImageWithRetry. rewrite Hv. reflexivity.
Qed.

Lemma invalid_settings_send_nothing_witness :
  exists msg,
    Retry.validateSettings defaultSettings = Some msg
    /\ Retry.generateImageWithRetry as_data_url same_case None None None None
         (fun _ => always_429) defaultSettings five_images_chat
         (lit "a cat") [] (Orchestration.options_of cat_tag 6)
       = Some (Retry.Threw (Retry.Error (Some msg)), None, []).
Proof.
  apply invalid_settings_send_nothing. left. reflexivity.
Defined.

(** With a negative number of retries the loop of [generateImageWithRetry]
    makes no turn: no request goes out, and what is thrown is [undefined],
    not an error.  The settings form stores such a number when one is
    typed. *)
Theorem negative_retries_send_nothing
    (imageUrlToDataUrl : jstr -> option jstr) (toLowerCase : jstr -> jstr)
    (charAvatarBase64 userAvatarBase64 : option jstr)
    (charAvatarDataUrl userAvatarDataUrl : option jstr)
    (backend : Adapters.http_request -> Z -> Retry.call_result)
    (s : settings) (chat : list message) (prompt style : jstr)
    (o : Adapters.options) :
  Retry.validateSettings s = None ->
  ((maxRetries s < 0)%Z ->
   Retry.generateImageWithRetry imageUrlToDataUrl toLowerCase
     charAvatarBase64 userAvatarBase64 charAvatarDataUrl userAvatarDataUrl
     backend s chat prompt style o
   = Some (Retry.Threw Retry.Undefined, None,
           [Retry.EvStatus Retry.StCollecting]))
  /\ forall n : nat,
       Retry.generateImageWithRetry imageUrlToDataUrl toLowerCase
         charAvatarBase64 userAvatarBase64 charAvatarDataUrl
         userAvatarDataUrl backend
         (Form.set_maxRetries s
            (Form.on_max_retries (lit "-" ++ Adapters.decimal (S n))))
         chat prompt style o
       = Some (Retry.Threw Retry.Undefined, None,
               [Retry.EvStatus Retry.StCollecting]).
Proof.
  intros Hv.
  assert (Hneg : forall s', Retry.validateSettings s' = None ->
                            (maxRetries s' < 0)%Z ->
             Retry.generateImageWithRetry imageUrlToDataUrl toLowerCase
               charAvatarBase64 userAvatarBase64 charAvatarDataUrl
               userAvatarDataUrl backend s' chat prompt style o
             = Some (Retry.Threw Retry.Undefined, None,
                     [Retry.EvStatus Retry.StCollecting])).
  { intros s' Hv' Hlt. unfold Retry.generateImageWithRetry. rewrite Hv'.
    unfold Retry.retry.
    replace (Z.to_nat (maxRetries s' + 1) + 1) with 1 by lia.
    cbn [Retry.retry_loop].
    replace (0 <=? maxRetries s')%Z with false
      by (symmetry; apply Z.leb_gt; lia).
    reflexivity. }
  split; [apply Hneg; exact Hv|].
  intros n. apply Hneg; [exact Hv|].
  cbn [Form.set_maxRetries maxRetries].
  destruct (form_retries_sign n) as [Hs _]. exact Hs.
Qed.

Lemma negative_retries_send_nothing_witness :
  Retry.generateImageWithRetry as_data_url same_case None None None None
    (fun _ => always_429)
    (Form.set_maxRetries settings_openai
       (Form.on_max_retries (lit "-" ++ Adapters.decimal 1)))
    five_images_chat (lit "a cat") [] (Orchestration.options_of cat_tag 6)
  = Some (Retry.Threw Retry.Undefined, None,
          [Retry.EvStatus Retry.StCollecting]).
Proof.
  apply (proj2 (negative_retries_send_nothing as_data_url same_case None None
                  None None (fun _ => always_429) settings_openai
                  five_images_chat (lit "a cat") []
                  (Orchestration.options_of cat_tag 6) eq_refl) 0).
Defined.

(** ** [saveImageToFile] and the answers of the backends *)

Section UploadFacts.

Lemma span_all p a b :
  Forall (fun c => p c = true) a ->
  match b with
  | c :: _ => p c = false
  | [] => True
  end ->
  Regex.span p (a ++ b) = (a, b).
Proof.
  intros Ha Hb. induction Ha as [|c a Hc _ IH]; cbn [app].
  - destruct b as [|c b]; [reflexivity|]. simpl. rewrite Hb. reflexivity.
  - simpl. rewrite Hc, IH. reflexivity.
Qed.

Lemma search_skip {A} (at_ : jstr -> option A) c s k :
  at_ (c :: s) = None ->
  Regex.search at_ (c :: s) k = Regex.search at_ s (S k).
Proof. intros H. simpl. rewrite H. reflexivity. Qed.

Lemma search_hit {A} (at_ : jstr -> option A) s k a :
  at_ s = Some a -> Regex.search at_ s k = Some (k, a).
Proof. intros H. destruct s; simpl; rewrite H; reflexivity. Qed.

(** The first comma of a text is where [indexOf] finds it. *)
Lemma indexOf_comma pre rest :
  Forall (fun c => c <> 44%N) pre ->
  indexOf (pre ++ 44%N :: rest) (lit ",") 0 = Some (length pre).
Proof.
  intros Hpre. apply indexOf_first; [discriminate| |].
  - rewrite drop_app_length. reflexivity || (simpl; rewrite cu_eqb_refl; reflexivity).
  - intros i Hi.
    destruct (pre !! i) as [c|] eqn:E;
      [|apply lookup_ge_None in E; lia].
    rewrite (drop_S _ c i) by (apply lookup_app_l_Some; exact E).
    change (lit ",") with [44%N]. cbn [prefixb].
    rewrite Forall_forall in Hpre.
    assert (Hc : c <> 44%N) by (apply Hpre; eapply list_elem_of_lookup_2; exact E).
    replace (cu_eqb 44%N c) with false; [reflexivity|].
    symmetry. apply N.eqb_neq. congruence.
Qed.

Lemma is_word_not_comma c : Upload.is_word c = true -> c <> 44%N.
Proof. intros H ->. discriminate H. Qed.

(** A data URL of an image is taken apart at its first comma: what follows
    is uploaded as the image, and the word after [image/] is its format. *)
Lemma saveImageToFile_decodes h fmt meta payload :
  fmt <> [] ->
  Forall (fun c => Upload.is_word c = true) fmt ->
  Forall (fun c => c <> 44%N) meta ->
  match meta with
  | c :: _ => Upload.is_word c = false
  | [] => True
  end ->
  Upload.saveImageToFile h
    (lit "data:image/" ++ fmt ++ meta ++ lit "," ++ payload)
  = (Some (Upload.body_of h fmt payload),
     Upload.h_upload h (Upload.body_of h fmt payload)).
Proof.
  intros Hne Hw Hm Hhd.
  set (pre := lit "data:image/" ++ fmt ++ meta).
  assert (Hd : lit "data:image/" ++ fmt ++ meta ++ lit "," ++ payload
               = pre ++ 44%N :: payload)
    by (unfold pre; rewrite <- !app_assoc; reflexivity).
  assert (Hpre : Forall (fun c => c <> 44%N) pre).
  { unfold pre. rewrite !Forall_app. split; [|split].
    - vm_compute. repeat (constructor; [discriminate|]). constructor.
    - eapply Forall_impl; [exact Hw|]. intros c. apply is_word_not_comma.
    - exact Hm. }
  unfold Upload.saveImageToFile.
  assert (Hstart : startsWith (lit "data:image/" ++ fmt ++ meta ++ lit ","
                               ++ payload) (lit "data:") = true)
    by reflexivity.
  assert (Hstart' : startsWith (lit "data:image/" ++ fmt ++ meta ++ lit ","
                                ++ payload) (lit "data:image/") = true)
    by apply prefixb_app.
  rewrite Hstart. rewrite andb_false_r. cbn [negb andb].
  rewrite Hstart'. cbn [negb].
  rewrite Hd, indexOf_comma by exact Hpre. cbv beta iota zeta.
  match goal with
  | |- context [substring ?t 0 ?n] =>
      assert (Hmeta : substring t 0 n = pre)
  end.
  { unfold substring. rewrite Nat.min_0_l, Nat.max_0_l, Nat.sub_0_r.
    rewrite drop_0. apply take_app_length. }
  match goal with
  | |- context [substring_from ?t ?n] =>
      assert (Hdata : substring_from t n = payload)
  end.
  { unfold substring_from. rewrite drop_app_add. reflexivity. }
  rewrite Hmeta, Hdata.
  assert (Hfmt : Regex.search Upload.format_at pre 0 = Some (5, fmt)).
  { unfold pre.
    change (lit "data:image/" ++ fmt ++ meta)
      with (100%N :: 97%N :: 116%N :: 97%N :: 58%N
            :: lit "image/" ++ fmt ++ meta).
    do 5 (rewrite search_skip by reflexivity).
    assert (Hat : Upload.format_at (lit "image/" ++ fmt ++ meta) = Some fmt).
    { unfold Upload.format_at. rewrite prefixb_app.
      change (drop 6 (lit "image/" ++ fmt ++ meta)) with (fmt ++ meta).
      rewrite (span_all _ fmt meta Hw Hhd).
      destruct fmt; [congruence|reflexivity]. }
    apply search_hit. exact Hat. }
  rewrite Hfmt. reflexivity.
Qed.

End UploadFacts.

(** What [saveImageToFile] uploads.  Whenever it comes to uploading, the
    text it works on (its argument, or what was retrieved for an argument
    that is an [http] address) begins with [data:image/] and holds a comma;
    the image uploaded is all that follows the first comma; the format is a
    run of one or more word characters; the character name is not empty; and
    the file name is [iig_] and a time stamp without colon or dot.  Its result
    is the answer to the upload. *)
Theorem upload_is_wellformed (h : Upload.host) (dataUrl : jstr)
    (body : Upload.upload_body) (r : jstr + jstr) :
  Upload.saveImageToFile h dataUrl = (Some body, r) ->
  r = Upload.h_upload h body
  /\ (exists d meta,
        (d = dataUrl
         \/ Collector.fetched (Upload.h_imageUrlToDataUrl h) dataUrl = Some d)
        /\ d = meta ++ lit "," ++ Upload.image body
        /\ Forall (fun c => c <> 44%N) meta
        /\ startsWith d (lit "data:image/") = true)
  /\ Upload.format body <> []
  /\ Forall (fun c => Upload.is_word c = true) (Upload.format body)
  /\ Upload.ch_name body <> []
  /\ exists stamp,
       Upload.filename body = lit "iig_" ++ stamp
       /\ length stamp = length (Upload.h_now h)
       /\ Forall (fun c => c <> 58%N /\ c <> 46%N) stamp.
Proof.
  unfold Upload.saveImageToFile. intros H.
  set (converted :=
         if nonempty dataUrl && negb (startsWith dataUrl (lit "data:"))
            && (startsWith dataUrl (lit "http://")
                || startsWith dataUrl (lit "https://"))
         then Collector.fetched (Upload.h_imageUrlToDataUrl h) dataUrl
         else Some dataUrl) in H.
  assert (Hconv : forall d, converted = Some d ->
             d = dataUrl
             \/ Collector.fetched (Upload.h_imageUrlToDataUrl h) dataUrl
                = Some d).
  { intros d Hd. unfold converted in Hd.
    destruct (_ && _ && _); [right; exact Hd|left; congruence]. }
  destruct converted as [d|]; [|discriminate].
  specialize (Hconv d eq_refl).
  destruct (indexOf d (lit ",") 0) as [ci|] eqn:Eci; [|discriminate].
  destruct (startsWith d (lit "data:image/")) eqn:Est; [|discriminate].
  cbn [negb] in H. injection H as <- <-.
  apply indexOf_Some in Eci; [|discriminate].
  destruct Eci as (_ & Hlen & Hat & Hmin).
  apply prefixb_inv in Hat. destruct Hat as [rest Hrest].
  assert (Hd : d = take ci d ++ lit "," ++ rest)
    by (rewrite <- Hrest; symmetry; apply take_drop).
  assert (Himg : substring_from d (ci + 1) = rest).
  { unfold substring_from. rewrite <- drop_drop, Hrest. reflexivity. }
  assert (Hmeta : substring d 0 ci = take ci d).
  { unfold substring. rewrite Nat.min_0_l, Nat.max_0_l, Nat.sub_0_r, drop_0.
    reflexivity. }
  cbn [Upload.image Upload.format Upload.ch_name Upload.filename].
  split; [reflexivity|]. split; [|split; [|split; [|split]]].
  - exists d, (take ci d). split; [exact Hconv|]. rewrite Himg.
    split; [exact Hd|]. split; [|exact Est].
    apply Forall_lookup. intros i c Hi.
    apply lookup_take_Some in Hi. destruct Hi as [Hi Hlt].
    specialize (Hmin i ltac:(lia)).
    rewrite (drop_S _ c i) in Hmin by exact Hi.
    change (lit ",") with [44%N] in Hmin. cbn [prefixb] in Hmin.
    intros ->. rewrite cu_eqb_refl in Hmin. discriminate.
  - destruct (Regex.search Upload.format_at (substring d 0 ci) 0)
      as [[pos f]|] eqn:Ef; [|discriminate].
    apply search_Some in Ef. destruct Ef as (_ & Ef & _).
    unfold Upload.format_at in Ef.
    destruct (prefixb _ _); [|discriminate].
    destruct (Regex.span Upload.is_word _) as [w rest'].
    destruct w; [discriminate|]. injection Ef as <-. discriminate.
  - destruct (Regex.search Upload.format_at (substring d 0 ci) 0)
      as [[pos f]|] eqn:Ef;
      [|vm_compute; repeat (constructor; [reflexivity|]); constructor].
    apply search_Some in Ef. destruct Ef as (_ & Ef & _).
    unfold Upload.format_at in Ef.
    destruct (prefixb _ _); [|discriminate].
    destruct (Regex.span Upload.is_word _) as [w rest'] eqn:Es.
    apply span_split in Es. destruct Es as [_ Hw].
    destruct w; [discriminate|]. injection Ef as <-. exact Hw.
  - destruct (Upload.h_character h) as [name|]; [|discriminate].
    destruct name; [discriminate|]. cbn [nonempty]. discriminate.
  - exists (Upload.dashed (Upload.h_now h)). split; [reflexivity|].
    unfold Upload.dashed. split; [apply length_map|].
    apply Forall_map. apply Forall_forall. intros c _. cbn beta.
    destruct (cu_eqb c 58%N) eqn:E1; [split; discriminate|].
    destruct (cu_eqb c 46%N) eqn:E2; [split; discriminate|].
    cbn [orb]. split; intros ->; discriminate.
Qed.

Lemma upload_is_wellformed_witness :
  Upload.saveImageToFile Hosts.storing (lit "data:image/webp;base64,UklGRg==")
  = (Some {| Upload.image := lit "UklGRg==";
             Upload.format := lit "webp";
             Upload.ch_name := lit "Mira";
             Upload.filename := lit "iig_2026-01-01T10-20-30-456Z" |},
     inl (lit "/user/images/Mira/iig_2026-01-01T10-20-30-456Z.webp"))
  /\ Upload.format
       {| Upload.image := lit "UklGRg==";
          Upload.format := lit "webp";
          Upload.ch_name := lit "Mira";
          Upload.filename := lit "iig_2026-01-01T10-20-30-456Z" |} <> [].
Proof.
  assert (H : Upload.saveImageToFile Hosts.storing
                (lit "data:image/webp;base64,UklGRg==")
              = (Some {| Upload.image := lit "UklGRg==";
                         Upload.format := lit "webp";
                         Upload.ch_name := lit "Mira";
                         Upload.filename :=
                           lit "iig_2026-01-01T10-20-30-456Z" |},
                 inl (lit "/user/images/Mira/iig_2026-01-01T10-20-30-456Z.webp")))
    by (vm_compute; reflexivity).
  split; [exact H|].
  exact (proj1 (proj2 (proj2 (upload_is_wellformed _ _ _ _ H)))).
Defined.

Section AnswerFacts.

Lemma prefixb_app_r p s r : prefixb p s = true -> prefixb p (s ++ r) = true.
Proof.
  revert s. induction p as [|a p IH]; intros s H; [reflexivity|].
  destruct s as [|b s]; [discriminate|]. simpl in *.
  apply andb_prop in H. destruct H as [-> H]. cbn [andb]. apply IH. exact H.
Qed.

Lemma includes_app_l a b p : includes a p = true -> includes (a ++ b) p = true.
Proof.
  unfold includes. generalize 0.
  induction a as [|x a IH]; intros k H; simpl in *.
  - destruct (prefixb p []) eqn:E; [|discriminate].
    destruct p; [|discriminate]. destruct b; reflexivity.
  - destruct (prefixb p (x :: a)) eqn:E.
    + pose proof (prefixb_app_r p (x :: a) b E) as E'. cbn [app] in E'.
      rewrite E'. reflexivity.
    + destruct (prefixb p (x :: a ++ b)); [reflexivity|].
      apply IH. exact H.
Qed.

Lemma includes_app_r a b p : includes b p = true -> includes (a ++ b) p = true.
Proof.
  unfold includes. intros H.
  assert (G : forall k j, find_from p b k <> None ->
                          find_from p (a ++ b) j <> None).
  { induction a as [|x a IH]; intros k j Hk; cbn [app].
    - intros Hn. apply Hk.
      destruct (find_from p b k) eqn:E; [|reflexivity].
      exfalso.
      assert (Hall : forall i, prefixb p (drop i b) = false)
        by (intros i; eapply find_from_None; exact Hn).
      apply find_from_Some in E. destruct E as (_ & _ & E & _).
      rewrite Hall in E. discriminate.
    - simpl. destruct (prefixb p (x :: a ++ b)); [discriminate|].
      apply (IH k). exact Hk. }
  specialize (G 0 0).
  destruct (find_from p (a ++ b) 0); [reflexivity|].
  exfalso. apply G; [|reflexivity].
  destruct (find_from p b 0); [discriminate|discriminate].
Qed.

Lemma isRetryable_app_r a b :
  Retry.isRetryable (Some b) = true -> Retry.isRetryable (Some (a ++ b)) = true.
Proof.
  unfold Retry.isRetryable. intros H.
  repeat match type of H with
         | _ || _ = true => apply orb_prop in H; destruct H as [H|H]
         end;
    rewrite (includes_app_r a b _ H); rewrite ?orb_true_r; reflexivity.
Qed.

Lemma isRetryable_app_l a b :
  Retry.isRetryable (Some a) = true -> Retry.isRetryable (Some (a ++ b)) = true.
Proof.
  unfold Retry.isRetryable. intros H.
  repeat match type of H with
         | _ || _ = true => apply orb_prop in H; destruct H as [H|H]
         end;
    rewrite (includes_app_l a b _ H); rewrite ?orb_true_r; reflexivity.
Qed.

End AnswerFacts.

(** An answer that is not [ok] makes each adapter throw an error that names
    the status and quotes the body.  The retry loop takes it for retryable
    when the status is 429, 502, 503 or 504, whatever the body; and, whatever
    the status, when the body holds one of the six marks the loop looks
    for. *)
Theorem http_errors_retried (status : nat) (text : jstr) :
  status ∈ [429; 502; 503; 504]
  \/ Retry.isRetryable (Some text) = true ->
  Responses.answerOpenAI (Responses.NotOk status text)
  = Responses.Throws (Responses.api_error status text)
  /\ Responses.answerGemini (Responses.NotOk status text)
     = Responses.Throws (Responses.api_error status text)
  /\ Responses.answerNaistera (Responses.NotOk status text)
     = Responses.Throws (Responses.api_error status text)
  /\ Retry.isRetryable (Some (Responses.api_error status text)) = true.
Proof.
  intros H. repeat (split; [reflexivity|]).
  unfold Responses.api_error.
  destruct H as [H|H].
  - apply isRetryable_app_r, isRetryable_app_l.
    repeat (apply elem_of_cons in H; destruct H as [->|H];
            [vm_compute; reflexivity|]).
    inversion H.
  - do 3 apply isRetryable_app_r. exact H.
Qed.

Lemma http_errors_retried_witness :
  Retry.isRetryable
    (Some (Responses.api_error 503 (lit "Service Unavailable"))) = true.
Proof.
  apply (http_errors_retried 503 (lit "Service Unavailable")).
  left. repeat constructor.
Defined.

(** The image that the generic backend answers with is the image that is
    uploaded: [b64_json] of the first entry, when there is one, comes back as
    a PNG data URL, of which [saveImageToFile] uploads that same text as the
    image, with format [png], whatever characters it holds.  A first entry
    with neither [b64_json] nor [url] makes the adapter return [undefined]
    where one would expect it to throw. *)
Theorem openai_answer_uploaded (h : Upload.host)
    (imageObj : Responses.image_obj) (rest : list Responses.image_obj)
    (u : option jstr) :
  let answer :=
    Responses.answerOpenAI
      (Responses.Ok {| Responses.data := Some (imageObj :: rest);
                       Responses.r_url := u |}) in
  (forall b, Responses.b64_json imageObj = Some b -> b <> [] ->
     answer = Responses.Value (Some (lit "data:image/png;base64," ++ b))
     /\ Upload.saveImageToFile h (lit "data:image/png;base64," ++ b)
        = (Some (Upload.body_of h (lit "png") b),
           Upload.h_upload h (Upload.body_of h (lit "png") b)))
  /\ (Responses.b64_json imageObj = None ->
      answer = Responses.Value (Responses.io_url imageObj)).
Proof.
  cbn zeta. split.
  - intros b Hb Hne. split.
    + unfold Responses.answerOpenAI. cbn [Responses.data default from_option id].
      rewrite Hb. destruct b; [congruence|reflexivity].
    + change (lit "data:image/png;base64," ++ b)
        with (lit "data:image/" ++ lit "png" ++ lit ";base64" ++ lit ","
              ++ b).
      apply saveImageToFile_decodes.
      * discriminate.
      * vm_compute. repeat (constructor; [reflexivity|]). constructor.
      * vm_compute. repeat (constructor; [discriminate|]). constructor.
      * reflexivity.
  - intros Hb. unfold Responses.answerOpenAI.
    cbn [Responses.data default from_option id]. rewrite Hb. reflexivity.
Qed.

Lemma prefixb_long p s r :
  length p <= length s -> prefixb p (s ++ r) = prefixb p s.
Proof.
  revert s. induction p as [|a p IH]; intros s H; [reflexivity|].
  destruct s as [|b s]; [simpl in H; lia|]. simpl in *.
  rewrite IH by lia. reflexivity.
Qed.

(** The image that the multimodal-chat backend answers with: the first part
    of the first candidate that holds inline data, parts without any being
    passed over.  When its MIME type is [image/] and a word, that word is the
    format uploaded and its data, whatever it is, the image; when its MIME
    type does not begin with [image/], [saveImageToFile] refuses the value
    and uploads nothing. *)
Theorem gemini_answer_uploaded (h : Upload.host)
    (before : list Responses.rpart) (part : Responses.rpart)
    (rest : list Responses.rpart) (others : list Responses.candidate)
    (i : Responses.inline) :
  Forall (fun p => Responses.inlineData p = None
                   /\ Responses.inline_data p = None) before ->
  Responses.inlineData part = Some i
  \/ (Responses.inlineData part = None
      /\ Responses.inline_data part = Some i) ->
  Responses.answerGemini
    (Responses.Ok
       {| Responses.candidates :=
            Some ({| Responses.c_parts := Some (before ++ part :: rest) |}
                  :: others) |})
  = Responses.Value (Some (Responses.data_url i))
  /\ (forall fmt,
        Responses.mimeType i = lit "image/" ++ fmt ->
        fmt <> [] -> Forall (fun c => Upload.is_word c = true) fmt ->
        Upload.saveImageToFile h (Responses.data_url i)
        = (Some (Upload.body_of h fmt (Responses.i_data i)),
           Upload.h_upload h (Upload.body_of h fmt (Responses.i_data i))))
  /\ (6 <= length (Responses.mimeType i) ->
      startsWith (Responses.mimeType i) (lit "image/") = false ->
      Upload.saveImageToFile h (Responses.data_url i)
      = (None, inr (lit "Invalid data URL format"))).
Proof.
  intros Hbefore Hpart. split; [|split].
  - unfold Responses.answerGemini.
    cbn [Responses.candidates Responses.c_parts default from_option id].
    assert (Hfirst : Responses.first_image (before ++ part :: rest)
                     = Some (Responses.data_url i)).
    { induction Hbefore as [|p before [Hp1 Hp2] _ IH]; cbn [app].
      - cbn [Responses.first_image].
        destruct Hpart as [-> | [-> ->]]; reflexivity.
      - cbn [Responses.first_image]. rewrite Hp1, Hp2. exact IH. }
    rewrite Hfirst. reflexivity.
  - intros fmt Hm Hne Hw. unfold Responses.data_url. rewrite Hm.
    replace (lit "data:" ++ (lit "image/" ++ fmt) ++ lit ";base64,"
             ++ Responses.i_data i)
      with (lit "data:image/" ++ fmt ++ lit ";base64" ++ lit ","
            ++ Responses.i_data i)
      by (rewrite <- !app_assoc; reflexivity).
    apply saveImageToFile_decodes.
    + exact Hne.
    + exact Hw.
    + vm_compute. repeat (constructor; [discriminate|]). constructor.
    + reflexivity.
  - intros Hlen Hst. unfold Upload.saveImageToFile.
    assert (H1 : startsWith (Responses.data_url i) (lit "data:") = true)
      by reflexivity.
    assert (H2 : startsWith (Responses.data_url i) (lit "data:image/")
                 = false).
    { unfold Responses.data_url, startsWith in *.
      change (prefixb (lit "data:image/")
                (lit "data:" ++ Responses.mimeType i ++ lit ";base64,"
                 ++ Responses.i_data i))
        with (prefixb (lit "image/")
                (Responses.mimeType i ++ lit ";base64,"
                 ++ Responses.i_data i)).
      rewrite prefixb_long by exact Hlen. exact Hst. }
    rewrite H1, andb_false_r. cbn [andb negb].
    rewrite H2.
    destruct (indexOf (Responses.data_url i) (lit ",") 0); reflexivity.
Qed.

Lemma gemini_answer_uploaded_witness :
  Responses.answerGemini (Responses.Ok Cases.text_then_image)
  = Responses.Value (Some (lit "data:image/jpeg;base64,/9j/4AAQ"))
  /\ Upload.saveImageToFile Hosts.storing
       (lit "data:image/jpeg;base64,/9j/4AAQ")
     = (Some (Upload.body_of Hosts.storing (lit "jpeg") (lit "/9j/4AAQ")),
        Upload.h_upload Hosts.storing
          (Upload.body_of Hosts.storing (lit "jpeg") (lit "/9j/4AAQ"))).
Proof.
  destruct (gemini_answer_uploaded Hosts.storing
              [ {| Responses.inlineData := None;
                   Responses.inline_data := None |} ]
              {| Responses.inlineData := None;
                 Responses.inline_data :=
                   Some {| Responses.mimeType := lit "image/jpeg";
                           Responses.i_data := lit "/9j/4AAQ" |} |}
              [] []
              {| Responses.mimeType := lit "image/jpeg";
                 Responses.i_data := lit "/9j/4AAQ" |})
    as (H1 & H2 & _).
  - repeat constructor.
  - right. split; reflexivity.
  - split; [exact H1|].
    apply (H2 (lit "jpeg") eq_refl).
    + discriminate.
    + vm_compute. repeat (constructor; [reflexivity|]). constructor.
Defined.

(** ** More on [parseImageTags] *)

Section ParserShape.

Import Shapes.

Variable checkFileExists : jstr -> bool.

Lemma find_last_le p s : forall k upto acc i,
  find_last p s k upto acc = Some i ->
  acc = Some i \/ k <= i <= k + upto.
Proof.
  induction s as [|c s IH]; intros k upto acc i H.
  - destruct upto; simpl in H; destruct (prefixb p []);
      try (injection H as <-; right; lia); left; exact H.
  - destruct upto as [|u]; simpl in H.
    + destruct (prefixb p (c :: s)); [injection H as <-; right; lia|].
      left; exact H.
    + apply IH in H. destruct H as [H|H]; [|right; lia].
      destruct (prefixb p (c :: s)); [injection H as <-; right; lia|].
      left; exact H.
Qed.

Lemma lastIndexOf_le text pat from i :
  lastIndexOf text pat from = Some i -> i <= from.
Proof.
  unfold lastIndexOf. intros H. apply find_last_le in H.
  destruct H as [H|H]; [discriminate|lia].
Qed.

Lemma substring_occurs text a b :
  a < b -> b <= length text -> occurs_at text (substring text a b) a.
Proof.
  intros Hab Hb. unfold occurs_at, substring.
  rewrite Nat.min_l, Nat.max_r by lia.
  assert (Hlen : length (take (b - a) (drop a text)) = b - a)
    by (rewrite length_take, length_drop; lia).
  rewrite Hlen. split; [|split; [lia|reflexivity]].
  intros Hnil. rewrite Hnil in Hlen. simpl in Hlen. lia.
Qed.

Lemma prefixb_of_take p s : take (length p) s = p -> prefixb p s = true.
Proof.
  intros H. rewrite <- (take_drop (length p) s), H. apply prefixb_app.
Qed.

(** Where a text stands, [indexOf] finds it, there or before. *)
Lemma occurs_indexOf text pat i :
  occurs_at text pat i ->
  exists p, indexOf text pat 0 = Some p /\ p <= i.
Proof.
  intros (Hne & Hlen & Htake). apply prefixb_of_take in Htake.
  destruct (indexOf text pat 0) as [j|] eqn:E.
  - exists j. split; [reflexivity|].
    apply indexOf_Some in E; [|exact Hne]. destruct E as (_ & _ & _ & Hmin).
    destruct (le_lt_dec j i) as [Hle|Hgt]; [exact Hle|].
    rewrite Hmin in Htake by lia. discriminate.
  - exfalso. unfold indexOf in E. rewrite Nat.min_0_l, drop_0 in E.
    rewrite (find_from_None _ _ _ i E) in Htake. discriminate.
Qed.

Lemma try_directive_one nf nj jt full idx ex ts ls :
  try_directive nf nj jt full idx ex = (ts, ls) -> length ts <= 1.
Proof.
  unfold try_directive. intros H.
  destruct (JSON_parse nj) as [data|]; [|injection H as <- _; simpl; lia].
  destruct data;
    try destruct (prompt_prefix _); injection H as <- _; simpl; lia.
Qed.

(** What one turn of the first loop pushes. *)
Lemma tagged_turn_shape text o pos pos' ts ls :
  tagged_turn checkFileExists text o pos = Next pos' ts ls ->
  Forall (fun t => occurs_at text (fullMatch t) (index t)
                   /\ isNewFormat t = true
                   /\ (forceAll o = false -> needs_image checkFileExists o t))
    ts.
Proof.
  unfold tagged_turn. intros H.
  destruct (indexOf text imgTagMarker pos) as [markerPos|] eqn:E1;
    [|discriminate].
  apply indexOf_Some in E1; [|discriminate].
  destruct E1 as (Hm1 & Hm2 & _). rewrite imgTagMarker_length in *.
  destruct (lastIndexOf text (lit "<img") markerPos) as [imgStart|] eqn:E0;
    [|injection H as _ <- _; constructor].
  apply lastIndexOf_le in E0.
  destruct (500 <? markerPos - imgStart);
    [injection H as _ <- _; constructor|].
  destruct (indexOf text [lbrace] (markerPos + 21)) as [jsonStart|] eqn:E2;
    [|injection H as _ <- _; constructor].
  apply indexOf_Some in E2; [|discriminate]. destruct E2 as (Hj1 & _).
  destruct (markerPos + 21 + 10 <? jsonStart);
    [injection H as _ <- _; constructor|].
  destruct (scanBraces text jsonStart) as [jsonEnd|] eqn:E3;
    [|injection H as _ <- _; constructor].
  apply scanBraces_bounds in E3.
  destruct (indexOf text [gt] jsonEnd) as [gtPos|] eqn:E4;
    [|injection H as _ <- _; constructor].
  apply indexOf_Some in E4; [|discriminate]. destruct E4 as (Hg1 & Hg2 & _).
  change (length [gt]) with 1 in Hg2.
  cbv zeta in H.
  pose proof (substring_occurs text imgStart (gtPos + 1) ltac:(lia)
                ltac:(lia)) as Hocc.
  set (full := substring text imgStart (gtPos + 1)) in *.
  fold (src_of full) in H.
  set (v := src_of full) in *.
  assert (Hdir : forall logged ex,
            (forceAll o = false ->
             includes v (lit "error.svg") = false
             /\ (v = []
                 \/ includes v (lit "[IMG:GEN]") = true
                 \/ includes v (lit "[IMG:") = true
                 \/ (checkExistence o = true /\ checkFileExists v = false
                     /\ ex = Some v))) ->
            (let '(ts, ls) :=
               try_directive true
                 (normalize_new (substring text jsonStart jsonEnd))
                 (substring text jsonStart jsonEnd) full imgStart ex in
             Next (gtPos + 1) ts (logged ++ ls)) = Next pos' ts ls ->
            Forall (fun t => occurs_at text (fullMatch t) (index t)
                             /\ isNewFormat t = true
                             /\ (forceAll o = false ->
                                 needs_image checkFileExists o t)) ts).
  { intros logged ex Hneed.
    destruct (try_directive true
                (normalize_new (substring text jsonStart jsonEnd))
                (substring text jsonStart jsonEnd) full imgStart ex)
      as [ts0 ls0] eqn:Etd.
    intros Hd. injection Hd as _ <- _.
    pose proof (try_directive_sound _ _ _ _ _ _ _ _ Etd) as Hs.
    eapply Forall_impl; [exact Hs|].
    intros t (data & _ & Hfull & Hidx & Hnf & Hex & _).
    rewrite Hfull, Hidx. split; [exact Hocc|]. split; [exact Hnf|].
    intros Hfa. unfold needs_image. rewrite Hfull, Hex. cbv zeta.
    fold v. apply Hneed. exact Hfa. }
  destruct (includes v (lit "error.svg") && negb (forceAll o)) eqn:Eerr;
    [injection H as _ <- _; constructor|].
  destruct (forceAll o) eqn:Efa.
  - eapply Hdir; [|exact H]. discriminate.
  - rewrite andb_true_r in Eerr.
    destruct (includes v (lit "[IMG:GEN]") || includes v (lit "[IMG:")
              || (length v =? 0)) eqn:Ehm.
    + eapply Hdir; [|exact H]. intros _. split; [exact Eerr|].
      apply orb_prop in Ehm. destruct Ehm as [Ehm|Ehm].
      * apply orb_prop in Ehm. destruct Ehm as [Ehm|Ehm]; auto.
      * left. apply Nat.eqb_eq in Ehm. destruct v; [reflexivity|discriminate].
    + destruct (negb (length v =? 0) && startsWith v (lit "/")
                && (5 <? length v)) eqn:Ehp.
      * cbn [andb] in H. destruct (checkExistence o) eqn:Ece.
        -- destruct (checkFileExists v) eqn:Ecf;
             [injection H as _ <- _; constructor|].
           eapply Hdir; [|exact H]. intros _. split; [exact Eerr|].
           right. right. right. auto.
        -- injection H as _ <- _; constructor.
      * cbn [andb] in H. injection H as _ <- _; constructor.
Qed.

(** What one turn of the second loop pushes, and where. *)
Lemma legacy_turn_shape text pos pos' ts ls :
  legacy_turn text pos = Next pos' ts ls ->
  length ts <= 1
  /\ Forall (fun t => occurs_at text (fullMatch t) (index t)
                      /\ isNewFormat t = false
                      /\ pos <= index t
                      /\ index t + length (fullMatch t) <= pos') ts.
Proof.
  unfold legacy_turn. intros H.
  destruct (indexOf text marker pos) as [markerIndex|] eqn:E1; [|discriminate].
  apply indexOf_Some in E1; [|discriminate].
  destruct E1 as (Hm1 & Hm2 & _). rewrite marker_length in *.
  destruct (scanBraces text (markerIndex + 9)) as [jsonEnd|] eqn:E2;
    [|injection H as _ <- _; split; [simpl; lia|constructor]].
  apply scanBraces_bounds in E2.
  destruct (startsWith (substring_from text jsonEnd) [rbrack]) eqn:E3;
    [|injection H as _ <- _; split; [simpl; lia|constructor]].
  apply startsWith_lookup in E3.
  assert (Hlen : jsonEnd < length text)
    by (apply lookup_lt_is_Some; eauto).
  cbn [negb] in H. revert H.
  destruct (try_directive _ _ _ _ _ _) as [ts0 ls0] eqn:Etd.
  intros H. cbv beta iota in H. injection H as <- <- _.
  split; [eapply try_directive_one; exact Etd|].
  pose proof (substring_occurs text markerIndex (jsonEnd + 1) ltac:(lia)
                ltac:(lia)) as Hocc.
  apply try_directive_tags in Etd.
  eapply Forall_impl; [exact Etd|].
  intros t (Hfull & Hidx & Hnf). rewrite Hfull, Hidx.
  split; [exact Hocc|]. split; [exact Hnf|]. split; [lia|].
  destruct Hocc as (_ & _ & Htake).
  unfold substring. rewrite Nat.min_l, Nat.max_r by lia.
  rewrite length_take, length_drop. lia.
Qed.

(** An invariant of the search position and the tags found so far holds of
    the result. *)
Lemma run_loop_inv_pos (turn_at : nat -> turn)
    (I : nat -> list tag -> Prop) :
  (forall pos pos' ts ls tags,
      I pos tags -> turn_at pos = Next pos' ts ls -> I pos' (tags ++ ts)) ->
  forall fuel pos tags log tags' log',
    I pos tags ->
    run_loop turn_at fuel pos tags log = Some (tags', log') ->
    exists pos'', I pos'' tags'.
Proof.
  intros Hturn. induction fuel as [|f IH];
    intros pos tags log tags' log' HI H; simpl in H; [discriminate|].
  destruct (turn_at pos) as [|pos' ts ls] eqn:E.
  - injection H as <- <-. eauto.
  - eapply IH; [|exact H]. eapply Hturn; eauto.
Qed.

End ParserShape.

Section ParserResults.

Import Shapes.

Variable checkFileExists : jstr -> bool.

(** What holds of the tags of every turn of both loops holds of the tags
    [parseImageTags] returns. *)
Lemma parseImageTags_inv (P : tag -> Prop) text o :
  (forall pos pos' ts ls,
      tagged_turn checkFileExists text o pos = Next pos' ts ls ->
      Forall P ts) ->
  (forall pos pos' ts ls,
      legacy_turn text pos = Next pos' ts ls -> Forall P ts) ->
  exists tags log,
    parseImageTags checkFileExists text o = Some (tags, log)
    /\ Forall P tags.
Proof.
  intros Ht Hl.
  destruct (parseImageTags_returns checkFileExists text o)
    as (tags & log & E).
  exists tags, log. split; [exact E|].
  unfold parseImageTags, scan_from in E.
  destruct (run_loop (tagged_turn checkFileExists text o) (S (length text))
              0 [] []) as [[tags1 log1]|] eqn:E1; [|discriminate].
  eapply (run_loop_inv (legacy_turn text) P Hl); [|exact E].
  eapply (run_loop_inv (tagged_turn checkFileExists text o) P Ht);
    [|exact E1].
  constructor.
Qed.

Lemma sorted_app {A} (R : A -> A -> Prop) l ts :
  StronglySorted R l -> StronglySorted R ts ->
  Forall (fun a => Forall (R a) ts) l ->
  StronglySorted R (l ++ ts).
Proof.
  intros Hl Hts Hall. induction Hl as [|a l Hl IH Ha]; [exact Hts|].
  apply Forall_cons in Hall. destruct Hall as [Hats Hall].
  cbn [app]. constructor; [apply IH; exact Hall|].
  apply Forall_app. split; assumption.
Qed.

End ParserResults.

(** Every directive that [parseImageTags] returns stands in the text at its
    [index], whole and not empty; so in the text as it was parsed [indexOf]
    finds its [fullMatch], at the [index] or before it. *)
Theorem directives_stand_in_text (checkFileExists : jstr -> bool)
    (text : jstr) (o : parse_options) :
  exists tags log,
    parseImageTags checkFileExists text o = Some (tags, log)
    /\ forall t, t ∈ tags ->
         Shapes.occurs_at text (fullMatch t) (index t)
         /\ exists p, indexOf text (fullMatch t) 0 = Some p /\ p <= index t.
Proof.
  destruct (parseImageTags_inv checkFileExists
              (fun t => Shapes.occurs_at text (fullMatch t) (index t))
              text o) as (tags & log & E & Hall).
  - intros pos pos' ts ls H. apply tagged_turn_shape in H.
    eapply Forall_impl; [exact H|]. intros t (Ho & _). exact Ho.
  - intros pos pos' ts ls H. apply legacy_turn_shape in H.
    destruct H as [_ H].
    eapply Forall_impl; [exact H|]. intros t (Ho & _). exact Ho.
  - exists tags, log. split; [exact E|].
    intros t Ht. rewrite Forall_forall in Hall. specialize (Hall t Ht).
    split; [exact Hall|]. apply occurs_indexOf. exact Hall.
Qed.

(** Without [forceAll], [parseImageTags] returns no directive of the image
    format whose image is there: the [src] of each one it returns is not the
    error image, and is empty, or holds a marker, or (with [checkExistence])
    is a path that the host does not find. *)
Theorem existing_images_not_remade (checkFileExists : jstr -> bool)
    (text : jstr) (o : parse_options) :
  forceAll o = false ->
  exists tags log,
    parseImageTags checkFileExists text o = Some (tags, log)
    /\ forall t, t ∈ tags -> isNewFormat t = true ->
                 Shapes.needs_image checkFileExists o t.
Proof.
  intros Hfa.
  destruct (parseImageTags_inv checkFileExists
              (fun t => isNewFormat t = true ->
                        Shapes.needs_image checkFileExists o t)
              text o) as (tags & log & E & Hall).
  - intros pos pos' ts ls H. apply tagged_turn_shape in H.
    eapply Forall_impl; [exact H|]. intros t (_ & _ & Hn) _. exact (Hn Hfa).
  - intros pos pos' ts ls H. apply legacy_turn_shape in H.
    destruct H as [_ H].
    eapply Forall_impl; [exact H|]. intros t (_ & Hnf & _) Hnew. congruence.
  - exists tags, log. split; [exact E|].
    intros t Ht. rewrite Forall_forall in Hall. exact (Hall t Ht).
Qed.

Lemma existing_images_not_remade_witness :
  exists tags log,
    parseImageTags all_exist img_text opts_check = Some (tags, log)
    /\ forall t, t ∈ tags -> isNewFormat t = true ->
                 Shapes.needs_image all_exist opts_check t.
Proof.
  exact (existing_images_not_remade all_exist img_text opts_check eq_refl).
Defined.

(** [parseImageTags] returns the directives of the image format first and
    those of the bracket format after them; the latter stand in the order of
    the text and no two of them overlap. *)
Theorem directives_in_order (checkFileExists : jstr -> bool)
    (text : jstr) (o : parse_options) :
  exists tagged legacy log,
    parseImageTags checkFileExists text o = Some (tagged ++ legacy, log)
    /\ Forall (fun t => isNewFormat t = true) tagged
    /\ Forall (fun t => isNewFormat t = false) legacy
    /\ Shapes.apart legacy.
Proof.
  destruct (parseImageTags_returns checkFileExists text o)
    as (tags & log & E).
  pose proof E as E'. unfold parseImageTags, scan_from in E'.
  destruct (run_loop (tagged_turn checkFileExists text o) (S (length text))
              0 [] []) as [[tags1 log1]|] eqn:E1; [|discriminate].
  assert (H1 : Forall (fun t => isNewFormat t = true) tags1).
  { eapply (run_loop_inv (tagged_turn checkFileExists text o)); [|constructor|exact E1].
    intros pos pos' ts ls H. apply tagged_turn_shape in H.
    eapply Forall_impl; [exact H|]. intros t (_ & Hn & _). exact Hn. }
  destruct (run_loop_inv_pos (legacy_turn text)
              (fun pos tags =>
                 exists l, tags = tags1 ++ l
                           /\ Forall (fun t => isNewFormat t = false) l
                           /\ Shapes.apart l
                           /\ Forall (fun t => index t + length (fullMatch t)
                                               <= pos) l))
    with (fuel := S (length text)) (pos := 0) (tags := tags1) (log := log1)
         (tags' := tags) (log' := log)
    as (pos'' & l & Hl & Hnf & Hap & _).
  - intros pos pos' ts ls tags0 (l & -> & Hnf & Hap & Hend) Hturn.
    pose proof (legacy_turn_progress _ _ _ _ _ Hturn) as [Hlt _].
    apply legacy_turn_shape in Hturn. destruct Hturn as [Hone Hts].
    exists (l ++ ts). split; [rewrite app_assoc; reflexivity|].
    split; [|split].
    + apply Forall_app. split; [exact Hnf|].
      eapply Forall_impl; [exact Hts|]. intros t (_ & Hn & _). exact Hn.
    + apply sorted_app; [exact Hap| |].
      * destruct ts as [|t [|t' ts]]; [constructor| |simpl in Hone; lia].
        constructor; constructor.
      * eapply Forall_impl; [exact Hend|]. intros a Ha.
        eapply Forall_impl; [exact Hts|]. intros t (_ & _ & Hpos & _).
        cbn beta in *. lia.
    + apply Forall_app. split.
      * eapply Forall_impl; [exact Hend|]. intros a Ha. cbn beta in *. lia.
      * eapply Forall_impl; [exact Hts|]. intros t (_ & _ & _ & He). exact He.
  - exists []. split; [rewrite app_nil_r; reflexivity|].
    split; [constructor|]. split; constructor.
  - exact E'.
  - exists tags1, l, log. rewrite <- Hl. split; [exact E|].
    split; [exact H1|]. split; [exact Hnf|exact Hap].
Qed.

(** ** The text of a directive of the image format *)

Section TaggedShape.

Variable checkFileExists : jstr -> bool.

Lemma find_last_Some p s : forall k upto acc i,
  find_last p s k upto acc = Some i ->
  acc = Some i \/ (k <= i /\ prefixb p (drop (i - k) s) = true).
Proof.
  induction s as [|c s IH]; intros k upto acc i H.
  - destruct upto; simpl in H; destruct (prefixb p []) eqn:E;
      try (injection H as <-; right; rewrite Nat.sub_diag; split;
           [lia|exact E]);
      left; exact H.
  - destruct upto as [|u]; simpl in H.
    + destruct (prefixb p (c :: s)) eqn:E;
        [injection H as <-; right; rewrite Nat.sub_diag; split;
         [lia|exact E]|].
      left; exact H.
    + apply IH in H. destruct H as [H|[Hle H]].
      * destruct (prefixb p (c :: s)) eqn:E;
          [injection H as <-; right; rewrite Nat.sub_diag; split;
           [lia|exact E]|].
        left; exact H.
      * right. split; [lia|].
        replace (i - k) with (S (i - S k)) by lia. exact H.
Qed.

Lemma prefixb_take_ge p s n :
  prefixb p s = true -> length p <= n -> prefixb p (take n s) = true.
Proof.
  intros H Hn. apply prefixb_inv in H. destruct H as [r ->].
  rewrite take_app_ge by exact Hn. apply prefixb_app.
Qed.

Lemma prefixb_includes p s i :
  prefixb p (drop i s) = true -> includes s p = true.
Proof.
  intros H. unfold includes.
  destruct (find_from p s 0) eqn:E; [reflexivity|].
  rewrite (find_from_None _ _ _ i E) in H. discriminate.
Qed.

(** The text of a directive that one turn of the first loop pushes. *)
Lemma tagged_turn_text text o pos pos' ts ls :
  tagged_turn checkFileExists text o pos = Next pos' ts ls ->
  Forall (fun t => startsWith (fullMatch t) (lit "<img") = true
                   /\ last (fullMatch t) = Some gt
                   /\ includes (fullMatch t) imgTagMarker = true) ts.
Proof.
  unfold tagged_turn. intros H.
  destruct (indexOf text imgTagMarker pos) as [markerPos|] eqn:E1;
    [|discriminate].
  apply indexOf_Some in E1; [|discriminate].
  destruct E1 as (Hm1 & Hm2 & Hmark & _). rewrite imgTagMarker_length in *.
  destruct (lastIndexOf text (lit "<img") markerPos) as [imgStart|] eqn:E0;
    [|injection H as _ <- _; constructor].
  pose proof (lastIndexOf_le _ _ _ _ E0) as Hle.
  unfold lastIndexOf in E0. apply find_last_Some in E0.
  destruct E0 as [E0|[_ Himg]]; [discriminate|].
  rewrite Nat.sub_0_r in Himg.
  destruct (500 <? markerPos - imgStart);
    [injection H as _ <- _; constructor|].
  destruct (indexOf text [lbrace] (markerPos + 21)) as [jsonStart|] eqn:E2;
    [|injection H as _ <- _; constructor].
  apply indexOf_Some in E2; [|discriminate]. destruct E2 as (Hj1 & _).
  destruct (markerPos + 21 + 10 <? jsonStart);
    [injection H as _ <- _; constructor|].
  destruct (scanBraces text jsonStart) as [jsonEnd|] eqn:E3;
    [|injection H as _ <- _; constructor].
  apply scanBraces_bounds in E3.
  destruct (indexOf text [gt] jsonEnd) as [gtPos|] eqn:E4;
    [|injection H as _ <- _; constructor].
  apply indexOf_Some in E4; [|discriminate].
  destruct E4 as (Hg1 & Hg2 & Hgt & _).
  change (length [gt]) with 1 in Hg2.
  set (full := substring text imgStart (gtPos + 1)) in *.
  assert (Hfull : full = take (gtPos + 1 - imgStart) (drop imgStart text)).
  { unfold full, substring. rewrite Nat.min_l, Nat.max_r by lia.
    reflexivity. }
  assert (Hshape : startsWith full (lit "<img") = true
                   /\ last full = Some gt
                   /\ includes full imgTagMarker = true).
  { rewrite Hfull. split; [|split].
    - apply prefixb_take_ge; [exact Himg|]. simpl. lia.
    - rewrite last_lookup, length_take, length_drop.
      replace (Init.Nat.pred (Nat.min (gtPos + 1 - imgStart)
                                (length text - imgStart)))
        with (gtPos - imgStart) by lia.
      rewrite lookup_take_lt by lia. rewrite lookup_drop.
      replace (imgStart + (gtPos - imgStart)) with gtPos by lia.
      apply prefixb_inv in Hgt. destruct Hgt as [r Hr].
      rewrite <- (Nat.add_0_r gtPos), <- lookup_drop, Hr. reflexivity.
    - apply (prefixb_includes _ _ (markerPos - imgStart)).
      replace (gtPos + 1 - imgStart)
        with ((markerPos - imgStart) + (gtPos + 1 - markerPos)) by lia.
      rewrite <- take_drop_commute.
      apply prefixb_take_ge.
      + rewrite drop_drop.
        replace (imgStart + (markerPos - imgStart)) with markerPos by lia.
        exact Hmark.
      + rewrite imgTagMarker_length. lia. }
  cbv zeta in H.
  repeat match type of H with
         | (if ?c then _ else _) = _ => destruct c
         end;
    try (injection H as _ <- _; constructor).
  all: revert H;
    match goal with
    | |- context [try_directive ?a ?b ?c ?d ?e ?f] =>
        destruct (try_directive a b c d e f) as [ts0 ls0] eqn:Etd
    end;
    intros H; injection H as _ <- _;
    apply try_directive_tags in Etd;
    (eapply Forall_impl; [exact Etd|]);
    intros t (Hf & _); rewrite Hf; exact Hshape.
Qed.

End TaggedShape.

(** The text of every directive of the image format that [parseImageTags]
    returns begins with [<img], ends with [>] and holds the attribute name
    [data-iig-instruction=]; that is the text the patch looks for and
    rewrites. *)
Theorem tagged_directive_text (checkFileExists : jstr -> bool) (text : jstr)
    (o : parse_options) :
  exists tags log,
    parseImageTags checkFileExists text o = Some (tags, log)
    /\ forall t, t ∈ tags -> isNewFormat t = true ->
         startsWith (fullMatch t) (lit "<img") = true
         /\ last (fullMatch t) = Some gt
         /\ includes (fullMatch t) imgTagMarker = true.
Proof.
  destruct (parseImageTags_inv checkFileExists
              (fun t => isNewFormat t = true ->
                        startsWith (fullMatch t) (lit "<img") = true
                        /\ last (fullMatch t) = Some gt
                        /\ includes (fullMatch t) imgTagMarker = true)
              text o) as (tags & log & E & Hall).
  - intros pos pos' ts ls H. apply tagged_turn_text in H.
    eapply Forall_impl; [exact H|]. intros t Ht _. exact Ht.
  - intros pos pos' ts ls H. apply legacy_turn_shape in H.
    destruct H as [_ H].
    eapply Forall_impl; [exact H|]. intros t (_ & Hnf & _) Hnew. congruence.
  - exists tags, log. split; [exact E|].
    intros t Ht. rewrite Forall_forall in Hall. exact (Hall t Ht).
Qed.

(** A directive whose [prompt] is there but is no string (a number, a
    boolean, an array, an object) is pushed before the log line of line 973
    throws on it: [parseImageTags] returns the directive, with the prompt as
    given if it is truthy and empty otherwise, and logs a warning that its
    JSON failed to parse. *)
Theorem prompt_not_a_string_is_returned (text : jstr)
    (pos markerIndex jsonEnd : nat) (data v : json) (tags : list tag)
    (log : list log_entry) :
  indexOf text marker pos = Some markerIndex ->
  scanBraces text (markerIndex + length marker) = Some jsonEnd ->
  text !! jsonEnd = Some rbrack ->
  JSON_parse
    (normalize_legacy (substring text (markerIndex + length marker) jsonEnd))
  = Some data ->
  get data (lit "prompt") = Some v ->
  v <> JNull -> (forall s, v <> JString s) ->
  exists t warning,
    level_of warning = WARN
    /\ scan_from (legacy_turn text) text pos tags log
       = scan_from (legacy_turn text) text (jsonEnd + 1) (tags ++ [t])
           (log ++ [warning])
    /\ index t = markerIndex
    /\ fullMatch t = substring text markerIndex (jsonEnd + 1)
    /\ prompt t = (if truthy v then v else JString []).
Proof.
  intros Hi Hs Hb Hp Hg Hnull Hstr.
  assert (Hturn : exists t,
             legacy_turn text pos
             = Next (jsonEnd + 1) [t]
                 [LogParseFailed false
                    (substring
                       (substring text (markerIndex + length marker) jsonEnd)
                       0 100) TypeError]
             /\ index t = markerIndex
             /\ fullMatch t = substring text markerIndex (jsonEnd + 1)
             /\ prompt t = (if truthy v then v else JString [])).
  { unfold legacy_turn. rewrite Hi, Hs.
    apply startsWith_lookup in Hb. rewrite Hb. cbn [negb].
    unfold try_directive. rewrite Hp.
    assert (Hpp : prompt_prefix data = None).
    { unfold prompt_prefix. rewrite Hg.
      destruct v; try reflexivity; [congruence|exfalso; eapply Hstr; eauto]. }
    destruct data; try discriminate Hg.
    rewrite Hpp. eexists. split; [reflexivity|].
    cbn [index fullMatch prompt]. split; [reflexivity|].
    split; [reflexivity|]. rewrite Hg. reflexivity. }
  destruct Hturn as (t & Hturn & Hidx & Hfull & Hprompt).
  exists t. eexists. split; [|split; [|split; [|split]]].
  2: { apply legacy_scan_next. exact Hturn. }
  - reflexivity.
  - exact Hidx.
  - exact Hfull.
  - exact Hprompt.
Qed.

Lemma prompt_not_a_string_is_returned_witness :
  exists t warning,
    level_of warning = WARN
    /\ scan_from (legacy_turn Cases.number_prompt_text)
         Cases.number_prompt_text 0 [] []
       = scan_from (legacy_turn Cases.number_prompt_text)
           Cases.number_prompt_text (21 + 1) ([] ++ [t]) ([] ++ [warning])
    /\ index t = 0
    /\ fullMatch t = substring Cases.number_prompt_text 0 (21 + 1)
    /\ prompt t = JNumber false 5 0.
Proof.
  destruct (prompt_not_a_string_is_returned Cases.number_prompt_text 0 0 21
              (JObject [(lit "prompt", JNumber false 5 0)])
              (JNumber false 5 0) [] [])
    as (t & warning & H1 & H2 & H3 & H4 & H5);
    try (vm_compute; reflexivity); try discriminate.
  exists t, warning. repeat split; assumption.
Defined.

(** ** More on [collectReferenceImages] *)

Section CollectorMore.

Import Collector.

Lemma scan_chat_skips_current ra : forall m m' rb,
  scan_chat (ra ++ m :: rb) (length rb + 1 + length ra) (Some (length rb))
  = scan_chat (ra ++ m' :: rb) (length rb + 1 + length ra)
      (Some (length rb)).
Proof.
  induction ra as [|x ra IH]; intros m m' rb.
  - cbn [app length]. rewrite Nat.add_0_r, Nat.add_1_r.
    cbn [scan_chat]. rewrite Nat.eqb_refl. reflexivity.
  - cbn [app length].
    replace (length rb + 1 + S (length ra))
      with (S (length rb + 1 + length ra)) by lia.
    cbn [scan_chat]. rewrite (IH m m' rb). reflexivity.
Qed.

Lemma scan_chat_finds ra : forall m rb cur g,
  g ∈ images_of (length rb) m ->
  nonempty (mes m) = true ->
  cur <> Some (length rb) ->
  g ∈ scan_chat (ra ++ m :: rb) (length rb + 1 + length ra) cur.
Proof.
  induction ra as [|x ra IH]; intros m rb cur g Hg Hne Hcur.
  - cbn [app length]. rewrite Nat.add_0_r, Nat.add_1_r.
    cbn [scan_chat]. apply elem_of_app. left.
    destruct cur as [c|].
    + destruct (c =? length rb) eqn:E;
        [apply Nat.eqb_eq in E; congruence|].
      rewrite Hne. exact Hg.
    + rewrite Hne. exact Hg.
  - cbn [app length].
    replace (length rb + 1 + S (length ra))
      with (S (length rb + 1 + length ra)) by lia.
    cbn [scan_chat]. apply elem_of_app. right. apply IH; assumption.
Qed.

Lemma generatedImages_rev before m after cur :
  generatedImages (before ++ m :: after) cur
  = scan_chat (rev after ++ m :: rev before)
      (length (rev before) + 1 + length (rev after)) cur.
Proof.
  unfold generatedImages. rewrite rev_app_distr. cbn [rev].
  rewrite <- app_assoc. cbn [app].
  rewrite length_app, !length_rev. cbn [length]. f_equal. lia.
Qed.

End CollectorMore.


(** The message being generated for gives no reference: whatever its text,
    [collectReferenceImages] returns the same. *)
Theorem current_message_left_out (imageUrlToDataUrl : jstr -> option jstr)
    (toLowerCase : jstr -> jstr) (s : settings)
    (before after : list message) (m m' : message) (prompt : jstr) :
  Collector.generatedImages (before ++ m :: after) (Some (length before))
  = Collector.generatedImages (before ++ m' :: after) (Some (length before))
  /\ Collector.collectReferenceImages imageUrlToDataUrl toLowerCase s
       (before ++ m :: after) prompt (Some (length before))
     = Collector.collectReferenceImages imageUrlToDataUrl toLowerCase s
         (before ++ m' :: after) prompt (Some (length before)).
Proof.
  assert (H : Collector.generatedImages (before ++ m :: after)
                (Some (length before))
              = Collector.generatedImages (before ++ m' :: after)
                  (Some (length before))).
  { rewrite !generatedImages_rev. rewrite <- (length_rev before).
    apply scan_chat_skips_current. }
  split; [exact H|].
  unfold Collector.collectReferenceImages.
  destruct before; cbn [app]; cbn [app] in H; rewrite H; reflexivity.
Qed.

Section CollectorFinds.

Import Collector.

Lemma ci_prefix_self p r : Regex.ci_prefix p (p ++ r) = Some r.
Proof.
  induction p as [|a p IH]; [reflexivity|].
  cbn [app Regex.ci_prefix]. unfold Regex.ci. rewrite cu_eqb_refl.
  cbn [orb]. destruct ((97 <=? a)%N && (a <=? 122)%N); exact IH.
Qed.

(** What a pattern matched without regard to case holds no blank, when
    neither the letters of the pattern nor their capitals are blanks. *)
Lemma ci_prefix_no_space p :
  Forall (fun a => Regex.is_space a = false
                   /\ Regex.is_space (a - 32)%N = false) p ->
  forall s r, Regex.ci_prefix p s = Some r ->
    exists name, s = name ++ r
                 /\ Forall (fun c => Regex.is_space c = false) name.
Proof.
  induction 1 as [|a p [Ha HA] _ IH]; intros s r H; simpl in H.
  - injection H as <-. exists []. split; [reflexivity|constructor].
  - destruct s as [|b s]; [discriminate|].
    destruct (if (97 <=? a)%N && (a <=? 122)%N then Regex.ci a b
              else cu_eqb a b) eqn:E; [|discriminate].
    apply IH in H. destruct H as (name & -> & Hn).
    exists (b :: name). split; [reflexivity|]. constructor; [|exact Hn].
    destruct ((97 <=? a)%N && (a <=? 122)%N).
    + unfold Regex.ci in E. apply orb_prop in E.
      destruct E as [E|E]; apply cu_eqb_eq in E; subst b; assumption.
    + apply cu_eqb_eq in E. subst b. exact Ha.
Qed.

Lemma skip_opt_quote_split s :
  exists q, s = q ++ Regex.skip_opt_quote s
            /\ Forall (fun c => Regex.is_space c = false) q.
Proof.
  destruct s as [|c s]; [exists []; split; [reflexivity|constructor]|].
  simpl. destruct (Regex.is_quote c) eqn:E.
  - exists [c]. split; [reflexivity|]. constructor; [|constructor].
    unfold Regex.is_quote in E. apply orb_prop in E.
    destruct E as [E|E]; apply cu_eqb_eq in E; subst c; reflexivity.
  - exists []. split; [reflexivity|constructor].
Qed.

(** A match of the expression of line 362 holds no blank. *)
Lemma img_path_at_split s len a :
  Regex.img_path_at s = Some (len, a) ->
  exists M, s = M ++ drop len s /\ length M = len
            /\ Forall (fun c => Regex.is_space c = false) M.
Proof.
  unfold Regex.img_path_at. intros H.
  destruct (Regex.ci_prefix (lit "src=") s) as [r|] eqn:E1; [|discriminate].
  apply ci_prefix_no_space in E1;
    [|vm_compute; repeat (constructor; [split; reflexivity|]); constructor].
  destruct E1 as (n1 & -> & Hn1).
  destruct (skip_opt_quote_split r) as (q1 & Hq1 & Hq1s).
  destruct (Regex.ci_prefix (lit "/user/images/") (Regex.skip_opt_quote r))
    as [r2|] eqn:E2; [|discriminate].
  pose proof E2 as E2'.
  apply ci_prefix_no_space in E2';
    [|vm_compute; repeat (constructor; [split; reflexivity|]); constructor].
  destruct E2' as (n2 & Hn2 & Hn2s).
  destruct (Regex.span Regex.is_src_char r2) as [v r3] eqn:E3.
  apply span_split in E3. destruct E3 as [Hr2 Hv].
  destruct v as [|v0 v]; [discriminate|].
  destruct (skip_opt_quote_split r3) as (q2 & Hq2 & Hq2s).
  injection H as <- _.
  set (r4 := Regex.skip_opt_quote r3) in *.
  assert (Hs : n1 ++ r = (n1 ++ q1 ++ n2 ++ (v0 :: v) ++ q2) ++ r4).
  { transitivity (n1 ++ q1 ++ n2 ++ (v0 :: v) ++ q2 ++ r4).
    - f_equal. etransitivity; [exact Hq1|]. f_equal.
      etransitivity; [exact Hn2|]. f_equal.
      etransitivity; [exact Hr2|]. f_equal. exact Hq2.
    - unfold jstr, cu in *. rewrite <- !app_assoc. reflexivity. }
  exists (n1 ++ q1 ++ n2 ++ (v0 :: v) ++ q2).
  assert (Hlen : length (n1 ++ r) - length r4
                 = length (n1 ++ q1 ++ n2 ++ (v0 :: v) ++ q2)).
  { rewrite Hs at 1. rewrite length_app. lia. }
  split; [|split].
  - rewrite Hlen. rewrite Hs at 2. rewrite drop_app_length. exact Hs.
  - symmetry. exact Hlen.
  - rewrite !Forall_app. repeat split; try assumption.
    eapply Forall_impl; [exact Hv|]. intros c Hc.
    unfold Regex.is_src_char in Hc.
    destruct (Regex.is_space c); [|reflexivity].
    rewrite orb_true_r in Hc. discriminate.
Qed.

(** A match that begins after a blank is among the matches of the loop of
    line 365, whatever stands before the blank. *)
Lemma exec_all_finds ws s len a : forall pre skip,
  Regex.is_space ws = true ->
  Regex.img_path_at s = Some (len, a) ->
  skip <= length pre ->
  a ∈ Regex.exec_all Regex.img_path_at (pre ++ ws :: s) skip.
Proof.
  intros pre skip Hws Hat. revert skip.
  induction pre as [|x pre IH]; intros skip Hskip.
  - simpl in Hskip. assert (skip = 0) by lia. subst skip. cbn [app].
    assert (Hnone : Regex.img_path_at (ws :: s) = None).
    { unfold Regex.img_path_at.
      assert (Hc : Regex.ci_prefix (lit "src=") (ws :: s) = None).
      { change (lit "src=") with (115%N :: lit "rc=").
        cbn [Regex.ci_prefix].
        change ((97 <=? 115)%N && (115 <=? 122)%N) with true. cbv iota.
        assert (Hci : Regex.ci 115%N ws = false).
        { unfold Regex.ci.
          destruct (cu_eqb ws 115%N) eqn:Ea;
            [apply cu_eqb_eq in Ea; subst ws; discriminate Hws|].
          destruct (cu_eqb ws (115 - 32)%N) eqn:Eb;
            [apply cu_eqb_eq in Eb; subst ws; discriminate Hws|].
          reflexivity. }
        rewrite Hci. reflexivity. }
      rewrite Hc. reflexivity. }
    cbn [Regex.exec_all]. rewrite Hnone.
    destruct s as [|c s]; [vm_compute in Hat; discriminate Hat|].
    cbn [Regex.exec_all]. rewrite Hat. apply elem_of_cons. left. reflexivity.
  - cbn [app]. destruct skip as [|k].
    + cbn [Regex.exec_all].
      destruct (Regex.img_path_at (x :: pre ++ ws :: s))
        as [[l b]|] eqn:E.
      * apply elem_of_cons. right. apply IH.
        apply img_path_at_split in E. destruct E as (M & HM & Hl & HMs).
        destruct (le_lt_dec l (S (length pre))) as [Hle|Hgt]; [lia|].
        exfalso.
        assert (Hlook : (x :: pre ++ ws :: s) !! (S (length pre)) = Some ws).
        { change (x :: pre ++ ws :: s) with ((x :: pre) ++ ws :: s).
          rewrite lookup_app_r by (simpl; lia).
          replace (S (length pre) - length (x :: pre)) with 0
            by (simpl; lia).
          reflexivity. }
        rewrite HM in Hlook. rewrite lookup_app_l in Hlook by lia.
        rewrite Forall_lookup in HMs. specialize (HMs _ _ Hlook). congruence.
      * apply IH. lia.
    + cbn [Regex.exec_all]. apply IH. simpl in Hskip. lia.
Qed.

End CollectorFinds.

(** An image that a message shows is found as a generated image for the
    messages after it: a quoted [src] attribute that follows a blank and holds
    a path under [/user/images/] with [iig_] in it is among the images
    [collectReferenceImages] works on, with the index of its message, whatever
    else the message holds. *)
Theorem shown_image_is_found (before after : list message)
    (pre post rest : jstr) (ws q : cu) (u : bool) (cur : option nat) :
  Regex.is_space ws = true ->
  Regex.is_quote q = true ->
  rest <> [] ->
  Forall (fun c => Regex.is_src_char c = true) rest ->
  includes (lit "/user/images/" ++ rest) (lit "iig_") = true ->
  cur <> Some (length before) ->
  {| Collector.path := lit "/user/images/" ++ rest;
     Collector.messageIndex := length before |}
  ∈ Collector.generatedImages
      (before
       ++ {| mes := pre ++ [ws] ++ lit "src=" ++ [q]
                    ++ (lit "/user/images/" ++ rest) ++ [q] ++ post;
             is_user := u |} :: after) cur.
Proof.
  intros Hws Hq Hne Hrest Hiig Hcur.
  set (p := lit "/user/images/" ++ rest) in *.
  assert (Hat : exists len,
             Regex.img_path_at (lit "src=" ++ [q] ++ p ++ [q] ++ post)
             = Some (len, p)).
  { unfold Regex.img_path_at. rewrite ci_prefix_self.
    cbn [app Regex.skip_opt_quote]. rewrite Hq.
    unfold p. rewrite <- app_assoc. rewrite ci_prefix_self.
    assert (Hqs : Regex.is_src_char q = false)
      by (unfold Regex.is_src_char; rewrite Hq; reflexivity).
    rewrite (span_all Regex.is_src_char rest (q :: post) Hrest Hqs).
    destruct rest as [|r0 rest']; [congruence|].
    rewrite take_app_length. eauto. }
  destruct Hat as [len Hat].
  rewrite generatedImages_rev. rewrite <- (length_rev before) at 1.
  apply scan_chat_finds.
  - unfold Collector.images_of. cbn [mes].
    apply list_elem_of_fmap. exists p. split; [reflexivity|].
    apply list_elem_of_In. apply filter_In. split; [|exact Hiig].
    apply list_elem_of_In.
    apply (exec_all_finds ws _ len p pre 0 Hws Hat). lia.
  - cbn [mes]. destruct pre; reflexivity.
  - rewrite length_rev. exact Hcur.
Qed.

Lemma shown_image_is_found_witness :
  {| Collector.path := lit "/user/images/c/iig_4.png";
     Collector.messageIndex := 1 |}
  ∈ Collector.generatedImages
      ([ {| mes := lit "hello"; is_user := true |} ]
       ++ {| mes := lit "<img" ++ [32%N] ++ lit "src=" ++ [dq]
                    ++ (lit "/user/images/" ++ lit "c/iig_4.png") ++ [dq]
                    ++ lit ">";
             is_user := false |} :: []) (Some 2).
Proof.
  apply (shown_image_is_found [ {| mes := lit "hello"; is_user := true |} ]
           [] (lit "<img") (lit ">") (lit "c/iig_4.png") 32%N dq false
           (Some 2)).
  - reflexivity.
  - reflexivity.
  - discriminate.
  - vm_compute. repeat (constructor; [reflexivity|]). constructor.
  - vm_compute. reflexivity.
  - discriminate.
Defined.

(** ** The address of the request *)

Section EndpointFacts.

Lemma strip_slash_app e : Adapters.strip_slash (e ++ lit "/") = e.
Proof.
  unfold Adapters.strip_slash. rewrite rev_app_distr. cbn [rev app lit].
  change (rev (lit "/")) with [47%N]. cbn [app].
  rewrite cu_eqb_refl. apply rev_involutive.
Qed.

Lemma strip_slash_id e :
  last e <> Some 47%N -> Adapters.strip_slash e = e.
Proof.
  intros H. unfold Adapters.strip_slash. unfold jstr, cu in *.
  destruct (rev e) as [|c r] eqn:E.
  - apply (f_equal (@rev _)) in E. rewrite rev_involutive in E. exact (eq_sym E).
  - assert (He : e = rev r ++ [c]).
    { apply (f_equal (@rev _)) in E. rewrite rev_involutive in E. exact E. }
    rewrite He in H. rewrite last_snoc in H.
    destruct (cu_eqb c 47%N) eqn:Ec; [|reflexivity].
    apply cu_eqb_eq in Ec. congruence.
Qed.


End EndpointFacts.

(** A slash at the end of the configured endpoint makes no difference: the
    request, whichever adapter builds it, is the same with and without
    it. *)
Theorem endpoint_trailing_slash (toLowerCase : jstr -> jstr) (s : settings)
    (e prompt style : jstr) (o : Adapters.options)
    (referenceImages referenceDataUrls : list jstr) :
  last e <> Some 47%N ->
  Retry.request_of toLowerCase (Form.set_endpoint s (e ++ lit "/")) prompt
    style o referenceImages referenceDataUrls
  = Retry.request_of toLowerCase (Form.set_endpoint s e) prompt style o
      referenceImages referenceDataUrls.
Proof.
  intros H.
  unfold Retry.request_of, Retry.is_gemini, Adapters.generateImageNaistera,
    Adapters.generateImageGemini, Adapters.generateImageOpenAI.
  cbn [Form.set_endpoint apiType endpoint model apiKey size Config.quality
       Config.aspectRatio Config.imageSize naisteraAspectRatio
       naisteraPreset].
  rewrite strip_slash_app, (strip_slash_id e H). reflexivity.
Qed.

Lemma endpoint_trailing_slash_witness :
  Adapters.url
    (Retry.request_of same_case
       (Form.set_endpoint settings_openai
          (lit "https://api.example.com" ++ lit "/"))
       (lit "a cat") [] (Orchestration.options_of cat_tag 0) [] [])
  = lit "https://api.example.com/v1/images/generations".
Proof.
  rewrite (endpoint_trailing_slash same_case settings_openai
             (lit "https://api.example.com") (lit "a cat") []
             (Orchestration.options_of cat_tag 0) [] []).
  - vm_compute. reflexivity.
  - vm_compute. discriminate.
Defined.



(** ** More on [processMessageTags] and [regenerateMessageImages] *)

Section OrchestrationMore.

Import Orchestration Shapes.

Variable h : host.
Variable s : settings.









End OrchestrationMore.



Section MarkerFacts.

Import Orchestration.

Variable h : host.
Variable s : settings.
Variable m : nat.
Variable P0 : gset nat.



End MarkerFacts.



(** [processMessageTags] sets no marker, sends no request, patches nothing
    and saves nothing when the extension is disabled, when there is no such
    message, when the message is the user's, and when the parser finds no
    directive in it. *)
Theorem nothing_to_process (h : Orchestration.host) (s : settings) (m : nat)
    (w : Orchestration.world) :
  m ∉ Orchestration.w_processing w ->
  enabled s = false
  \/ Orchestration.w_chat w !! m = None
  \/ (exists msg, Orchestration.w_chat w !! m = Some msg
                  /\ (is_user msg = true
                      \/ exists log,
                           parseImageTags (Orchestration.h_checkFileExists h)
                             (mes msg)
                             {| checkExistence := true; forceAll := false |}
                           = Some ([], log))) ->
  Orchestration.run h s [0; 0]
    [{| Orchestration.t_kind := Orchestration.Process;
        Orchestration.t_message := m;
        Orchestration.t_pc := Orchestration.Fresh |}] w
  = Some ([{| Orchestration.t_kind := Orchestration.Process;
              Orchestration.t_message := m;
              Orchestration.t_pc := Orchestration.Done |}], w).
Proof.
  intros Hm H.
  cbn [Orchestration.run lookup list_lookup].
  unfold Orchestration.step_task.
  cbn [Orchestration.t_kind Orchestration.t_message Orchestration.t_pc
       Orchestration.step_process].
  destruct (enabled s) eqn:Een; cbn [negb];
    [|cbn [insert list_insert lookup list_lookup Orchestration.t_kind
           Orchestration.t_message Orchestration.t_pc
           Orchestration.step_process]; reflexivity].
  destruct (decide (m ∈ Orchestration.w_processing w)) as [Hin|_];
    [contradiction|].
  destruct H as [H|[H|(msg & Hmsg & H)]]; [discriminate| |].
  - rewrite H. reflexivity.
  - rewrite Hmsg. destruct (is_user msg) eqn:Eu; [reflexivity|].
    destruct H as [H|[log H]]; [discriminate|].
    cbn [insert list_insert lookup list_lookup Orchestration.t_kind
         Orchestration.t_message Orchestration.t_pc
         Orchestration.step_process].
    rewrite H. reflexivity.
Qed.

Lemma nothing_to_process_witness :
  Orchestration.run (host_storing stored_path) settings_openai [0; 0]
    [process_0] (world_of (lit "No image here."))
  = Some ([{| Orchestration.t_kind := Orchestration.Process;
              Orchestration.t_message := 0;
              Orchestration.t_pc := Orchestration.Done |}],
          world_of (lit "No image here.")).
Proof.
  apply (nothing_to_process (host_storing stored_path) settings_openai 0
           (world_of (lit "No image here."))).
  - vm_compute. discriminate.
  - right. right. eexists. split; [reflexivity|]. right.
    eexists. vm_compute. reflexivity.
Defined.

Section OrderFacts.

Import Orchestration.

Variable h : host.
Variable s : settings.


End OrderFacts.




(** ** More on patching *)

Section PatchMore.

Lemma replace_string_same text s :
  no_dollar s -> Patcher.replace_string text s s = text.
Proof.
  intros Hd. unfold Patcher.replace_string.
  destruct (indexOf text s 0) as [pos|] eqn:E; [|reflexivity].
  rewrite getSubstitution_plain by exact Hd.
  destruct s as [|c s].
  - unfold indexOf in E. rewrite Nat.min_0_l, drop_0 in E.
    destruct text; simpl in E; injection E as <-; reflexivity.
  - apply indexOf_Some in E; [|discriminate].
    destruct E as (_ & _ & Hat & _). apply prefixb_inv in Hat.
    destruct Hat as [rest Hrest].
    rewrite <- drop_drop, Hrest, drop_app_length.
    rewrite <- Hrest. apply take_drop.
Qed.

End PatchMore.

(** A directive of the image format without a quoted [src] attribute (an
    unquoted [src], or none) is never patched: whatever the outcome, also
    when the image was made and stored, the message text stays as it was, so
    the directive is there again the next time the message is looked at. *)
Theorem unquoted_src_is_not_patched (mes : jstr) (t : tag)
    (o : Patcher.outcome) :
  isNewFormat t = true ->
  Regex.search Regex.src_attr_at (fullMatch t) 0 = None ->
  no_dollar (fullMatch t) ->
  Patcher.patch mes t o = mes.
Proof.
  intros Hn Hnone Hd. unfold Patcher.patch, Patcher.replacement.
  rewrite Hn, (replace_src_none _ _ Hnone).
  apply replace_string_same. exact Hd.
Qed.

Lemma unquoted_src_is_not_patched_witness :
  (exists log,
     parseImageTags all_exist Cases.img_unquoted_text opts_check
     = Some ([img_tag_of Cases.img_unquoted_full], log))
  /\ Patcher.patch Cases.img_unquoted_text
       (img_tag_of Cases.img_unquoted_full) (Patcher.Success stored_path)
     = Cases.img_unquoted_text.
Proof.
  split; [eexists; vm_compute; reflexivity|].
  apply unquoted_src_is_not_patched.
  - reflexivity.
  - vm_compute. reflexivity.
  - no_dollars.
Defined.

(** ** The list of models *)

(** [fetchModels] asks nothing without an endpoint and a key.  What it
    returns is drawn, in order, from what the server lists, and is free of
    video models: the lower-cased name of each model returned holds none of
    the video keywords, also when it holds an image keyword, and it holds at
    least one of those.  Every model that [isGeminiModel] takes for a
    multimodal-chat model is kept unless it is ruled out as a video or
    vision-preview model. *)
Theorem listed_models_are_image_models (toLowerCase : jstr -> jstr)
    (s : settings) (answer : Responses.http_response (option (list jstr))) :
  (endpoint s = [] \/ apiKey s = [] ->
   Models.fetchModels toLowerCase s answer = (None, []))
  /\ (forall data,
        answer = Responses.Ok (Some data) ->
        sublist (snd (Models.fetchModels toLowerCase s answer)) data)
  /\ (forall id,
        id ∈ snd (Models.fetchModels toLowerCase s answer) ->
        Forall (fun kw => includes (toLowerCase id) kw = false)
          Models.VIDEO_MODEL_KEYWORDS
        /\ Exists (fun kw => includes (toLowerCase id) kw = true)
             Models.IMAGE_MODEL_KEYWORDS)
  /\ (forall id,
        Adapters.isGeminiModel toLowerCase id = true ->
        Models.isImageModel toLowerCase id
        = negb (existsb (includes (toLowerCase id))
                  Models.VIDEO_MODEL_KEYWORDS)
          && negb (includes (toLowerCase id) (lit "vision")
                   && includes (toLowerCase id) (lit "preview"))).
Proof.
  assert (Hfilter : forall l,
             sublist (List.filter (Models.isImageModel toLowerCase) l) l).
  { induction l as [|x l IH]; simpl; [constructor|].
    destruct (Models.isImageModel toLowerCase x);
      [apply sublist_skip|apply sublist_cons]; exact IH. }
  split; [|split; [|split]].
  - intros H. unfold Models.fetchModels.
    destruct H as [-> | ->]; cbn [nonempty negb orb]; [reflexivity|].
    rewrite orb_true_r. reflexivity.
  - intros data ->. unfold Models.fetchModels.
    destruct (_ || _); cbn [snd]; [apply sublist_nil_l|].
    cbn [default from_option id]. apply Hfilter.
  - intros id Hin. unfold Models.fetchModels in Hin.
    destruct (_ || _); cbn [snd] in Hin;
      [apply elem_of_nil in Hin; contradiction|].
    destruct answer as [data|st tx];
      [|apply elem_of_nil in Hin; contradiction].
    apply list_elem_of_In, filter_In in Hin. destruct Hin as [_ Him].
    unfold Models.isImageModel in Him. cbv zeta in Him.
    destruct (existsb (includes (toLowerCase id))
                Models.VIDEO_MODEL_KEYWORDS) eqn:Ev; [discriminate|].
    destruct (_ && _); [discriminate|].
    split.
    + apply Forall_forall. intros kw Hkw.
      destruct (includes (toLowerCase id) kw) eqn:E; [|reflexivity].
      assert (Hex : existsb (includes (toLowerCase id))
                      Models.VIDEO_MODEL_KEYWORDS = true).
      { apply existsb_exists. exists kw. split; [|exact E].
        apply list_elem_of_In. exact Hkw. }
      congruence.
    + apply existsb_exists in Him. destruct Him as (kw & Hkw & E).
      apply Exists_exists. exists kw. split; [|exact E].
      apply list_elem_of_In. exact Hkw.
  - intros id Hg. unfold Adapters.isGeminiModel in Hg.
    unfold Models.isImageModel. cbv zeta.
    destruct (existsb (includes (toLowerCase id))
                Models.VIDEO_MODEL_KEYWORDS); [reflexivity|].
    destruct (_ && _); [reflexivity|].
    cbn [negb andb]. apply existsb_exists.
    exists (lit "nano-banana"). split; [|exact Hg].
    unfold Models.IMAGE_MODEL_KEYWORDS. simpl. tauto.
Qed.
